(** * A shallow embedding of the BitTorrent client

    The Python modules [bencode], [peer_protocol], [peer_manager],
    [tracker_http], [file_manager] and [download_optimized] are rendered as
    Rocq functions.  Python [bytes] are lists of 8-bit characters, Python
    [int] is [Z], a [dict] is an association list in insertion order, and the
    clock, the random generator, the sockets, the trackers and the file
    calls of the operating system are explicit inputs.  Floating-point rates and timestamps are rationals.  The
    limits of the interpreter are left out: integers and their decimal
    strings have any length, and the decoder and the encoder nest to any
    depth. *)

From Stdlib Require Import ZArith NArith QArith Ascii String Lia Bool.
From stdpp Require Import base list sorting gmap strings.

Set Default Proof Using "Type".
Set Warnings "-register-all".
Local Open Scope nat_scope.

(** ** Python built-ins *)

Module Py.

Abbreviation bytes := (list ascii).

(** The literal [b"..."]. *)
Definition b (s : string) : bytes := list_ascii_of_string s.

Definition ord (c : ascii) : N := N_of_ascii c.

(** [x[lo:hi]] for non-negative bounds. *)
Definition slice {A} (x : list A) (lo hi : nat) : list A :=
  take (hi - lo) (drop lo x).

(** [x[lo:hi]] for arbitrary integer bounds: a negative bound counts from
    the end and every bound is clamped to [0, len(x)]. *)
Definition clamp (len k : Z) : Z :=
  if (k <? 0)%Z then Z.max 0 (len + k) else Z.min k len.

Definition zslice {A} (x : list A) (lo hi : Z) : list A :=
  let len := Z.of_nat (length x) in
  slice x (Z.to_nat (clamp len lo)) (Z.to_nat (clamp len hi)).

(** [x[:hi]]. *)
Definition zprefix {A} (x : list A) (hi : Z) : list A :=
  zslice x 0 hi.

(** [x[k]]: [None] stands for [IndexError]. *)
Definition zindex {A} (x : list A) (k : Z) : option A :=
  let len := Z.of_nat (length x) in
  if (k <? 0)%Z
  then (if (len + k <? 0)%Z then None else x !! Z.to_nat (len + k))
  else x !! Z.to_nat k.

(** [data.find(c, start)] for a one-byte needle. *)
Fixpoint find_from (c : ascii) (l : bytes) (pos : nat) : option nat :=
  match l with
  | [] => None
  | x :: r => if bool_decide (x = c) then Some pos else find_from c r (S pos)
  end.

Definition find (c : ascii) (data : bytes) (start : nat) : option nat :=
  find_from c (drop start data) start.

(** [sorted(l, key=key)]: Python's sort is stable and compares keys with
    [<] only.  [reverse=True] keeps the stability and flips the comparison,
    which is [sorted] with the flipped [ltb]. *)
Section Sorted.
Context {A K : Type} (ltb : K → K → bool) (key : A → K).

Fixpoint insert_sorted (x : A) (l : list A) : list A :=
  match l with
  | [] => [x]
  | y :: r => if ltb (key y) (key x) then y :: insert_sorted x r else x :: y :: r
  end.

Fixpoint sorted (l : list A) : list A :=
  match l with
  | [] => []
  | x :: r => insert_sorted x (sorted r)
  end.
End Sorted.

(** Comparison of [bytes]: lexicographic on the unsigned byte values. *)
Fixpoint bytes_ltb (x y : bytes) : bool :=
  match x, y with
  | _, [] => false
  | [], _ :: _ => true
  | a :: x', c :: y' =>
      if (ord a <? ord c)%N then true
      else if (ord c <? ord a)%N then false
      else bytes_ltb x' y'
  end.

(** Decimal digits. *)
Definition is_digit (c : ascii) : bool :=
  (48 <=? ord c)%N && (ord c <=? 57)%N.

Definition digit_val (c : ascii) : Z := Z.of_N (ord c) - 48.

Definition digit_char (d : N) : ascii := ascii_of_N (48 + d).

(** [str(n)] for a natural number: the digits are produced from the least
    significant one; the bit size of [n] bounds their number. *)
Fixpoint str_nat_aux (fuel : nat) (n : N) (acc : bytes) : bytes :=
  let acc' := digit_char (n mod 10) :: acc in
  match fuel with
  | O => acc'
  | S f => if (n / 10 =? 0)%N then acc' else str_nat_aux f (n / 10) acc'
  end.

Definition str_nat (n : N) : bytes := str_nat_aux (N.size_nat n) n [].

(** [str(z).encode('ascii')]. *)
Definition str (z : Z) : bytes :=
  if (z <? 0)%Z then "-"%char :: str_nat (Z.to_N (- z)) else str_nat (Z.to_N z).

(** [int(s)] on an ASCII string, base 10: surrounding white space is
    skipped, one sign is allowed, digits may be separated by single
    underscores.  [None] stands for [ValueError]. *)
Definition is_space (c : ascii) : bool :=
  ((9 <=? ord c)%N && (ord c <=? 13)%N) || (ord c =? 32)%N.

Fixpoint lstrip (s : bytes) : bytes :=
  match s with
  | c :: r => if is_space c then lstrip r else s
  | [] => []
  end.

Definition strip (s : bytes) : bytes := reverse (lstrip (reverse (lstrip s))).

Fixpoint int_digits (acc : Z) (s : bytes) : option Z :=
  match s with
  | [] => Some acc
  | c :: r =>
      if is_digit c then int_digits (acc * 10 + digit_val c) r
      else if bool_decide (c = "_"%char) then
        match r with
        | d :: r' =>
            if is_digit d then int_digits (acc * 10 + digit_val d) r' else None
        | [] => None
        end
      else None
  end.

Definition int_unsigned (s : bytes) : option Z :=
  match s with
  | c :: r => if is_digit c then int_digits (digit_val c) r else None
  | [] => None
  end.

Definition int (s : bytes) : option Z :=
  match strip s with
  | c :: r =>
      if bool_decide (c = "-"%char) then Z.opp <$> int_unsigned r
      else if bool_decide (c = "+"%char) then int_unsigned r
      else int_unsigned (c :: r)
  | [] => None
  end.

(** A [dict] in insertion order: [d[k] = v] overwrites in place or appends. *)
Fixpoint dict_get {K V} `{EqDecision K} (d : list (K * V)) (k : K) : option V :=
  match d with
  | [] => None
  | (k', v) :: r => if bool_decide (k' = k) then Some v else dict_get r k
  end.

Fixpoint dict_set {K V} `{EqDecision K} (d : list (K * V)) (k : K) (v : V)
  : list (K * V) :=
  match d with
  | [] => [(k, v)]
  | (k', v') :: r =>
      if bool_decide (k' = k) then (k, v) :: r else (k', v') :: dict_set r k v
  end.

End Py.

(** ** bencode.py *)

Module Bencode.
Import Py.

Inductive bvalue : Type :=
| BInt (n : Z)
| BBytes (s : bytes)
| BList (l : list bvalue)
| BDict (d : list (bytes * bvalue)).

(** One constructor per [raise] of the decoder; [UncaughtValueError] is the
    unguarded [int(...)] of [_parse_bytestring]. *)
Inductive BencodeError : Type :=
| ExtraData
| UnexpectedEndValue
| InvalidPrefix
| ExpectedI
| MissingE
| EmptyInteger
| NegativeZero
| IntLeadingZeros
| InvalidNegative
| InvalidIntDigits
| MissingColon
| EmptyLength
| NonDigitLength
| LengthLeadingZeros
| UncaughtValueError
| LengthExceedsData
| ExpectedL
| EndInsideList
| ExpectedD
| EndInsideDict.

(** Result of a decoder method: the value and the new cursor, an
    exception, or an exhausted recursion budget. *)
Inductive outcome (A : Type) : Type :=
| Done (a : A)
| Raise (e : BencodeError)
| OutOfFuel.
Arguments Done {A} a.
Arguments Raise {A} e.
Arguments OutOfFuel {A}.

#[global] Instance outcome_ret : MRet outcome := @Done.

#[global] Instance outcome_bind : MBind outcome := λ A B k m,
  match m with
  | Done a => k a
  | Raise e => Raise e
  | OutOfFuel => OutOfFuel
  end.

(** [data[i:i+1] == bytes([c])]. *)
Definition at_is (data : bytes) (i : nat) (c : ascii) : bool :=
  bool_decide (data !! i = Some c).

Definition _parse_int (data : bytes) (i : nat) : outcome (Z * nat) :=
  if negb (at_is data i "i") then Raise ExpectedI else
  let i := i + 1 in
  match find "e" data i with
  | None => Raise MissingE
  | Some end_ =>
      let int_bytes := slice data i end_ in
      if bool_decide (int_bytes = []) then Raise EmptyInteger
      else if bool_decide (int_bytes = b "-0") then Raise NegativeZero
      else if bool_decide (slice int_bytes 0 1 = b "0") && (1 <? length int_bytes)
      then Raise IntLeadingZeros
      else if bool_decide (slice int_bytes 0 1 = b "-")
                && ((length int_bytes =? 1) || bool_decide (slice int_bytes 1 2 = b "0"))
      then Raise InvalidNegative
      else match int int_bytes with
           | None => Raise InvalidIntDigits
           | Some value => Done (value, end_ + 1)
           end
  end.

Definition _parse_bytestring (data : bytes) (i : nat) : outcome (bytes * nat) :=
  match find ":" data i with
  | None => Raise MissingColon
  | Some colon =>
      let len_bytes := slice data i colon in
      if bool_decide (len_bytes = []) then Raise EmptyLength
      else if negb (forallb is_digit len_bytes) then Raise NonDigitLength
      else if bool_decide (slice len_bytes 0 1 = b "0") && (1 <? length len_bytes)
      then Raise LengthLeadingZeros
      else match int len_bytes with
           | None => Raise UncaughtValueError
           | Some len =>
               let start := colon + 1 in
               let end_ := start + Z.to_nat len in
               if length data <? end_ then Raise LengthExceedsData
               else Done (slice data start end_, end_)
           end
  end.

(** [_parse_value] with the [while True] loops of [_parse_list] and
    [_parse_dict]; the three recurse into each other, so they share one
    budget [fuel]. *)
Fixpoint _parse_value (fuel : nat) (data : bytes) (i : nat) {struct fuel}
  : outcome (bvalue * nat) :=
  match fuel with
  | O => OutOfFuel
  | S f =>
      if length data <=? i then Raise UnexpectedEndValue
      else if at_is data i "i" then
        '(n, j) ← _parse_int data i; Done (BInt n, j)
      else if at_is data i "l" then
        '(l, j) ← list_loop f data (i + 1) []; Done (BList l, j)
      else if at_is data i "d" then
        '(d, j) ← dict_loop f data (i + 1) []; Done (BDict d, j)
      else if match data !! i with Some c => is_digit c | None => false end then
        '(s, j) ← _parse_bytestring data i; Done (BBytes s, j)
      else Raise InvalidPrefix
  end
with list_loop (fuel : nat) (data : bytes) (i : nat) (result : list bvalue)
  {struct fuel} : outcome (list bvalue * nat) :=
  match fuel with
  | O => OutOfFuel
  | S f =>
      if length data <=? i then Raise EndInsideList
      else if at_is data i "e" then Done (result, i + 1)
      else '(v, j) ← _parse_value f data i; list_loop f data j (result ++ [v])
  end
with dict_loop (fuel : nat) (data : bytes) (i : nat)
  (result : list (bytes * bvalue)) {struct fuel}
  : outcome (list (bytes * bvalue) * nat) :=
  match fuel with
  | O => OutOfFuel
  | S f =>
      if length data <=? i then Raise EndInsideDict
      else if at_is data i "e" then Done (result, i + 1)
      else
        '(key, j) ← _parse_bytestring data i;
        '(value, k) ← _parse_value f data j;
        dict_loop f data k (dict_set result key value)
  end.

(** [_parse_list] and [_parse_dict] as the source has them: the prefix
    check, then the loop. *)
Definition _parse_list (fuel : nat) (data : bytes) (i : nat)
  : outcome (bvalue * nat) :=
  if negb (at_is data i "l") then Raise ExpectedL
  else '(l, j) ← list_loop fuel data (i + 1) []; Done (BList l, j).

Definition _parse_dict (fuel : nat) (data : bytes) (i : nat)
  : outcome (bvalue * nat) :=
  if negb (at_is data i "d") then Raise ExpectedD
  else '(d, j) ← dict_loop fuel data (i + 1) []; Done (BDict d, j).

(** Every call consumes a byte and every loop round consumes one, so two
    units of budget per input byte are enough. *)
Definition budget (data : bytes) : nat := 2 * length data + 1.

Definition decode (data : bytes) : outcome bvalue :=
  '(value, i) ← _parse_value (budget data) data 0;
  if negb (i =? length data) then Raise ExtraData else Done value.

(** [encode]: the values of a dict are encoded entry by entry, then the
    entries are emitted in the order of [sorted(obj.keys())]. *)
Definition bytes_sorted (keys : list bytes) : list bytes :=
  sorted bytes_ltb id keys.

Definition encode_bytes (s : bytes) : bytes :=
  str (Z.of_nat (length s)) ++ b ":" ++ s.

Fixpoint encode (obj : bvalue) : bytes :=
  match obj with
  | BInt n => b "i" ++ str n ++ b "e"
  | BBytes s => encode_bytes s
  | BList l => b "l" ++ concat (map encode l) ++ b "e"
  | BDict d =>
      let encoded := map (λ kv, (kv.1, encode kv.2)) d in
      b "d"
      ++ concat (map (λ key, encode_bytes key ++ default [] (dict_get encoded key))
                     (bytes_sorted (map fst d)))
      ++ b "e"
  end.

(** Python's [==] on decoded values: dicts compare as maps. *)
Fixpoint py_eq (x y : bvalue) : bool :=
  match x, y with
  | BInt n, BInt m => (n =? m)%Z
  | BBytes s, BBytes t => bool_decide (s = t)
  | BList l, BList l' =>
      (fix go (l l' : list bvalue) : bool :=
         match l, l' with
         | [], [] => true
         | v :: r, v' :: r' => py_eq v v' && go r r'
         | _, _ => false
         end) l l'
  | BDict d, BDict d' =>
      (length d =? length d')
      && (fix go (d : list (bytes * bvalue)) : bool :=
            match d with
            | [] => true
            | (k, v) :: r =>
                match dict_get d' k with
                | Some v' => py_eq v v'
                | None => false
                end && go r
            end) d
  | _, _ => false
  end.

(** The values that are Python objects: no dict holds a key twice. *)
Fixpoint wf (v : bvalue) : Prop :=
  match v with
  | BInt _ | BBytes _ => True
  | BList l =>
      (fix go (l : list bvalue) : Prop :=
         match l with [] => True | v :: r => wf v ∧ go r end) l
  | BDict d =>
      NoDup (map fst d)
      ∧ (fix go (d : list (bytes * bvalue)) : Prop :=
           match d with [] => True | (_, v) :: r => wf v ∧ go r end) d
  end.

End Bencode.

(** ** peer_protocol.py *)

Module PeerProtocol.
Import Py.

Definition pstr : bytes := b "BitTorrent protocol".

Definition create_handshake (info_hash peer_id : bytes) : bytes :=
  [ascii_of_nat (length pstr)] ++ pstr ++ replicate 8 zero ++ info_hash ++ peer_id.

Inductive HandshakeError : Type :=
| HandshakeTooShort
| InvalidPstrlen
| InvalidProtocol.

Record Handshake : Type := { info_hash : bytes; peer_id : bytes }.

Definition parse_handshake (data : bytes) : HandshakeError + Handshake :=
  if length data <? 68 then inl HandshakeTooShort
  else if negb (bool_decide (ord <$> data !! 0 = Some 19%N)) then inl InvalidPstrlen
  else if negb (bool_decide (slice data 1 20 = pstr)) then inl InvalidProtocol
  else inr {| info_hash := slice data 28 48; peer_id := slice data 48 68 |}.

(** [struct.unpack(">I", x)[0]] and [struct.pack(">I", n)]; [None] is
    [struct.error]. *)
Definition unpack_be (x : bytes) : Z :=
  foldl (λ acc c, acc * 256 + Z.of_N (ord c))%Z 0%Z x.

Definition byte_of (z : Z) : ascii := ascii_of_N (Z.to_N z).

Definition pack_be32 (n : Z) : option bytes :=
  if ((0 <=? n) && (n <? 2 ^ 32))%Z
  then Some [byte_of (n / 2 ^ 24); byte_of ((n / 2 ^ 16) mod 256);
             byte_of ((n / 2 ^ 8) mod 256); byte_of (n mod 256)]
  else None.

(** [bytes([n])]; [None] is [ValueError]. *)
Definition bytes_of_int (n : Z) : option bytes :=
  if ((0 <=? n) && (n <? 256))%Z then Some [byte_of n] else None.

Definition create_message (message_id : Z) (payload : bytes) : option bytes :=
  let len := (1 + Z.of_nat (length payload))%Z in
  prefix ← pack_be32 len;
  id ← bytes_of_int message_id;
  Some (prefix ++ id ++ payload).

(** The returned triple [(message_id, payload, bytes_consumed)]. *)
Definition parse_message (data : bytes) : option Z * option bytes * nat :=
  if length data <? 4 then (None, None, 0)
  else
    let len := Z.to_nat (unpack_be (slice data 0 4)) in
    if len =? 0 then (None, Some [], 4)
    else if length data <? 4 + len then (None, None, 0)
    else ((Z.of_N ∘ ord) <$> data !! 4, Some (slice data 5 (4 + len)), 4 + len).

Definition MSG_CHOKE : Z := 0.
Definition MSG_UNCHOKE : Z := 1.
Definition MSG_INTERESTED : Z := 2.
Definition MSG_NOT_INTERESTED : Z := 3.
Definition MSG_HAVE : Z := 4.
Definition MSG_BITFIELD : Z := 5.
Definition MSG_REQUEST : Z := 6.
Definition MSG_PIECE : Z := 7.
Definition MSG_CANCEL : Z := 8.

(** How the sessions use [parse_message] on a stream: every chunk read
    is appended to the buffer, then [parse_message] is applied and the
    bytes it consumed are dropped, until it consumes nothing.  [drain]
    and [receive] are this discipline alone, handing over each
    [(message_id, payload)] pair; they are not a loop of the downloader,
    whose waiting loop leaves on an unchoke ([wait_for_unchoke] below in
    [Downloader]).  A round consumes at least four bytes, so the length
    of the buffer bounds the rounds. *)
Fixpoint drain_aux (fuel : nat) (buffer : bytes)
  : list (option Z * option bytes) * bytes :=
  match fuel with
  | O => ([], buffer)
  | S f =>
      let '(msg_id, payload, consumed) := parse_message buffer in
      if consumed =? 0 then ([], buffer)
      else
        let '(msgs, rest) := drain_aux f (drop consumed buffer) in
        ((msg_id, payload) :: msgs, rest)
  end.

Definition drain (buffer : bytes) : list (option Z * option bytes) * bytes :=
  drain_aux (length buffer) buffer.

Definition feed (st : list (option Z * option bytes) * bytes) (data : bytes)
  : list (option Z * option bytes) * bytes :=
  let '(msgs, rest) := drain (st.2 ++ data) in (st.1 ++ msgs, rest).

Definition receive (chunks : list bytes) : list (option Z * option bytes) * bytes :=
  foldl feed ([], []) chunks.

(** What a peer puts on the wire: a keep-alive or a message. *)
Inductive frame : Type :=
| KeepAlive
| Message (message_id : ascii) (payload : bytes).

Definition wire (f : frame) : bytes :=
  match f with
  | KeepAlive => replicate 4 zero
  | Message id payload =>
      default [] (create_message (Z.of_N (ord id)) payload)
  end.

Definition parsed (f : frame) : option Z * option bytes :=
  match f with
  | KeepAlive => (None, Some [])
  | Message id payload => (Some (Z.of_N (ord id)), Some payload)
  end.

Definition valid_frame (f : frame) : Prop :=
  match f with
  | KeepAlive => True
  | Message _ payload => (1 + Z.of_nat (length payload) < 2 ^ 32)%Z
  end.

(** [struct.pack(">III", a, b, c)]. *)
Definition pack_be32_3 (x y z : Z) : option bytes :=
  px ← pack_be32 x; py ← pack_be32 y; pz ← pack_be32 z; Some (px ++ py ++ pz).

Definition create_request (piece_index begin length : Z) : option bytes :=
  payload ← pack_be32_3 piece_index begin length;
  create_message 6 payload.

Record PieceMessage : Type := { index : Z; begin : Z; block : bytes }.

(** [None] is the [struct.error] of [struct.unpack(">II", payload[:8])] on
    fewer than 8 bytes. *)
Definition parse_piece_message (payload : bytes) : option PieceMessage :=
  let header := slice payload 0 8 in
  if negb (List.length header =? 8) then None
  else Some {| index := unpack_be (slice header 0 4);
               begin := unpack_be (slice header 4 8);
               block := drop 8 payload |}.

(** The indices of the pieces a bitfield announces, most significant bit
    first. *)
Definition parse_bitfield (payload : bytes) : list nat :=
  concat (imap (λ byte_index byte,
                  omap (λ bit_index,
                          if negb (Z.land (Z.of_N (ord byte))
                                          (Z.shiftl 1 (7 - Z.of_nat bit_index)) =? 0)%Z
                          then Some (byte_index * 8 + bit_index) else None)
                       (seq 0 8))
               payload).

End PeerProtocol.

(** ** peer_manager.py *)

Module PeerManager.
Import Py.

Record PeerStats : Type := {
  ip : string;
  port : Z;
  downloaded : Z;
  uploaded : Z;
  last_download_time : Q;
  last_upload_time : Q;
  download_rate : Q;
  upload_rate : Q;
  is_choked_by_us : bool;
  is_choking_us : bool;
  is_interested_in_us : bool;
  we_are_interested : bool;
  connection_time : Q
}.

(** [PeerStats(ip, port)] at time [now]: the three readings of the clock
    that the constructor makes are taken as one. *)
Definition new_peer (peer_ip : string) (peer_port : Z) (now : Q) : PeerStats :=
  {| ip := peer_ip; port := peer_port; downloaded := 0; uploaded := 0;
     last_download_time := now; last_upload_time := now;
     download_rate := 0; upload_rate := 0;
     is_choked_by_us := true; is_choking_us := true;
     is_interested_in_us := false; we_are_interested := false;
     connection_time := now |}.

Definition Qltb (x y : Q) : bool := negb (Qle_bool y x).

Definition update_downloaded (p : PeerStats) (bytes_count : Z) (current_time : Q)
  : PeerStats :=
  let time_diff := (current_time - last_download_time p)%Q in
  {| ip := ip p; port := port p;
     downloaded := downloaded p + bytes_count;
     uploaded := uploaded p;
     last_download_time := current_time;
     last_upload_time := last_upload_time p;
     download_rate :=
       if Qltb 0 time_diff
       then ((4 # 5) * download_rate p + (1 # 5) * (inject_Z bytes_count / time_diff))%Q
       else download_rate p;
     upload_rate := upload_rate p;
     is_choked_by_us := is_choked_by_us p; is_choking_us := is_choking_us p;
     is_interested_in_us := is_interested_in_us p;
     we_are_interested := we_are_interested p;
     connection_time := connection_time p |}.

Definition update_uploaded (p : PeerStats) (bytes_count : Z) (current_time : Q)
  : PeerStats :=
  let time_diff := (current_time - last_upload_time p)%Q in
  {| ip := ip p; port := port p;
     downloaded := downloaded p;
     uploaded := uploaded p + bytes_count;
     last_download_time := last_download_time p;
     last_upload_time := current_time;
     download_rate := download_rate p;
     upload_rate :=
       if Qltb 0 time_diff
       then ((4 # 5) * upload_rate p + (1 # 5) * (inject_Z bytes_count / time_diff))%Q
       else upload_rate p;
     is_choked_by_us := is_choked_by_us p; is_choking_us := is_choking_us p;
     is_interested_in_us := is_interested_in_us p;
     we_are_interested := we_are_interested p;
     connection_time := connection_time p |}.

Definition set_choked (p : PeerStats) (choked : bool) : PeerStats :=
  {| ip := ip p; port := port p;
     downloaded := downloaded p; uploaded := uploaded p;
     last_download_time := last_download_time p;
     last_upload_time := last_upload_time p;
     download_rate := download_rate p; upload_rate := upload_rate p;
     is_choked_by_us := choked; is_choking_us := is_choking_us p;
     is_interested_in_us := is_interested_in_us p;
     we_are_interested := we_are_interested p;
     connection_time := connection_time p |}.

(** [f"{ip}:{port}"]. *)
Definition peer_key (peer_ip : string) (peer_port : Z) : string :=
  peer_ip +:+ ":" +:+ string_of_list_ascii (str peer_port).

Definition get_peer_id (p : PeerStats) : string := peer_key (ip p) (port p).

(** The manager; [peers] is the dict from peer id to the peer's object, in
    insertion order.  An entry stands for the object itself: a peer is
    created once, by [add_peer], and lives under its key. *)
Record PeerManager : Type := {
  peers : list (string * PeerStats);
  max_unchoked_peers : Z;
  optimistic_unchoke_interval : Q;
  last_optimistic_unchoke : Q;
  total_downloaded : Z;
  total_uploaded : Z;
  start_time : Q
}.

Definition init (max_unchoked : Z) (now : Q) : PeerManager :=
  {| peers := []; max_unchoked_peers := max_unchoked;
     optimistic_unchoke_interval := 30; last_optimistic_unchoke := now;
     total_downloaded := 0; total_uploaded := 0; start_time := now |}.

Definition with_peers (m : PeerManager) (ps : list (string * PeerStats))
  : PeerManager :=
  {| peers := ps; max_unchoked_peers := max_unchoked_peers m;
     optimistic_unchoke_interval := optimistic_unchoke_interval m;
     last_optimistic_unchoke := last_optimistic_unchoke m;
     total_downloaded := total_downloaded m;
     total_uploaded := total_uploaded m; start_time := start_time m |}.

Definition with_last_optimistic (m : PeerManager) (t : Q) : PeerManager :=
  {| peers := peers m; max_unchoked_peers := max_unchoked_peers m;
     optimistic_unchoke_interval := optimistic_unchoke_interval m;
     last_optimistic_unchoke := t;
     total_downloaded := total_downloaded m;
     total_uploaded := total_uploaded m; start_time := start_time m |}.

Definition with_totals (m : PeerManager) (down up : Z) : PeerManager :=
  {| peers := peers m; max_unchoked_peers := max_unchoked_peers m;
     optimistic_unchoke_interval := optimistic_unchoke_interval m;
     last_optimistic_unchoke := last_optimistic_unchoke m;
     total_downloaded := down; total_uploaded := up;
     start_time := start_time m |}.

Definition add_peer (m : PeerManager) (peer_ip : string) (peer_port : Z) (now : Q)
  : PeerManager * PeerStats :=
  let peer_id := peer_key peer_ip peer_port in
  match dict_get (peers m) peer_id with
  | Some p => (m, p)
  | None =>
      let p := new_peer peer_ip peer_port now in
      (with_peers m (dict_set (peers m) peer_id p), p)
  end.

Definition get_peer (m : PeerManager) (peer_ip : string) (peer_port : Z)
  : option PeerStats :=
  dict_get (peers m) (peer_key peer_ip peer_port).

(** The peer object is updated in place, under its key. *)
Definition update_download (m : PeerManager) (peer_ip : string) (peer_port : Z)
  (bytes_count : Z) (now : Q) : PeerManager :=
  match get_peer m peer_ip peer_port with
  | Some peer =>
      let m' := with_peers m (dict_set (peers m) (peer_key peer_ip peer_port)
                                (update_downloaded peer bytes_count now)) in
      with_totals m' (total_downloaded m + bytes_count) (total_uploaded m)
  | None => m
  end.

Definition update_upload (m : PeerManager) (peer_ip : string) (peer_port : Z)
  (bytes_count : Z) (now : Q) : PeerManager :=
  match get_peer m peer_ip peer_port with
  | Some peer =>
      let m' := with_peers m (dict_set (peers m) (peer_key peer_ip peer_port)
                                (update_uploaded peer bytes_count now)) in
      with_totals m' (total_downloaded m) (total_uploaded m + bytes_count)
  | None => m
  end.

(** The inputs of the choking policy. *)
Definition is_candidate (e : string * PeerStats) : bool :=
  is_interested_in_us e.2 && negb (is_choking_us e.2).

Definition interested (m : PeerManager) : list (string * PeerStats) :=
  filter (λ e, is_candidate e = true) (peers m).

(** [sorted(interested_peers, key=lambda p: p.download_rate, reverse=True)]. *)
Definition by_rate (l : list (string * PeerStats)) : list (string * PeerStats) :=
  sorted (λ r1 r2, Qltb r2 r1) (λ e, download_rate e.2) l.

(** [p in l], the identity of the object being its key in the dict. *)
Definition among (l : list (string * PeerStats)) (e : string * PeerStats) : bool :=
  bool_decide (e.1 ∈ map fst l).

(** The last loop of [recalculate_choking]. *)
Definition choke_all_but (unchoked : list (string * PeerStats))
  (e : string * PeerStats) : string * PeerStats :=
  let unchoked_ids := map (λ u, get_peer_id u.2) unchoked in
  (e.1, set_choked e.2 (negb (bool_decide (get_peer_id e.2 ∈ unchoked_ids)))).

Definition finish (m : PeerManager) (unchoked : list (string * PeerStats))
  : PeerManager * list (string * PeerStats) :=
  (with_peers m (map (choke_all_but unchoked) (peers m)),
   map (choke_all_but unchoked) unchoked).

(** [recalculate_choking] at time [current_time]; [choice] is the draw of
    [random.choice]; [None] is the [IndexError] of
    [sorted_peers[self.max_unchoked_peers - 1]]. *)
Definition recalculate_choking (m : PeerManager) (current_time : Q) (choice : nat)
  : option (PeerManager * list (string * PeerStats)) :=
  let interested_peers := interested m in
  match interested_peers with
  | [] => Some (m, [])
  | _ :: _ =>
      let sorted_peers := by_rate interested_peers in
      let unchoked := zprefix sorted_peers (max_unchoked_peers m - 1) in
      if Qltb (optimistic_unchoke_interval m)
              (current_time - last_optimistic_unchoke m)
      then
        let other_peers :=
          filter (λ e, among unchoked e = false) interested_peers in
        match other_peers with
        | first :: _ =>
            let optimistic_peer :=
              default first (other_peers !! (choice mod length other_peers)) in
            Some (finish (with_last_optimistic m current_time)
                         (unchoked ++ [optimistic_peer]))
        | [] => Some (finish m unchoked)
        end
      else if (max_unchoked_peers m <=? Z.of_nat (length sorted_peers))%Z then
        nth_peer ← zindex sorted_peers (max_unchoked_peers m - 1);
        Some (finish m (unchoked ++ [nth_peer]))
      else Some (finish m unchoked)
  end.

(** [get_best_peers_for_download(count)]. *)
Definition get_best_peers_for_download (m : PeerManager) (count : Z)
  : list (string * PeerStats) :=
  let available := filter (λ e, is_choking_us e.2 = false) (peers m) in
  zprefix (by_rate available) count.

(** The dict that [get_statistics] returns, at time [now]. *)
Record Statistics : Type := {
  stats_total_downloaded : Z;
  stats_total_uploaded : Z;
  stats_download_rate : Q;
  stats_upload_rate : Q;
  num_peers : nat;
  unchoked_peers : nat;
  elapsed_time : Q
}.

Definition get_statistics (m : PeerManager) (now : Q) : Statistics :=
  let elapsed := (now - start_time m)%Q in
  {| stats_total_downloaded := total_downloaded m;
     stats_total_uploaded := total_uploaded m;
     stats_download_rate :=
       if Qltb 0 elapsed then (inject_Z (total_downloaded m) / elapsed)%Q else 0;
     stats_upload_rate :=
       if Qltb 0 elapsed then (inject_Z (total_uploaded m) / elapsed)%Q else 0;
     num_peers := length (peers m);
     unchoked_peers :=
       length (filter (λ e, is_choked_by_us e.2 = false) (peers m));
     elapsed_time := elapsed |}.

End PeerManager.

(** ** tracker_http.py *)

Module TrackerHTTP.
Import Py.

(** A peer as the tracker client returns it: [{'ip': ..., 'port': ...}]. *)
Record Peer : Type := { peer_ip : string; peer_port : Z }.

#[global] Instance Peer_eq_dec : EqDecision Peer.
Proof. solve_decision. Defined.

Section InfoHash.
(** [hashlib.sha1(...).digest()] is the library's. *)
Context (sha1 : bytes → bytes).

Definition calculate_info_hash (info_dict : Bencode.bvalue) : bytes :=
  sha1 (Bencode.encode info_dict).
End InfoHash.

Definition str_byte (c : ascii) : string := string_of_list_ascii (str_nat (ord c)).

(** One six-byte chunk of the compact format. *)
Definition compact_peer (chunk : bytes) : option Peer :=
  match chunk with
  | [c0; c1; c2; c3; c4; c5] =>
      Some {| peer_ip := str_byte c0 +:+ "." +:+ str_byte c1 +:+ "."
                         +:+ str_byte c2 +:+ "." +:+ str_byte c3;
              peer_port := Z.lor (Z.shiftl (Z.of_N (ord c4)) 8) (Z.of_N (ord c5)) |}
  | _ => None
  end.

Fixpoint chunks_of (fuel : nat) (peer_data : bytes) : list bytes :=
  match fuel with
  | O => []
  | S f =>
      match peer_data with
      | [] => []
      | _ => take 6 peer_data :: chunks_of f (drop 6 peer_data)
      end
  end.

(** [None] is the [ValueError] of a length that is not a multiple of 6. *)
Definition parse_compact_peers (peer_data : bytes) : option (list Peer) :=
  if negb (length peer_data mod 6 =? 0) then None
  else mapM compact_peer (chunks_of (length peer_data) peer_data).

(** [generate_peer_id()]; [randint n] is the draw of [random.randint(0, 255)]
    that has [n] draws before it. *)
Definition generate_peer_id (randint : nat → ascii) : bytes :=
  b "-PY0001-" ++ map randint (seq 0 12).

(** [urllib.parse.quote(data, safe='')] on bytes: the letters, the digits
    and [_.-~] stand for themselves, every other byte is [%XX]. *)
Definition always_safe (c : ascii) : bool :=
  ((65 <=? ord c)%N && (ord c <=? 90)%N)
  || ((97 <=? ord c)%N && (ord c <=? 122)%N)
  || is_digit c
  || bool_decide (c ∈ b "_.-~").

Definition hex_digit (n : N) : ascii :=
  if (n <? 10)%N then ascii_of_N (48 + n) else ascii_of_N (55 + n).

Definition quote_byte (c : ascii) : bytes :=
  if always_safe c then [c]
  else ["%"%char; hex_digit (ord c / 16); hex_digit (ord c mod 16)].

Definition url_encode_bytes (data : bytes) : string :=
  string_of_list_ascii (flat_map quote_byte data).

Definition build_tracker_url (announce_url : string) (info_hash peer_id : bytes)
  (total_length : Z) (port : Z) : string :=
  let params :=
    [("info_hash", url_encode_bytes info_hash);
     ("peer_id", url_encode_bytes peer_id);
     ("port", string_of_list_ascii (str port));
     ("uploaded", "0");
     ("downloaded", "0");
     ("left", string_of_list_ascii (str total_length));
     ("compact", "1");
     ("event", "started")] in
  let query_string :=
    String.concat "&" (map (λ kv : string * string, kv.1 +:+ "=" +:+ kv.2) params) in
  let separator :=
    if bool_decide ("?"%char ∈ list_ascii_of_string announce_url) then "&" else "?" in
  announce_url +:+ separator +:+ query_string.

End TrackerHTTP.

(** ** torrent_meta.py *)

Module TorrentMeta.
Import Py Bencode.

Inductive LoadError : Type :=
| Undecodable (e : BencodeError)
| NotADictionary.

(** [load_torrent] on the bytes of the file. *)
Definition load_torrent (data : bytes) : option (LoadError + list (bytes * bvalue)) :=
  match decode data with
  | Done (BDict meta) => Some (inr meta)
  | Done _ => Some (inl NotADictionary)
  | Raise e => Some (inl (Undecodable e))
  | OutOfFuel => None
  end.

End TorrentMeta.

(** ** download_optimized.py *)

Module Downloader.
Import Py PeerProtocol TrackerHTTP.

(** *** Collecting peers *)

(** The announce URLs of the metainfo, already decoded to text. *)
Record Meta : Type := {
  announce : option string;
  announce_list : option (list (list string))
}.

(** What [request_peers] gives for one announce URL: an exception (the
    request, the decoding, or a [peers] value that [parse_compact_peers]
    refuses), or the decoded reply with its compact [peers] value when it
    has one. *)
Inductive reply : Type :=
| Failed
| Reply (peers : option bytes).

(** [None] is the [KeyError] of a metainfo with neither key. *)
Definition trackers_of (meta : Meta) : option (list string) :=
  match announce_list meta with
  | Some tiers => Some (concat tiers)
  | None => match announce meta with Some url => Some [url] | None => None end
  end.

(** The peers one tracker adds to [peers]. *)
Definition new_peers_of (r : reply) : list Peer :=
  match r with
  | Reply (Some peer_data) => default [] (parse_compact_peers peer_data)
  | _ => []
  end.

(** The loop over [trackers]: the URLs contacted, in order, and the peers
    gathered. *)
Fixpoint contact_all (request_peers : string → reply) (trackers : list string)
  : list string * list Peer :=
  match trackers with
  | [] => ([], [])
  | tracker :: rest =>
      let new_peers := new_peers_of (request_peers tracker) in
      let '(contacted, peers) := contact_all request_peers rest in
      (tracker :: contacted, new_peers ++ peers)
  end.

(** The loop that removes duplicates and admits the peers.  [clock n] is
    the time at the call of [add_peer] that has [n] calls before it. *)
Fixpoint remove_duplicates (peers : list Peer) (seen : gset string)
  (manager : PeerManager.PeerManager) (clock : nat → Q)
  : list Peer * PeerManager.PeerManager :=
  match peers with
  | [] => ([], manager)
  | peer :: rest =>
      let peer_id := PeerManager.peer_key (peer_ip peer) (peer_port peer) in
      if bool_decide (peer_id ∈ seen) then remove_duplicates rest seen manager clock
      else
        let manager' :=
          (PeerManager.add_peer manager (peer_ip peer) (peer_port peer) (clock 0)).1 in
        let '(unique_peers, manager'') :=
          remove_duplicates rest ({[peer_id]} ∪ seen) manager' (clock ∘ S) in
        (peer :: unique_peers, manager'')
  end.

Record TrackerWalk : Type := {
  contacted : list string;
  peers_list : list Peer;
  peer_manager : PeerManager.PeerManager
}.

Definition get_peers_from_tracker (meta : Meta) (request_peers : string → reply)
  (manager : PeerManager.PeerManager) (clock : nat → Q) : option TrackerWalk :=
  trackers ← trackers_of meta;
  let '(urls, peers) := contact_all request_peers trackers in
  let '(unique_peers, manager') := remove_duplicates peers ∅ manager clock in
  Some {| contacted := urls; peers_list := unique_peers; peer_manager := manager' |}.

(** *** The handshake of a session *)

(** A connected socket: the segments that will arrive.  [recv n] gives at
    most [n] bytes of the first one; an empty segment is the end of the
    stream and no segment at all is a timeout. *)
Inductive recv_result : Type :=
| Received (data : bytes) (sock : list bytes)
| TimedOut.

Definition recv (sock : list bytes) (n : nat) : recv_result :=
  match sock with
  | [] => TimedOut
  | [] :: rest => Received [] rest
  | segment :: rest =>
      Received (take n segment)
               (if bool_decide (drop n segment = []) then rest
                else drop n segment :: rest)
  end.

Inductive SessionError : Type :=
| ConnectionClosed
| SocketTimeout
| BadHandshake (e : HandshakeError).

(** The [while len(response) < 68] loop; every round adds a byte at least,
    so 68 rounds are enough. *)
Fixpoint read_handshake (fuel : nat) (sock : list bytes) (response : bytes)
  : option (SessionError + bytes * list bytes) :=
  if 68 <=? length response then Some (inr (response, sock))
  else
    match fuel with
    | O => None
    | S f =>
        match recv sock (68 - length response) with
        | TimedOut => Some (inl SocketTimeout)
        | Received [] _ => Some (inl ConnectionClosed)
        | Received data sock' => read_handshake f sock' (response ++ data)
        end
    end.

(** The check made on the 68 bytes read: [parse_handshake(response)], the
    value of which is dropped.  [None]: the session goes on. *)
Definition check_handshake (our_info_hash : bytes) (response : bytes)
  : option SessionError :=
  match parse_handshake response with
  | inl e => Some (BadHandshake e)
  | inr _ => None
  end.

(** The handshake phase of [download_piece_from_peer]: what is sent, and
    either the error that ends the session or the socket for the messages
    that follow. *)
Definition handshake_phase (our_info_hash our_peer_id : bytes) (sock : list bytes)
  : bytes * option (SessionError + list bytes) :=
  let handshake := create_handshake our_info_hash our_peer_id in
  (handshake,
   r ← read_handshake 68 sock [];
   Some match r with
        | inl e => inl e
        | inr (response, sock') =>
            match check_handshake our_info_hash response with
            | Some e => inl e
            | None => inr sock'
            end
        end).

(** *** Waiting for the unchoke *)

(** The [while True] loop of the waiting phase: messages are taken from
    the buffer until it holds no whole message, or until an unchoke has
    been taken; the bytes after the unchoke stay in the buffer.  A round
    takes four bytes at least, so the length of the buffer bounds the
    rounds. *)
Fixpoint read_until_unchoke (fuel : nat) (buffer : bytes) : bool * bytes :=
  match fuel with
  | O => (false, buffer)
  | S f =>
      let '(msg_id, payload, consumed) := parse_message buffer in
      if consumed =? 0 then (false, buffer)
      else
        let buffer := drop consumed buffer in
        if bool_decide (msg_id = Some MSG_UNCHOKE) then (true, buffer)
        else read_until_unchoke f buffer
  end.

(** The first waiting loop of [download_piece_from_peer], [while not
    unchoked and timeout_counter < 3]: the result is the error that ends
    the session, or [unchoked], the buffer, the count of the timeouts and
    the socket.  The flag written to the statistics of the peer is left
    out.  A round takes a byte from the socket or counts a timeout. *)
Fixpoint wait_for_unchoke (fuel : nat) (sock : list bytes) (buffer : bytes)
  (timeout_counter : nat)
  : option (SessionError + bool * bytes * nat * list bytes) :=
  if 3 <=? timeout_counter then Some (inr (false, buffer, timeout_counter, sock))
  else
    match fuel with
    | O => None
    | S f =>
        match recv sock 4096 with
        | TimedOut => wait_for_unchoke f sock buffer (timeout_counter + 1)
        | Received [] _ => Some (inl ConnectionClosed)
        | Received data sock' =>
            let buffer := buffer ++ data in
            let '(unchoked, buffer) := read_until_unchoke (length buffer) buffer in
            if unchoked then Some (inr (true, buffer, timeout_counter, sock'))
            else wait_for_unchoke f sock' buffer timeout_counter
        end
    end.


(** *** The pieces and their blocks *)

Definition BLOCK_SIZE : Z := 16384.

(** [self.num_pieces] as the constructor computes it; [None] is the
    [ZeroDivisionError] of a piece length of zero.  [if self.max_pieces]
    holds for a limit that is neither [None] nor zero. *)
Definition num_pieces (total_length piece_length : Z) (max_pieces : option Z)
  : option Z :=
  if (piece_length =? 0)%Z then None
  else
    let n := ((total_length + piece_length - 1) / piece_length)%Z in
    Some match max_pieces with
         | Some limit => if (limit =? 0)%Z then n else Z.min n limit
         | None => n
         end.

(** The size [download_piece_from_peer] asks of a piece. *)
Definition piece_len (total_length piece_length n : Z) (max_pieces : option Z)
  (piece_index : Z) : Z :=
  if (piece_index =? n - 1)%Z && bool_decide (max_pieces = None)
  then (total_length - piece_index * piece_length)%Z
  else piece_length.

(** The [(offset, block_size)] of the requests that the block loop sends
    when every block arrives.  A block has a byte at least, so the size of
    the piece bounds the rounds. *)
Fixpoint blocks_from (fuel : nat) (piece_len offset : Z) : list (Z * Z) :=
  match fuel with
  | O => []
  | S f =>
      if (offset <? piece_len)%Z then
        let block_size := Z.min BLOCK_SIZE (piece_len - offset) in
        (offset, block_size) :: blocks_from f piece_len (offset + block_size)
      else []
  end.

Definition block_requests (piece_len : Z) : list (Z * Z) :=
  blocks_from (Z.to_nat piece_len) piece_len 0.

(** *** Pieces *)

Section Pieces.
Context (sha1 : bytes → bytes).

Record State : Type := {
  pieces_data : list (Z * bytes);
  pieces_downloaded : gset Z
}.

Definition initial : State := {| pieces_data := []; pieces_downloaded := ∅ |}.

(** The loop over [self.peers_list] in [download_and_verify_piece].
    [net] holds what the successive calls of [download_piece_from_peer]
    return ([None] also for an exception); a call takes the first. *)
Fixpoint try_peers (attempts : list Peer) (first3 : list Peer) (peer : Peer)
  (expected_hash : bytes) (piece_idx : Z) (st : State)
  (net : list (option bytes)) : State * bool * list (option bytes) :=
  match attempts with
  | [] => (st, false, net)
  | attempt_peer :: rest =>
      if bool_decide (attempt_peer = peer) || bool_decide (attempt_peer ∈ first3)
      then
        let piece_data := mjoin (head net) in
        let net' := tail net in
        match piece_data with
        | Some (c :: data) =>
            let actual_hash := sha1 (c :: data) in
            if bool_decide (actual_hash = expected_hash)
            then ({| pieces_data := dict_set (pieces_data st) piece_idx (c :: data);
                     pieces_downloaded := {[piece_idx]} ∪ pieces_downloaded st |},
                  true, net')
            else try_peers rest first3 peer expected_hash piece_idx st net'
        | _ => try_peers rest first3 peer expected_hash piece_idx st net'
        end
      else try_peers rest first3 peer expected_hash piece_idx st net
  end.

Definition download_and_verify_piece (pieces_hashes : bytes)
  (peers_list : list Peer) (peer : Peer) (piece_idx : Z) (st : State)
  (net : list (option bytes)) : State * bool * list (option bytes) :=
  let expected_hash := zslice pieces_hashes (piece_idx * 20) ((piece_idx + 1) * 20) in
  try_peers peers_list (zprefix peers_list 3) peer expected_hash piece_idx st net.

(** The workers commit under the lock, one after the other; a run is the
    sequence of their calls, each on a peer and a piece. *)
Fixpoint download_pieces (pieces_hashes : bytes) (peers_list : list Peer)
  (tasks : list (Peer * Z)) (st : State) (net : list (option bytes)) : State :=
  match tasks with
  | [] => st
  | (peer, piece_idx) :: rest =>
      let '(st', _, net') :=
        download_and_verify_piece pieces_hashes peers_list peer piece_idx st net in
      download_pieces pieces_hashes peers_list rest st' net'
  end.

(** The bytes [save_file] writes to the output file. *)
Definition save_file (st : State) : bytes :=
  concat (map (λ piece_idx, default [] (dict_get (pieces_data st) piece_idx))
              (sorted Z.ltb id (map fst (pieces_data st)))).

End Pieces.

End Downloader.

(** ** download.py *)

Module Download.
Import Py TrackerHTTP.

Section Pieces.
Context (sha1 : bytes → bytes).

Definition verify_piece (piece_data expected_hash : bytes) : bool :=
  bool_decide (sha1 piece_data = expected_hash).

(** The loop over [peers] for one piece.  [net] holds what the successive
    calls of [download_piece] give, [None] for an exception; a call takes
    the first. *)
Fixpoint try_peers (peers : list Peer) (expected_hash : bytes)
  (net : list (option bytes)) : option bytes * list (option bytes) :=
  match peers with
  | [] => (None, net)
  | peer :: rest =>
      match mjoin (head net) with
      | Some piece_data =>
          if verify_piece piece_data expected_hash then (Some piece_data, tail net)
          else try_peers rest expected_hash (tail net)
      | None => try_peers rest expected_hash (tail net)
      end
  end.

(** The loop over the pieces, from [piece_idx] on, [count] of them; [None]
    is the exception of a piece that no peer gave. *)
Fixpoint download_from (count : nat) (piece_idx : Z) (pieces_hashes : bytes)
  (peers : list Peer) (net : list (option bytes)) (downloaded_pieces : list bytes)
  : option (list bytes) :=
  match count with
  | O => Some downloaded_pieces
  | S n =>
      let expected_hash := zslice pieces_hashes (piece_idx * 20) ((piece_idx + 1) * 20) in
      let '(piece_data, net') := try_peers peers expected_hash net in
      match piece_data with
      | None => None
      | Some data =>
          download_from n (piece_idx + 1) pieces_hashes peers net'
                        (downloaded_pieces ++ [data])
      end
  end.

(** The bytes [download_file] writes to the output file, for
    [range(num_pieces)]. *)
Definition download_file (num_pieces : Z) (pieces_hashes : bytes)
  (peers : list Peer) (net : list (option bytes)) : option bytes :=
  downloaded_pieces ← download_from (Z.to_nat num_pieces) 0 pieces_hashes peers net [];
  Some (concat downloaded_pieces).

End Pieces.

End Download.

(** ** file_manager.py *)

Module FileManager.
Import Py Bencode.

(** [os.path.join] of POSIX. *)
Definition starts_with_sep (s : string) : bool :=
  match s with String "/" _ => true | _ => false end.

Definition ends_with_sep (s : string) : bool :=
  match reverse (list_ascii_of_string s) with
  | c :: _ => bool_decide (c = "/"%char)
  | [] => false
  end.

Definition join2 (path b : string) : string :=
  if starts_with_sep b then b
  else if bool_decide (path = "") || ends_with_sep path then path +:+ b
  else path +:+ "/" +:+ b.

Definition join (a : string) (p : list string) : string := foldl join2 a p.

(** [os.path.dirname] of POSIX: up to the last separator, without the
    trailing separators unless there is nothing else. *)
Fixpoint drop_to_sep (l : list ascii) : list ascii :=
  match l with
  | [] => []
  | c :: r => if bool_decide (c = "/"%char) then l else drop_to_sep r
  end.

Fixpoint lstrip_sep (l : list ascii) : list ascii :=
  match l with
  | c :: r => if bool_decide (c = "/"%char) then lstrip_sep r else l
  | [] => []
  end.

Definition dirname (p : string) : string :=
  let head := drop_to_sep (reverse (list_ascii_of_string p)) in
  string_of_list_ascii
    (reverse (if forallb (λ c, bool_decide (c = "/"%char)) head then head
          else lstrip_sep head)).

(** What the file manager asks of the operating system:
    [Path(dir).mkdir(parents=True, exist_ok=True)], [open(file_path,
    'wb')], and the [write] of the data with the closing of the file. *)
Inductive call : Type :=
| Mkdir (dir : string)
| Open (file_path : string)
| WriteFile (file_path : string) (file_data : bytes).

#[global] Instance call_eq_dec : EqDecision call.
Proof. solve_decision. Defined.

(** The operating system is an input: it accepts or refuses a call, given
    the calls it has performed. *)
Definition OS : Type := list call → call → bool.

(** The exceptions: those of the interpreter, and [CallError] for what a
    refused call raises (an [OSError] such as [IsADirectoryError], or the
    [ValueError] of a path with a null character). *)
Inductive Error : Type :=
| KeyError (key : bytes)
| TypeError
| AttributeError
| UnicodeDecodeError
| CallError (c : call).

Inductive result (A : Type) : Type :=
| Ok (a : A)
| Raised (e : Error).
Arguments Ok {A} a.
Arguments Raised {A} e.

#[global] Instance result_ret : MRet result := @Ok.

#[global] Instance result_bind : MBind result := λ A B k m,
  match m with
  | Ok a => k a
  | Raised e => Raised e
  end.

(** *** Operations on the values of the metainfo

    The info dictionary is what the decoder returns: its values are
    integers, byte strings, lists and dictionaries with byte-string
    keys. *)

(** [v[key]] for a byte-string [key]: only a [dict] can be indexed by
    one. *)
Definition getitem (v : bvalue) (key : bytes) : result bvalue :=
  match v with
  | BDict d =>
      match dict_get d key with
      | Some x => Ok x
      | None => Raised (KeyError key)
      end
  | _ => Raised TypeError
  end.

(** The elements of [for x in v]: those of a list, the keys of a [dict],
    the bytes of a byte string as integers; an integer is not
    iterable. *)
Definition iter (v : bvalue) : result (list bvalue) :=
  match v with
  | BList l => Ok l
  | BDict d => Ok (map (λ kv, BBytes kv.1) d)
  | BBytes s => Ok (map (λ c, BInt (Z.of_N (ord c))) s)
  | BInt _ => Raised TypeError
  end.

(** [n + v] for an integer [n]. *)
Definition add (n : Z) (v : bvalue) : result Z :=
  match v with
  | BInt m => Ok (n + m)%Z
  | _ => Raised TypeError
  end.

(** Well-formed UTF-8, as the strict decoder wants it: the shortest form
    of every code point, no surrogate, nothing above U+10FFFF. *)
Definition in_range (lo hi : N) (c : ascii) : bool :=
  (lo <=? ord c)%N && (ord c <=? hi)%N.

Definition continuation (c : ascii) : bool := in_range 128 191 c.

Fixpoint utf8_valid (s : bytes) : bool :=
  match s with
  | [] => true
  | c :: r =>
      if in_range 0 127 c then utf8_valid r
      else if in_range 194 223 c then
        match r with
        | c1 :: r' => continuation c1 && utf8_valid r'
        | _ => false
        end
      else if in_range 224 239 c then
        match r with
        | c1 :: c2 :: r' =>
            (if (ord c =? 224)%N then in_range 160 191 c1
             else if (ord c =? 237)%N then in_range 128 159 c1
             else continuation c1)
            && continuation c2 && utf8_valid r'
        | _ => false
        end
      else if in_range 240 244 c then
        match r with
        | c1 :: c2 :: c3 :: r' =>
            (if (ord c =? 240)%N then in_range 144 191 c1
             else if (ord c =? 244)%N then in_range 128 143 c1
             else continuation c1)
            && continuation c2 && continuation c3 && utf8_valid r'
        | _ => false
        end
      else false
  end.

(** [v.decode('utf-8')].  A [str] is held as its UTF-8 bytes; the
    separator is one byte there and is part of no other character, so
    [os.path.join] and [os.path.dirname] act on the bytes as on the
    characters.  Only a byte string has the method. *)
Definition decode_utf8 (v : bvalue) : result string :=
  match v with
  | BBytes s =>
      if utf8_valid s then Ok (string_of_list_ascii s) else Raised UnicodeDecodeError
  | _ => Raised AttributeError
  end.

(** [[part.decode('utf-8') for part in parts]]. *)
Fixpoint decode_parts (parts : list bvalue) : result (list string) :=
  match parts with
  | [] => Ok []
  | part :: rest =>
      s ← decode_utf8 part; l ← decode_parts rest; Ok (s :: l)
  end.

(** [os.path.join( *path_parts)]; without a component the call has no
    first argument. *)
Definition join_parts (path_parts : list string) : result string :=
  match path_parts with
  | [] => Raised TypeError
  | part :: parts => Ok (join part parts)
  end.

(** *** The file manager *)

Record FileEntry : Type := { path : string; file_length : bvalue; offset : Z }.

Record FileManager : Type := {
  base_output_dir : string;
  is_multi_file : bool;
  root_name : string;
  file_entries : list FileEntry;
  total_length : bvalue
}.

(** The loop of [_parse_file_list] over [self.info[b'files']]. *)
Fixpoint _parse_file_list (root_name : string) (file_infos : list bvalue)
  (current_offset : Z) : result (list FileEntry) :=
  match file_infos with
  | [] => Ok []
  | file_info :: rest =>
      path_value ← getitem file_info (b "path");
      parts ← iter path_value;
      path_parts ← decode_parts parts;
      relative_path ← join_parts path_parts;
      let full_path := join root_name [relative_path] in
      length ← getitem file_info (b "length");
      next_offset ← add current_offset length;
      files ← _parse_file_list root_name rest next_offset;
      Ok ({| path := full_path; file_length := length; offset := current_offset |}
          :: files)
  end.

(** [sum(f['length'] for f in self.files)]. *)
Fixpoint sum_lengths (files : list FileEntry) (total : Z) : result Z :=
  match files with
  | [] => Ok total
  | f :: rest => total' ← add total (file_length f); sum_lengths rest total'
  end.

(** [FileManager(info, base_output_dir)]. *)
Definition new (info : list (bytes * bvalue)) (base_output_dir : string)
  : result FileManager :=
  if bool_decide (is_Some (dict_get info (b "files"))) then
    name ← getitem (BDict info) (b "name");
    root_name ← decode_utf8 name;
    files_value ← getitem (BDict info) (b "files");
    file_infos ← iter files_value;
    files ← _parse_file_list root_name file_infos 0;
    total ← sum_lengths files 0;
    Ok {| base_output_dir := base_output_dir; is_multi_file := true;
          root_name := root_name; file_entries := files;
          total_length := BInt total |}
  else
    name ← getitem (BDict info) (b "name");
    root_name ← decode_utf8 name;
    length ← getitem (BDict info) (b "length");
    Ok {| base_output_dir := base_output_dir; is_multi_file := false;
          root_name := root_name;
          file_entries := [{| path := root_name; file_length := length;
                              offset := 0 |}];
          total_length := length |}.

(** *** Writing

    A method that calls the operating system takes the calls performed so
    far and returns its result with the calls performed after it; a
    refused call raises and is not in them. *)
Definition io (A : Type) : Type := list call → result A * list call.

Definition perform (os : OS) (c : call) : io () := λ performed,
  if os performed c then (Ok (), performed ++ [c])
  else (Raised (CallError c), performed).

(** The loop of [create_directories] over [self.files]. *)
Fixpoint create_file_directories (os : OS) (base_output_dir : string)
  (files : list FileEntry) : io () := λ performed,
  match files with
  | [] => (Ok (), performed)
  | file_info :: rest =>
      let file_path := join base_output_dir [path file_info] in
      let file_dir := dirname file_path in
      if bool_decide (file_dir = "") then
        create_file_directories os base_output_dir rest performed
      else
        match perform os (Mkdir file_dir) performed with
        | (Ok _, performed') =>
            create_file_directories os base_output_dir rest performed'
        | (Raised e, performed') => (Raised e, performed')
        end
  end.

Definition create_directories (os : OS) (fm : FileManager) : io () := λ performed,
  if is_multi_file fm then
    let root_dir := join (base_output_dir fm) [root_name fm] in
    match perform os (Mkdir root_dir) performed with
    | (Ok _, performed') =>
        create_file_directories os (base_output_dir fm) (file_entries fm) performed'
    | (Raised e, performed') => (Raised e, performed')
    end
  else perform os (Mkdir (base_output_dir fm)) performed.

(** [all_data]: the pieces in the order of their indices. *)
Definition all_data (pieces_data : list (Z * bytes)) : bytes :=
  concat (map (λ piece_idx, default [] (dict_get pieces_data piece_idx))
              (sorted Z.ltb id (map fst pieces_data))).

(** The loop of [write_pieces] over [self.files].  The line printed
    after a file is left out: the standard output is taken to accept
    every path. *)
Fixpoint write_files (os : OS) (base_output_dir : string) (all_data : bytes)
  (files : list FileEntry) (bytes_written : Z) : io Z := λ performed,
  match files with
  | [] => (Ok bytes_written, performed)
  | file_info :: rest =>
      let file_path := join base_output_dir [path file_info] in
      let file_offset := offset file_info in
      match add file_offset (file_length file_info) with
      | Raised e => (Raised e, performed)
      | Ok file_end =>
          let file_data := zslice all_data file_offset file_end in
          match perform os (Open file_path) performed with
          | (Ok _, performed') =>
              match perform os (WriteFile file_path file_data) performed' with
              | (Ok _, performed'') =>
                  write_files os base_output_dir all_data rest
                    (bytes_written + Z.of_nat (List.length file_data)) performed''
              | (Raised e, performed'') => (Raised e, performed'')
              end
          | (Raised e, performed') => (Raised e, performed')
          end
      end
  end.

Definition write_pieces (os : OS) (fm : FileManager) (pieces_data : list (Z * bytes))
  : io Z := λ performed,
  match create_directories os fm performed with
  | (Ok _, performed') =>
      write_files os (base_output_dir fm) (all_data pieces_data) (file_entries fm) 0
        performed'
  | (Raised e, performed') => (Raised e, performed')
  end.

End FileManager.

(** * Properties *)

(** ** Sorting *)

Module SortedFacts.
Import Py.

Lemma StronglySorted_impl {A} (R R' : A → A → Prop) (l : list A) :
  (∀ x y, R x y → R' x y) → StronglySorted R l → StronglySorted R' l.
Proof.
  intros HR. induction 1 as [|x l _ IH Hx]; constructor; [done|].
  eapply Forall_impl; [exact Hx | apply HR].
Qed.

Section Sorted.
Context {A K : Type} (ltb : K → K → bool) (key : A → K).
Implicit Types (x : A) (l : list A).

Lemma insert_sorted_Permutation x l : insert_sorted ltb key x l ≡ₚ x :: l.
Proof.
  induction l as [|y l IH]; simpl; [done|].
  destruct (ltb (key y) (key x)); [|done].
  rewrite IH. apply Permutation_swap.
Qed.

Lemma sorted_Permutation l : sorted ltb key l ≡ₚ l.
Proof.
  induction l as [|x l IH]; simpl; [done|].
  by rewrite insert_sorted_Permutation, IH.
Qed.

Lemma sorted_length l : length (sorted ltb key l) = length l.
Proof. by rewrite sorted_Permutation. Qed.

Lemma elem_of_sorted x l : x ∈ sorted ltb key l ↔ x ∈ l.
Proof. by rewrite sorted_Permutation. Qed.

Lemma sorted_nil_inv l : sorted ltb key l = [] → l = [].
Proof.
  intros Hnil. apply Permutation_nil_r. rewrite <-Hnil.
  symmetry. apply sorted_Permutation.
Qed.

(** [x] may stand before [y]: [key y < key x] does not hold. *)
Definition may_precede (x y : A) : Prop := ltb (key y) (key x) = false.

Section Order.
Hypothesis ltb_asym : ∀ a c : K, ltb a c = true → ltb c a = false.
Hypothesis ltb_negtrans :
  ∀ a c d : K, ltb c a = false → ltb d c = false → ltb d a = false.

Lemma insert_sorted_StronglySorted x l :
  StronglySorted may_precede l → StronglySorted may_precede (insert_sorted ltb key x l).
Proof using ltb_asym ltb_negtrans.
  induction 1 as [|y l Hl IH Hy]; simpl.
  - repeat constructor.
  - destruct (ltb (key y) (key x)) eqn:Hyx.
    + constructor; [done|]. rewrite insert_sorted_Permutation.
      constructor; [|done]. by apply ltb_asym.
    + constructor; [by constructor|]. constructor; [done|].
      eapply Forall_impl; [exact Hy|]. intros z Hz. by eapply ltb_negtrans.
Qed.

Lemma sorted_StronglySorted l : StronglySorted may_precede (sorted ltb key l).
Proof using ltb_asym ltb_negtrans.
  induction l; simpl; [constructor|]. by apply insert_sorted_StronglySorted.
Qed.
End Order.

(** Stability: the elements of a class whose keys are not ordered by [<]
    come out in the order they went in. *)
Lemma insert_sorted_filter (P : A → Prop) `{∀ x, Decision (P x)} x l :
  (∀ y, P x → P y → ltb (key y) (key x) = false) →
  filter P (insert_sorted ltb key x l) = filter P (x :: l).
Proof.
  intros Hclass. induction l as [|y l IH]; simpl; [done|].
  destruct (ltb (key y) (key x)) eqn:Hyx; [|done].
  rewrite (filter_cons P y), IH, !(filter_cons P).
  destruct (decide (P x)) as [Hx|Hx], (decide (P y)) as [Hy|Hy]; try done.
  by rewrite Hclass in Hyx.
Qed.

Lemma sorted_stable (P : A → Prop) `{∀ x, Decision (P x)} l :
  (∀ x y, P x → P y → ltb (key y) (key x) = false) →
  filter P (sorted ltb key l) = filter P l.
Proof.
  intros Hclass. induction l as [|x l IH]; simpl; [done|].
  rewrite insert_sorted_filter by auto. by rewrite !filter_cons, IH.
Qed.
End Sorted.

(** The order of [bytes]. *)
Lemma bytes_ltb_irrefl (x : bytes) : bytes_ltb x x = false.
Proof.
  induction x as [|a x IH]; simpl; [done|]. by rewrite N.ltb_irrefl.
Qed.

Lemma bytes_ltb_asym (x y : bytes) : bytes_ltb x y = true → bytes_ltb y x = false.
Proof.
  revert y. induction x as [|a x IH]; intros [|c y]; simpl; try done.
  destruct (N.ltb_spec (ord a) (ord c)), (N.ltb_spec (ord c) (ord a));
    try done; try lia. apply IH.
Qed.

Lemma bytes_ltb_negtrans (x y z : bytes) :
  bytes_ltb y x = false → bytes_ltb z y = false → bytes_ltb z x = false.
Proof.
  revert y z. induction x as [|a x IH]; intros [|c y] [|d z]; simpl; try done.
  destruct (N.ltb_spec (ord c) (ord a)), (N.ltb_spec (ord a) (ord c)),
    (N.ltb_spec (ord d) (ord c)), (N.ltb_spec (ord c) (ord d)),
    (N.ltb_spec (ord d) (ord a)), (N.ltb_spec (ord a) (ord d));
    try done; try lia.
  apply IH.
Qed.

Lemma bytes_ltb_total (x y : bytes) :
  bytes_ltb x y = false → bytes_ltb y x = false → x = y.
Proof.
  revert y. induction x as [|a x IH]; intros [|c y]; simpl; try done.
  destruct (N.ltb_spec (ord a) (ord c)), (N.ltb_spec (ord c) (ord a));
    try done; try lia.
  intros Hxy Hyx. f_equal; [|by apply IH].
  unfold ord in *. rewrite <-(ascii_N_embedding a), <-(ascii_N_embedding c).
  f_equal. lia.
Qed.

(** Two lists of keys with the same elements sort to the same list. *)
Lemma bytes_sorted_unique (l1 l2 : list bytes) :
  l1 ≡ₚ l2 → Bencode.bytes_sorted l1 = Bencode.bytes_sorted l2.
Proof.
  intros Hperm. unfold Bencode.bytes_sorted.
  eapply (StronglySorted_unique_strong (may_precede bytes_ltb id)).
  - intros x y _ _ Hxy Hyx. by apply bytes_ltb_total.
  - apply sorted_StronglySorted; [apply bytes_ltb_asym | apply bytes_ltb_negtrans].
  - apply sorted_StronglySorted; [apply bytes_ltb_asym | apply bytes_ltb_negtrans].
  - by rewrite !sorted_Permutation.
Qed.

End SortedFacts.


(** ** Dictionaries *)

Module DictFacts.
Import Py.

Section Dict.
Context {K V : Type} `{EqDecision K}.
Implicit Types (d : list (K * V)) (k : K) (v : V).

Lemma dict_get_set_eq d k v : dict_get (dict_set d k v) k = Some v.
Proof.
  induction d as [|[k' v'] d IH]; simpl.
  - by rewrite bool_decide_eq_true_2.
  - case_bool_decide; simpl.
    + by rewrite bool_decide_eq_true_2.
    + by rewrite bool_decide_eq_false_2.
Qed.

Lemma dict_get_set_ne d k k' v :
  k ≠ k' → dict_get (dict_set d k v) k' = dict_get d k'.
Proof.
  intros Hne. induction d as [|[k0 v0] d IH]; simpl.
  - by rewrite bool_decide_eq_false_2.
  - case_bool_decide as Hk; simpl.
    + subst k0. by rewrite !bool_decide_eq_false_2.
    + by rewrite IH.
Qed.

Lemma dict_get_None d k : dict_get d k = None ↔ k ∉ map fst d.
Proof.
  induction d as [|[k' v'] d IH]; simpl.
  - split; [intros _; apply not_elem_of_nil | done].
  - rewrite not_elem_of_cons. case_bool_decide as Hk.
    + split; [done | intros [Hne _]; by subst].
    + rewrite IH. split; [by intros ?; split | by intros [_ ?]].
Qed.

Lemma dict_get_Some_elem d k v : dict_get d k = Some v → (k, v) ∈ d.
Proof.
  induction d as [|[k' v'] d IH]; simpl; [done|].
  case_bool_decide; subst.
  - intros [= ->]. left.
  - intros. right. auto.
Qed.

Lemma dict_get_is_Some d k : is_Some (dict_get d k) ↔ k ∈ map fst d.
Proof.
  rewrite <-not_eq_None_Some, dict_get_None.
  split; [apply dec_stable | auto].
Qed.

Lemma dict_get_NoDup d k v : NoDup (map fst d) → (k, v) ∈ d → dict_get d k = Some v.
Proof.
  induction d as [|[k' v'] d IH]; simpl; intros Hnd Hin.
  - by apply elem_of_nil in Hin.
  - apply NoDup_cons in Hnd as [Hk' Hnd]. apply elem_of_cons in Hin as [[= <- <-]|Hin].
    + by rewrite bool_decide_eq_true_2.
    + rewrite bool_decide_eq_false_2; [auto|].
      intros ->. apply Hk'. apply list_elem_of_fmap. by exists (k, v).
Qed.

(** An update of a present key keeps the keys and their order; a new key
    goes to the end. *)
Lemma dict_set_keys_present d k v :
  k ∈ map fst d → map fst (dict_set d k v) = map fst d.
Proof.
  induction d as [|[k' v'] d IH]; cbn [dict_set map fst].
  - intros Hin. by apply elem_of_nil in Hin.
  - intros Hin. case_bool_decide as Hk; [by subst|].
    cbn [map fst]. f_equal. apply IH.
    apply elem_of_cons in Hin as [->|?]; done.
Qed.

Lemma dict_set_keys_fresh d k v :
  k ∉ map fst d → map fst (dict_set d k v) = map fst d ++ [k].
Proof.
  induction d as [|[k' v'] d IH]; cbn [dict_set map fst]; [done|].
  intros [Hne Hin]%not_elem_of_cons. rewrite bool_decide_eq_false_2 by done.
  cbn [map fst app]. f_equal. by apply IH.
Qed.

Lemma dict_set_fresh d k v : k ∉ map fst d → dict_set d k v = d ++ [(k, v)].
Proof.
  induction d as [|[k' v'] d IH]; simpl; [done|].
  intros [Hne Hk]%not_elem_of_cons.
  rewrite bool_decide_eq_false_2 by done. by rewrite IH.
Qed.

Lemma dict_set_keys d k v :
  map fst (dict_set d k v)
  = if decide (k ∈ map fst d) then map fst d else map fst d ++ [k].
Proof.
  destruct (decide (k ∈ map fst d)).
  - by apply dict_set_keys_present.
  - by apply dict_set_keys_fresh.
Qed.

Lemma dict_set_NoDup d k v : NoDup (map fst d) → NoDup (map fst (dict_set d k v)).
Proof.
  intros Hnd. rewrite dict_set_keys. case_decide; [done|].
  apply NoDup_app. split_and!; [done | | apply NoDup_singleton].
  intros x Hx ->%list_elem_of_singleton. done.
Qed.

Lemma dict_set_Forall (P : K * V → Prop) d k v :
  Forall P d → P (k, v) → Forall P (dict_set d k v).
Proof.
  intros Hd Hkv. induction Hd as [|[k' v'] d Hk' Hd IH]; simpl.
  - by constructor.
  - case_bool_decide; constructor; done.
Qed.

Lemma dict_set_length_present d k v :
  k ∈ map fst d → length (dict_set d k v) = length d.
Proof.
  intros Hin. rewrite <-(length_map fst (dict_set d k v)), dict_set_keys.
  rewrite decide_True by done. by rewrite length_map.
Qed.
End Dict.
End DictFacts.

(** ** The peer registry *)

Module PeerManagerFacts.
Import Py PeerManager DictFacts.

(** The fields of a peer that an update of the download statistics leaves
    alone, and those an update of the upload statistics leaves alone. *)
Definition same_but_download (p q : PeerStats) : Prop :=
  ip q = ip p ∧ port q = port p ∧ uploaded q = uploaded p
  ∧ upload_rate q = upload_rate p ∧ last_upload_time q = last_upload_time p
  ∧ is_choked_by_us q = is_choked_by_us p ∧ is_choking_us q = is_choking_us p
  ∧ is_interested_in_us q = is_interested_in_us p
  ∧ we_are_interested q = we_are_interested p
  ∧ connection_time q = connection_time p.

Definition same_but_upload (p q : PeerStats) : Prop :=
  ip q = ip p ∧ port q = port p ∧ downloaded q = downloaded p
  ∧ download_rate q = download_rate p
  ∧ last_download_time q = last_download_time p
  ∧ is_choked_by_us q = is_choked_by_us p ∧ is_choking_us q = is_choking_us p
  ∧ is_interested_in_us q = is_interested_in_us p
  ∧ we_are_interested q = we_are_interested p
  ∧ connection_time q = connection_time p.

(** The manager fields other than [peers] and the two totals. *)
Definition same_settings (m m' : PeerManager) : Prop :=
  max_unchoked_peers m' = max_unchoked_peers m
  ∧ optimistic_unchoke_interval m' = optimistic_unchoke_interval m
  ∧ last_optimistic_unchoke m' = last_optimistic_unchoke m
  ∧ start_time m' = start_time m.

End PeerManagerFacts.

(** ** The handshake of a session *)

Module HandshakeFacts.
Import Py PeerProtocol Downloader.

Lemma recv_length sock n data sock' :
  recv sock n = Received data sock' → length data ≤ n.
Proof.
  destruct sock as [|[|c segment] rest]; simpl; intros [= <- <-]; simpl; [lia|].
  rewrite length_take. lia.
Qed.

(** With a budget that covers the bytes still missing, the reading loop
    ends, and when it ends with a response the response has exactly 68
    bytes. *)
Lemma read_handshake_exact fuel sock response :
  length response ≤ 68 → 68 - length response ≤ fuel →
  ∃ r, read_handshake fuel sock response = Some r
       ∧ ∀ resp sock', r = inr (resp, sock') → length resp = 68.
Proof.
  revert sock response. induction fuel as [|fuel IH]; intros sock response Hle Hfuel.
  - assert (length response = 68) as Hlen by lia.
    simpl. rewrite Hlen. simpl. eexists. split; [done|]. by intros ?? [= <- <-].
  - cbn [read_handshake]. destruct (68 <=? length response) eqn:Hfull.
    + apply Nat.leb_le in Hfull. eexists. split; [done|].
      intros ?? [= <- <-]. lia.
    + apply Nat.leb_gt in Hfull.
      destruct (recv sock (68 - length response)) as [data sock'|] eqn:Hrecv;
        [|eexists; split; [done | by intros ?? [=]]].
      destruct data as [|c data]; [eexists; split; [done | by intros ?? [=]]|].
      apply recv_length in Hrecv. simpl in Hrecv.
      apply IH; rewrite length_app; simpl; lia.
Qed.

End HandshakeFacts.

Section Handshake.
Import Py PeerProtocol Downloader HandshakeFacts.

(** C6, as the code has it.  The handshake phase reads exactly 68 bytes
    or ends on a closed connection or a timeout; on the 68 bytes read,
    the session ends with a handshake error exactly when the first byte
    is not 19 or the next 19 bytes are not the protocol string.  The
    [info_hash] field of the response is extracted and never compared:
    the outcome is the same for every info-hash of ours. *)
Theorem handshake_check (our_info_hash response : bytes) (sock : list bytes) :
  (∃ r, read_handshake 68 sock [] = Some r
        ∧ ∀ resp sock', r = inr (resp, sock') → length resp = 68)
  ∧ (length response = 68 →
     (check_handshake our_info_hash response = None
      ↔ ord <$> response !! 0 = Some 19%N ∧ slice response 1 20 = pstr)
     ∧ (∀ e, check_handshake our_info_hash response = Some e →
             e = BadHandshake InvalidPstrlen ∨ e = BadHandshake InvalidProtocol)
     ∧ (∀ other_info_hash,
          check_handshake other_info_hash response
          = check_handshake our_info_hash response)).
Proof.
  split; [apply read_handshake_exact; simpl; lia|].
  intros Hlen. unfold check_handshake, parse_handshake.
  rewrite Hlen. cbn [Nat.ltb Nat.leb].
  destruct (decide (ord <$> response !! 0 = Some 19%N)) as [H0|H0];
    [rewrite (bool_decide_eq_true_2 _ H0) | rewrite (bool_decide_eq_false_2 _ H0)];
    cbn [negb];
    [destruct (decide (slice response 1 20 = pstr)) as [H1|H1];
     [rewrite (bool_decide_eq_true_2 _ H1) | rewrite (bool_decide_eq_false_2 _ H1)];
     cbn [negb]|].
  - split_and!; [done | done | done].
  - split_and!; [split; [done | by intros [_ ?]] | | done].
    intros e [= <-]. by right.
  - split_and!; [split; [done | by intros [? _]] | | done].
    intros e [= <-]. by left.
Qed.

Definition foreign_response : bytes :=
  create_handshake (replicate 20 "z"%char) (replicate 20 "p"%char).

Lemma handshake_check_witness :
  check_handshake (replicate 20 "a"%char) foreign_response = None
  ↔ ord <$> foreign_response !! 0 = Some 19%N ∧ slice foreign_response 1 20 = pstr.
Proof.
  exact (proj1 (proj2 (handshake_check (replicate 20 "a"%char) foreign_response [])
                  eq_refl)).
Defined.

(** C6 as stated fails: a 68-byte response with the right protocol string
    and an info-hash that is not ours passes the check, and the session
    goes on to the messages. *)
Lemma handshake_foreign_info_hash_accepted :
  let ours := replicate 20 "a"%char in
  length foreign_response = 68
  ∧ (∃ h, parse_handshake foreign_response = inr h ∧ info_hash h ≠ ours)
  ∧ check_handshake ours foreign_response = None
  ∧ (handshake_phase ours (replicate 20 "q"%char) [foreign_response; b "more"]).2
    = Some (inr [b "more"]).
Proof.
  split_and!; [reflexivity | | reflexivity | reflexivity].
  eexists. split; [reflexivity|]. simpl. discriminate.
Qed.

End Handshake.

(** ** The file writer *)

Module FileManagerFacts.
Import Py Bencode FileManager.

(** The files written by the calls performed. *)
Definition written (performed : list call) : list (string * bytes) :=
  omap (λ c, match c with
             | WriteFile file_path file_data => Some (file_path, file_data)
             | _ => None
             end) performed.

(** An operating system that refuses nothing. *)
Definition permissive : OS := λ _ _, true.


Definition text (s : bytes) : string := string_of_list_ascii s.


Lemma written_app performed performed' :
  written (performed ++ performed') = written performed ++ written performed'.
Proof. unfold written. by rewrite omap_app. Qed.

Lemma written_mkdir performed dir :
  written (performed ++ [Mkdir dir]) = written performed.
Proof. rewrite written_app. simpl. by rewrite app_nil_r. Qed.

Lemma written_open performed file_path :
  written (performed ++ [Open file_path]) = written performed.
Proof. rewrite written_app. simpl. by rewrite app_nil_r. Qed.

Lemma written_write performed file_path file_data :
  written (performed ++ [WriteFile file_path file_data])
  = written performed ++ [(file_path, file_data)].
Proof. by rewrite written_app. Qed.

Lemma perform_cases os c performed :
  (os performed c = true ∧ perform os c performed = (Ok (), performed ++ [c]))
  ∨ (os performed c = false ∧ perform os c performed = (Raised (CallError c), performed)).
Proof. unfold perform. destruct (os performed c); [by left | by right]. Qed.

(** A refusal is the only exception of a run: [refused os r performed]
    says that a run that ended with [r] after the calls [performed] either
    returned or was refused a call by [os] there. *)
Definition refused {A} (os : OS) (r : result A) (performed : list call) : Prop :=
  ∀ e, r = Raised e → ∃ c, e = CallError c ∧ os performed c = false.

Lemma create_file_directories_spec os base files performed :
  let run := create_file_directories os base files performed in
  written run.2 = written performed ∧ refused os run.1 run.2.
Proof.
  revert performed. induction files as [|file_info rest IH]; intros performed.
  - split; [done|]. by intros e.
  - cbn [create_file_directories]. case_bool_decide; [apply IH|].
    destruct (perform_cases os (Mkdir (dirname (join base [path file_info]))) performed)
      as [[_ ->]|[Href ->]].
    + destruct (IH (performed ++ [Mkdir (dirname (join base [path file_info]))]))
        as [Hw Hr].
      split; [|done]. by rewrite Hw, written_mkdir.
    + split; [done|]. intros e [= <-]. by eexists.
Qed.

Lemma create_directories_spec os fm performed :
  let run := create_directories os fm performed in
  written run.2 = written performed ∧ refused os run.1 run.2.
Proof.
  unfold create_directories. destruct (is_multi_file fm).
  - destruct (perform_cases os (Mkdir (join (base_output_dir fm) [root_name fm])) performed)
      as [[_ ->]|[Href ->]].
    + destruct (create_file_directories_spec os (base_output_dir fm) (file_entries fm)
                  (performed ++ [Mkdir (join (base_output_dir fm) [root_name fm])]))
        as [Hw Hr].
      split; [|done]. by rewrite Hw, written_mkdir.
    + split; [done|]. intros e [= <-]. by eexists.
  - destruct (perform_cases os (Mkdir (base_output_dir fm)) performed)
      as [[_ ->]|[Href ->]].
    + cbn [fst snd]. split; [|by intros e]. by rewrite written_mkdir.
    + split; [done|]. intros e [= <-]. by eexists.
Qed.

(** The bytes of the file of an entry whose length is the integer
    [len]. *)
Definition file_data_of (all_data : bytes) (file_info : FileEntry) (len : Z) : bytes :=
  zslice all_data (offset file_info) (offset file_info + len).

(** The loop over entries with integer lengths: it writes the first [k]
    files, each at its path and with its bytes; it returns after all of
    them, and stops before only at a call that is refused. *)
Lemma write_files_spec os base all_data files lens bytes_written performed :
  map file_length files = map BInt lens →
  let run := write_files os base all_data files bytes_written performed in
  let planned :=
    zip_with (λ file_info len, (join base [path file_info],
                                file_data_of all_data file_info len)) files lens in
  (∃ k, written run.2 = written performed ++ take k planned)
  ∧ (∀ n, run.1 = Ok n →
          written run.2 = written performed ++ planned
          ∧ n = (bytes_written
                 + Z.of_nat (List.length (concat (map snd planned))))%Z)
  ∧ refused os run.1 run.2.
Proof.
  revert lens bytes_written performed.
  induction files as [|file_info rest IH]; intros lens bytes_written performed Hlens.
  - destruct lens; [|done]. cbn. split_and!.
    + exists 0. by rewrite app_nil_r.
    + intros n [= <-]. rewrite app_nil_r. split; [done | lia].
    + by intros e.
  - destruct lens as [|len lens]; [done|]. injection Hlens as Hlen Hlens.
    cbn [write_files zip_with]. rewrite Hlen. cbn [add].
    fold (file_data_of all_data file_info len).
    set (file_path := join base [path file_info]).
    set (file_data := file_data_of all_data file_info len).
    destruct (perform_cases os (Open file_path) performed) as [[_ ->]|[Href ->]].
    + destruct (perform_cases os (WriteFile file_path file_data)
                  (performed ++ [Open file_path])) as [[_ ->]|[Href ->]].
      * specialize (IH lens (bytes_written + Z.of_nat (List.length file_data))%Z
                      ((performed ++ [Open file_path])
                       ++ [WriteFile file_path file_data]) Hlens).
        cbv zeta in IH. destruct IH as ((k & Hk) & Hok & Hr).
        rewrite written_write, written_open in Hk, Hok.
        rewrite <-(app_assoc (written performed)) in Hk, Hok.
        split_and!; [| |done].
        -- exists (S k). exact Hk.
        -- intros n Hn. destruct (Hok n Hn) as [Hw ->]. split; [exact Hw|].
           cbn [map concat snd]. rewrite length_app. lia.
      * cbn [fst snd]. rewrite written_open. split_and!.
        -- exists 0. by rewrite app_nil_r.
        -- done.
        -- intros e [= <-]. by eexists.
    + cbn [fst snd]. split_and!.
      * exists 0. by rewrite app_nil_r.
      * done.
      * intros e [= <-]. by eexists.
Qed.

(** The entries of a file list in which every file has components that
    are UTF-8 and an integer length. *)
Lemma decode_parts_text parts :
  Forall (λ part, utf8_valid part = true) parts →
  decode_parts (map BBytes parts) = Ok (map text parts).
Proof.
  induction 1 as [|part parts Hpart _ IH]; [done|].
  cbn [map decode_parts decode_utf8]. rewrite Hpart. cbn. by rewrite IH.
Qed.


Lemma sum_lengths_ints entries lens total :
  map file_length entries = map BInt lens →
  sum_lengths entries total = Ok (foldl Z.add total lens).
Proof.
  revert lens total. induction entries as [|e entries IH]; intros [|len lens] total;
    try done.
  intros [= Hlen Hlens]. cbn [sum_lengths]. rewrite Hlen. cbn. by apply IH.
Qed.

End FileManagerFacts.

Section FileWriter.
Import Py Bencode FileManager FileManagerFacts.





(** A system that does not open a directory for writing.  The entry
    [a/b] makes [a] a directory, so the file [a] of the first entry is
    refused and nothing is written. *)
Definition keeps_directories : OS := λ performed c,
  match c with
  | Open file_path => bool_decide (Mkdir file_path ∉ performed)
  | _ => true
  end.

Example write_pieces_refused :
  ∃ fm, new [(b "name", BBytes (b "root"));
             (b "files",
              BList [BDict [(b "length", BInt 1); (b "path", BList [BBytes (b "a")])];
                     BDict [(b "length", BInt 2);
                            (b "path", BList [BBytes (b "a"); BBytes (b "b")])]])]
            "downloads" = Ok fm
        ∧ write_pieces keeps_directories fm [(0%Z, b "abc")] []
          = (Raised (CallError (Open "downloads/root/a")),
             [Mkdir "downloads/root"; Mkdir "downloads/root"; Mkdir "downloads/root/a"]).
Proof. eexists. split; reflexivity. Qed.

End FileWriter.

(** ** Digest verification *)

Module PiecesFacts.
Import Py TrackerHTTP Downloader DictFacts SortedFacts.

Section Pieces.
Context (sha1 : bytes → bytes).

(** The digest expected of piece [i]. *)
Definition expected (pieces_hashes : bytes) (i : Z) : bytes :=
  zslice pieces_hashes (i * 20) ((i + 1) * 20).

(** Every piece in the buffer has the digest expected of its index. *)
Definition verified (pieces_hashes : bytes) (st : State) : Prop :=
  ∀ i data, dict_get (pieces_data st) i = Some data →
            sha1 data = expected pieces_hashes i.

Lemma verified_initial pieces_hashes : verified pieces_hashes initial.
Proof. intros i data. by simpl. Qed.

(** One pass over the peers: either nothing is committed and the state is
    the one before, or the bytes committed at [piece_idx] hash to
    [expected_hash]. *)
Lemma try_peers_commit attempts first3 peer expected_hash piece_idx st net :
  let r := try_peers sha1 attempts first3 peer expected_hash piece_idx st net in
  if r.1.2
  then ∃ data, sha1 data = expected_hash
               ∧ pieces_data r.1.1 = dict_set (pieces_data st) piece_idx data
  else r.1.1 = st.
Proof.
  revert net. induction attempts as [|attempt_peer rest IH]; intros net;
    cbn [try_peers]; [done|].
  destruct (bool_decide (attempt_peer = peer) || bool_decide (attempt_peer ∈ first3));
    [|exact (IH net)].
  destruct net as [|[[|c data]|] net]; cbn [head tail mjoin option_join];
    try exact (IH _).
  case_bool_decide as Hhash; [|exact (IH _)].
  by exists (c :: data).
Qed.

Lemma download_and_verify_piece_verified pieces_hashes peers_list peer piece_idx st net :
  verified pieces_hashes st →
  verified pieces_hashes
    (download_and_verify_piece sha1 pieces_hashes peers_list peer piece_idx st net).1.1.
Proof.
  intros Hst. unfold download_and_verify_piece.
  pose proof (try_peers_commit peers_list (zprefix peers_list 3) peer
                (zslice pieces_hashes (piece_idx * 20) ((piece_idx + 1) * 20))
                piece_idx st net) as Hstep.
  cbv zeta in Hstep.
  destruct (try_peers _ _ _ _ _ _ _ _) as [[st' ok] net']. simpl in *.
  destruct ok; [|by subst].
  destruct Hstep as (data & Hhash & Hdata). intros i data' Hget.
  rewrite Hdata in Hget. destruct (decide (piece_idx = i)) as [->|Hne].
  - rewrite dict_get_set_eq in Hget. by injection Hget as <-.
  - rewrite dict_get_set_ne in Hget by done. by apply Hst.
Qed.

Lemma download_pieces_verified pieces_hashes peers_list tasks st net :
  verified pieces_hashes st →
  verified pieces_hashes (download_pieces sha1 pieces_hashes peers_list tasks st net).
Proof.
  revert st net. induction tasks as [|[peer piece_idx] tasks IH]; intros st net Hst;
    simpl; [done|].
  pose proof (download_and_verify_piece_verified pieces_hashes peers_list peer
                piece_idx st net Hst) as Hstep.
  destruct (download_and_verify_piece _ _ _ _ _ _ _) as [[st' ok] net'].
  by apply IH.
Qed.

(** [save_file] writes stored pieces only. *)
Lemma save_file_chunks (st : State) :
  ∃ chunks, save_file st = concat (chunks.*2)
            ∧ Forall (λ c, dict_get (pieces_data st) c.1 = Some c.2) chunks.
Proof.
  unfold save_file.
  exists (map (λ i, (i, default [] (dict_get (pieces_data st) i)))
              (sorted Z.ltb id (map fst (pieces_data st)))).
  split.
  - by rewrite <-list_fmap_compose.
  - apply Forall_fmap, Forall_forall. intros i Hi. simpl.
    apply elem_of_sorted, dict_get_is_Some in Hi as [data ->]. done.
Qed.
End Pieces.
End PiecesFacts.

Section DigestVerification.
Import Py TrackerHTTP Downloader PiecesFacts.

(** C2.  Whatever the hash function, the expected digests, the peers, the
    order of the workers' calls and the bytes the peers send: after the
    run every piece in the pieces buffer has the digest expected of its
    index, and the output file is the concatenation of pieces of the
    buffer, each with the expected digest. *)
Theorem digest_verification (sha1 : bytes → bytes) (pieces_hashes : bytes)
    (peers_list : list Peer) (tasks : list (Peer * Z)) (net : list (option bytes)) :
  let st := download_pieces sha1 pieces_hashes peers_list tasks initial net in
  (∀ i data, dict_get (pieces_data st) i = Some data →
             sha1 data = zslice pieces_hashes (i * 20) ((i + 1) * 20))
  ∧ ∃ chunks : list (Z * bytes),
      save_file st = concat (chunks.*2)
      ∧ Forall (λ c, dict_get (pieces_data st) c.1 = Some c.2
                     ∧ sha1 c.2 = zslice pieces_hashes (c.1 * 20) ((c.1 + 1) * 20))
               chunks.
Proof.
  intros st.
  assert (Hst : verified sha1 pieces_hashes st).
  { apply download_pieces_verified, verified_initial. }
  split; [exact Hst|].
  destruct (save_file_chunks st) as (chunks & Hfile & Hchunks).
  exists chunks. split; [done|].
  eapply Forall_impl; [exact Hchunks|]. intros [i data] Hget. split; [done|].
  by apply Hst.
Qed.

(** A run with two peers: the bytes of the first do not hash to the
    expected digest and are dropped, those of the second are stored and
    written. *)
Example digest_verification_run :
  let sha1 := λ data : bytes, take 2 data in
  let p := {| peer_ip := "10.0.0.1"; peer_port := 6881 |} in
  let q := {| peer_ip := "10.0.0.2"; peer_port := 6881 |} in
  let st := download_pieces sha1 (b "ab") [p; q] [(p, 0%Z)] initial
              [Some (b "xyz"); Some (b "abc")] in
  pieces_data st = [(0%Z, b "abc")] ∧ save_file st = b "abc".
Proof. split; reflexivity. Qed.

End DigestVerification.

(** ** Collecting peers *)

Module TrackerFacts.
Import Py TrackerHTTP Downloader DictFacts.

Definition key_of (p : Peer) : string :=
  PeerManager.peer_key (peer_ip p) (peer_port p).

(** The peers of all the replies, in the order of the URLs. *)
Definition gathered (request_peers : string → reply) (trackers : list string)
  : list Peer :=
  concat (map (λ url, new_peers_of (request_peers url)) trackers).

Lemma contact_all_spec request_peers trackers :
  contact_all request_peers trackers = (trackers, gathered request_peers trackers).
Proof.
  induction trackers as [|url rest IH]; simpl; [done|]. by rewrite IH.
Qed.

Lemma add_peer_get m peer_ip peer_port now :
  is_Some (PeerManager.get_peer (PeerManager.add_peer m peer_ip peer_port now).1
             peer_ip peer_port).
Proof.
  unfold PeerManager.add_peer, PeerManager.get_peer.
  destruct (dict_get (PeerManager.peers m) _) eqn:Hget; simpl.
  - by rewrite Hget.
  - by rewrite dict_get_set_eq.
Qed.

Lemma add_peer_keeps m peer_ip peer_port now k :
  is_Some (dict_get (PeerManager.peers m) k) →
  is_Some (dict_get (PeerManager.peers (PeerManager.add_peer m peer_ip peer_port now).1) k).
Proof.
  unfold PeerManager.add_peer.
  destruct (dict_get (PeerManager.peers m) (PeerManager.peer_key _ _)) eqn:Hget;
    simpl; [done|].
  intros Hk. destruct (decide (PeerManager.peer_key peer_ip peer_port = k)) as [<-|Hne].
  - by rewrite dict_get_set_eq.
  - by rewrite dict_get_set_ne.
Qed.

(** The admitted peers: a sublist of the gathered ones, without a key
    twice and without a key that was seen, holding every other key, and
    all of them registered. *)
Lemma remove_duplicates_spec peers (seen : gset string) manager clock :
  let r := remove_duplicates peers seen manager clock in
  r.1 `sublist_of` peers
  ∧ NoDup (map key_of r.1)
  ∧ (∀ p, p ∈ r.1 → key_of p ∉ seen)
  ∧ (∀ p, p ∈ peers → key_of p ∈ seen ∨ key_of p ∈ map key_of r.1)
  ∧ (∀ k, is_Some (dict_get (PeerManager.peers manager) k) →
          is_Some (dict_get (PeerManager.peers r.2) k))
  ∧ (∀ p, p ∈ r.1 →
          is_Some (PeerManager.get_peer r.2 (peer_ip p) (peer_port p))).
Proof.
  revert seen manager clock.
  induction peers as [|peer rest IH]; intros seen manager clock.
  - simpl. split_and!; try done.
    + constructor.
    + intros p Hp. by apply elem_of_nil in Hp.
    + intros p Hp. by apply elem_of_nil in Hp.
    + intros p Hp. by apply elem_of_nil in Hp.
  - cbn [remove_duplicates]. fold (key_of peer). case_bool_decide as Hseen.
    + destruct (IH seen manager clock) as (Hsub & Hnd & Hfresh & Hcover & Hkeep & Hreg).
      split_and!; try done.
      * by apply sublist_cons.
      * intros p [->|Hp]%elem_of_cons; [by left | by apply Hcover].
    + destruct (IH ({[key_of peer]} ∪ seen)
                  (PeerManager.add_peer manager (peer_ip peer) (peer_port peer)
                     (clock 0)).1 (clock ∘ S))
        as (Hsub & Hnd & Hfresh & Hcover & Hkeep & Hreg).
      destruct (remove_duplicates rest _ _ (clock ∘ S)) as [unique_peers manager''] eqn:Hadmit.
      simpl in *. split_and!.
      * by apply sublist_skip.
      * apply NoDup_cons. split; [|done].
        intros (p & Hkey & Hp)%list_elem_of_fmap. apply (Hfresh p Hp).
        rewrite <-Hkey. by apply elem_of_union_l, elem_of_singleton.
      * intros p [->|Hp]%elem_of_cons; [done|].
        intros Hin. apply (Hfresh p Hp). by apply elem_of_union_r.
      * intros p [->|Hp]%elem_of_cons; [right; left|].
        destruct (Hcover p Hp) as [Hin|Hin]; [|by right; right].
        apply elem_of_union in Hin as [->%elem_of_singleton|Hin]; [right; left | by left].
      * intros k Hk. by apply Hkeep, add_peer_keeps.
      * intros p [->|Hp]%elem_of_cons; [|by apply Hreg].
        apply Hkeep, add_peer_get.
Qed.

End TrackerFacts.

Section TrackerWalk.
Import Py TrackerHTTP Downloader TrackerFacts.

(** C8, as the code has it.  The URLs are those of the announce list,
    tiers in order and URLs in order within a tier, or the single
    announce URL when there is no list.  Every one of them is contacted,
    in that order, whether or not an earlier URL gave peers.  The
    admitted list is taken from the peers of all the replies, in order;
    no [(ip, port)] key is in it twice, every key gathered is in it, and
    every admitted peer is in the registry. *)
Theorem tracker_walk (meta : Meta) (trackers : list string)
    (request_peers : string → reply) (manager : PeerManager.PeerManager) (clock : nat → Q) :
  trackers_of meta = Some trackers →
  (∀ tiers, announce_list meta = Some tiers → trackers = concat tiers)
  ∧ ∃ w, get_peers_from_tracker meta request_peers manager clock = Some w
       ∧ contacted w = trackers
       ∧ peers_list w `sublist_of` gathered request_peers trackers
       ∧ NoDup (map key_of (peers_list w))
       ∧ (∀ p, p ∈ gathered request_peers trackers →
               key_of p ∈ map key_of (peers_list w))
       ∧ (∀ p, p ∈ peers_list w →
               is_Some (PeerManager.get_peer (peer_manager w) (peer_ip p) (peer_port p))).
Proof.
  intros Htrackers. split.
  { intros tiers Htiers. unfold trackers_of in Htrackers. rewrite Htiers in Htrackers.
    by injection Htrackers as <-. }
  unfold get_peers_from_tracker. rewrite Htrackers. simpl.
  rewrite contact_all_spec.
  pose proof (remove_duplicates_spec (gathered request_peers trackers) ∅ manager clock)
    as (Hsub & Hnd & _ & Hcover & _ & Hreg).
  destruct (remove_duplicates _ _ _ _) as [unique_peers manager']. simpl in *.
  eexists. split; [done|]. simpl. split_and!; try done.
  intros p Hp. destruct (Hcover p Hp) as [Hin|Hin]; [|done].
  by apply not_elem_of_empty in Hin.
Qed.

Definition one_peer : bytes :=
  [ascii_of_nat 127; zero; zero; ascii_of_nat 1; ascii_of_nat 26; ascii_of_nat 225].

(** A clock that ticks once a call. *)
Definition ticking (n : nat) : Q := inject_Z (Z.of_nat n).

Definition two_tiers : Meta :=
  {| announce := Some "http://t0/announce";
     announce_list := Some [["http://t1/announce"; "http://t2/announce"];
                            ["http://t3/announce"]] |}.

Lemma tracker_walk_witness :
  ∃ w, get_peers_from_tracker two_tiers (λ _, Reply (Some one_peer))
         (PeerManager.init 4 0) ticking = Some w
       ∧ contacted w
         = ["http://t1/announce"; "http://t2/announce"; "http://t3/announce"].
Proof.
  destruct (tracker_walk two_tiers
              ["http://t1/announce"; "http://t2/announce"; "http://t3/announce"]
              (λ _, Reply (Some one_peer)) (PeerManager.init 4 0) ticking eq_refl)
    as (_ & w & Hw & Hcontacted & _).
  exists w. split; [exact Hw | exact Hcontacted].
Defined.

(** C8 as stated fails: the first URL answers with a peer, and the two
    URLs after it are contacted all the same. *)
Lemma tracker_walk_goes_on_after_success :
  new_peers_of (Reply (Some one_peer))
  = [{| peer_ip := "127.0.0.1"; peer_port := 6881 |}]
  ∧ ∃ w, get_peers_from_tracker two_tiers (λ _, Reply (Some one_peer))
           (PeerManager.init 4 0) ticking = Some w
         ∧ contacted w
           = ["http://t1/announce"; "http://t2/announce"; "http://t3/announce"]
         ∧ peers_list w = [{| peer_ip := "127.0.0.1"; peer_port := 6881 |}].
Proof.
  split; [reflexivity|]. eexists. split; [reflexivity|]. split; reflexivity.
Qed.

End TrackerWalk.

(** ** Message framing *)

Module FramingFacts.
Import Py PeerProtocol.

Lemma slice_0 {A} (x : list A) (n : nat) : slice x 0 n = take n x.
Proof. unfold slice. by rewrite drop_0, Nat.sub_0_r. Qed.

Lemma ord_byte_of (z : Z) : (0 ≤ z < 256)%Z → Z.of_N (ord (byte_of z)) = z.
Proof.
  intros Hz. unfold ord, byte_of. rewrite N_ascii_embedding; lia.
Qed.

Lemma unpack_pack (n : Z) (p : bytes) : pack_be32 n = Some p → unpack_be p = n.
Proof.
  unfold pack_be32. destruct ((0 <=? n) && (n <? 2 ^ 32))%Z eqn:Hrange; [|done].
  apply andb_true_iff in Hrange as [H0%Z.leb_le Hn%Z.ltb_lt].
  intros [= <-]. unfold unpack_be. cbn [foldl].
  rewrite !ord_byte_of; try (apply Z.mod_pos_bound; lia).
  - pose proof (Z.div_mod n (2 ^ 8) ltac:(lia)).
    pose proof (Z.div_mod (n / 2 ^ 8) (2 ^ 8) ltac:(lia)).
    pose proof (Z.div_mod (n / 2 ^ 8 / 2 ^ 8) (2 ^ 8) ltac:(lia)).
    rewrite !Z.div_div in * by lia.
    change (2 ^ 8 * 2 ^ 8)%Z with (2 ^ 16)%Z in *.
    change (2 ^ 16 * 2 ^ 8)%Z with (2 ^ 24)%Z in *.
    change (2 ^ 8)%Z with 256%Z in *. lia.
  - split; [apply Z.div_pos; lia|]. apply Z.div_lt_upper_bound; lia.
Qed.

Lemma pack_length (n : Z) (p : bytes) : pack_be32 n = Some p → length p = 4.
Proof. unfold pack_be32. case_match; [|done]. by intros [= <-]. Qed.

Lemma unpack_zero : unpack_be (replicate 4 zero) = 0%Z.
Proof. reflexivity. Qed.

(** The bytes of a frame on the wire. *)
Lemma wire_message id payload :
  valid_frame (Message id payload) →
  ∃ p, pack_be32 (1 + Z.of_nat (length payload)) = Some p
       ∧ wire (Message id payload) = p ++ id :: payload.
Proof.
  simpl. intros Hlen. unfold create_message, pack_be32, bytes_of_int.
  rewrite (proj2 (andb_true_iff _ _)) by (split; [apply Z.leb_le | apply Z.ltb_lt]; lia).
  pose proof (N_ascii_bounded id) as Hid.
  rewrite (proj2 (andb_true_iff _ _))
    by (unfold ord; split; [apply Z.leb_le | apply Z.ltb_lt]; lia).
  simpl. eexists. split; [done|].
  unfold byte_of, ord. by rewrite N2Z.id, ascii_N_embedding.
Qed.

Lemma wire_length f : valid_frame f → 4 ≤ length (wire f).
Proof.
  destruct f as [|id payload]; [simpl; lia|]. intros Hf.
  destruct (wire_message id payload Hf) as (p & Hp%pack_length & ->).
  rewrite length_app. lia.
Qed.

(** The three outcomes of [parse_message]. *)
Lemma parse_message_short data : length data < 4 → parse_message data = (None, None, 0).
Proof. intros Hlen. unfold parse_message. by rewrite (proj2 (Nat.ltb_lt _ _)). Qed.

Lemma parse_message_cases data :
  4 ≤ length data →
  let len := Z.to_nat (unpack_be (take 4 data)) in
  (len = 0 → parse_message data = (None, Some [], 4))
  ∧ (0 < len → length data < 4 + len → parse_message data = (None, None, 0))
  ∧ (0 < len → 4 + len ≤ length data →
     parse_message data
     = (Z.of_N ∘ ord <$> data !! 4, Some (take (len - 1) (drop 5 data)), 4 + len)).
Proof.
  intros Hlen len. unfold parse_message.
  rewrite (proj2 (Nat.ltb_ge _ _)) by done.
  rewrite !slice_0.
  change (Z.to_nat (unpack_be (take 4 data))) with len. clearbody len.
  split_and!.
  - by intros ->.
  - intros Hpos Hshort. rewrite (proj2 (Nat.eqb_neq _ _)) by lia.
    by rewrite (proj2 (Nat.ltb_lt _ _)).
  - intros Hpos Hwhole. rewrite (proj2 (Nat.eqb_neq _ _)) by lia.
    rewrite (proj2 (Nat.ltb_ge _ _)) by done.
    unfold slice. do 3 f_equal.
Qed.

(** A frame at the head of the buffer is parsed, whatever follows it. *)
Lemma parse_message_wire f rest :
  valid_frame f →
  parse_message (wire f ++ rest) = ((parsed f).1, (parsed f).2, length (wire f)).
Proof.
  destruct f as [|id payload]; [done|]. intros Hf.
  destruct (wire_message id payload Hf) as (p & Hp & ->).
  pose proof (pack_length _ _ Hp) as Hlen4. simpl in Hf.
  rewrite <-app_assoc, length_app, Hlen4. cbn [app length].
  set (data := p ++ id :: payload ++ rest).
  assert (Hlen : length data = 4 + S (length payload) + length rest).
  { unfold data. rewrite length_app, Hlen4. simpl. rewrite length_app. lia. }
  assert (Htake : take 4 data = p) by (by apply take_app_length').
  assert (Hid : data !! 4 = Some id).
  { unfold data. rewrite lookup_app_r by lia. by rewrite Hlen4. }
  assert (Hdrop : drop 5 data = payload ++ rest).
  { unfold data. replace 5 with (length p + 1) by lia.
    by rewrite <-drop_drop, drop_app_length. }
  pose proof (parse_message_cases data ltac:(lia)) as (_ & _ & Hwhole).
  cbv zeta in Hwhole. rewrite Htake, (unpack_pack _ _ Hp), Hid, Hdrop in Hwhole.
  replace (Z.to_nat (1 + Z.of_nat (length payload))) with (S (length payload))
    in Hwhole by lia.
  rewrite Hwhole by lia. cbn [Nat.sub]. by rewrite Nat.sub_0_r, take_app_length.
Qed.

Lemma parse_message_consumed data id payload n :
  parse_message data = (id, payload, n) → n ≠ 0 → 4 ≤ n ≤ length data.
Proof.
  destruct (Nat.lt_ge_cases (length data) 4) as [Hshort|Hlen].
  { rewrite parse_message_short by done. by intros [= <- <- <-]. }
  destruct (parse_message_cases data Hlen) as (Hka & Hmore & Hwhole).
  destruct (Z.to_nat (unpack_be (take 4 data))) as [|len'] eqn:Hlen'.
  - rewrite Hka by done. intros [= <- <- <-]. lia.
  - destruct (Nat.lt_ge_cases (length data) (4 + S len')) as [Hlt|Hge].
    + rewrite Hmore by lia. by intros [= <- <- <-].
    + rewrite Hwhole by lia. intros [= <- <- <-]. lia.
Qed.

(** A result that consumes bytes stands when bytes are appended. *)
Lemma parse_message_app data more id payload n :
  parse_message data = (id, payload, n) → n ≠ 0 →
  parse_message (data ++ more) = (id, payload, n).
Proof.
  intros Hparse Hn. pose proof (parse_message_consumed _ _ _ _ Hparse Hn) as Hcons.
  assert (Hlen : 4 ≤ length data) by lia.
  assert (Hlen' : 4 ≤ length (data ++ more)) by (rewrite length_app; lia).
  destruct (parse_message_cases data Hlen) as (Hka & Hmore & Hwhole).
  destruct (parse_message_cases (data ++ more) Hlen') as (Hka' & _ & Hwhole').
  rewrite take_app_le in Hka', Hwhole' by lia.
  destruct (Z.to_nat (unpack_be (take 4 data))) as [|len'] eqn:Hlen4.
  - rewrite Hka' by done. rewrite Hka in Hparse by done. done.
  - destruct (Nat.lt_ge_cases (length data) (4 + S len')) as [Hlt|Hge].
    + rewrite Hmore in Hparse by lia. injection Hparse as <- <- <-. done.
    + rewrite Hwhole in Hparse by lia. rewrite Hwhole' by (try rewrite length_app; lia).
      rewrite <-Hparse. rewrite lookup_app_l by lia. do 2 f_equal.
      rewrite drop_app_le by lia. rewrite take_app_le; [done|].
      rewrite length_drop. lia.
Qed.

(** One round of the loop, for any budget that covers the buffer. *)
Lemma drain_aux_fuel f1 f2 buffer :
  length buffer ≤ f1 → length buffer ≤ f2 → drain_aux f1 buffer = drain_aux f2 buffer.
Proof.
  revert f2 buffer. induction f1 as [|f1 IH]; intros f2 buffer H1 H2.
  - destruct buffer; [|simpl in H1; lia]. by destruct f2.
  - destruct f2 as [|f2].
    { destruct buffer; [done | simpl in H2; lia]. }
    cbn [drain_aux]. destruct (parse_message buffer) as [[id payload] n] eqn:Hparse.
    destruct (n =? 0) eqn:Hn; [done|]. apply Nat.eqb_neq in Hn.
    pose proof (parse_message_consumed _ _ _ _ Hparse Hn).
    rewrite (IH f2); [done | rewrite length_drop; lia..].
Qed.

Lemma drain_unfold buffer :
  drain buffer
  = let '(msg_id, payload, consumed) := parse_message buffer in
    if consumed =? 0 then ([], buffer)
    else let '(msgs, rest) := drain (drop consumed buffer) in
         ((msg_id, payload) :: msgs, rest).
Proof.
  unfold drain. destruct buffer as [|c buffer]; [done|].
  cbn [length drain_aux].
  destruct (parse_message (c :: buffer)) as [[id payload] n] eqn:Hparse.
  destruct (n =? 0) eqn:Hn; [done|]. apply Nat.eqb_neq in Hn.
  pose proof (parse_message_consumed _ _ _ _ Hparse Hn) as Hcons. simpl in Hcons.
  rewrite (drain_aux_fuel (length buffer) (length (drop n (c :: buffer))));
    [done | rewrite length_drop; simpl; lia | done].
Qed.

(** What is left in the buffer holds no whole message. *)
Lemma drain_rest_stuck fuel buffer :
  length buffer ≤ fuel → drain (drain buffer).2 = ([], (drain buffer).2).
Proof.
  revert buffer. induction fuel as [|fuel IH]; intros buffer Hlen.
  - destruct buffer; [done | simpl in Hlen; lia].
  - rewrite (drain_unfold buffer).
    destruct (parse_message buffer) as [[id payload] n] eqn:Hparse.
    destruct (n =? 0) eqn:Hn.
    + simpl. rewrite drain_unfold, Hparse, Hn. done.
    + apply Nat.eqb_neq in Hn.
      pose proof (parse_message_consumed _ _ _ _ Hparse Hn).
      specialize (IH (drop n buffer)). rewrite length_drop in IH.
      destruct (drain (drop n buffer)) as [msgs rest]. simpl in *. apply IH. lia.
Qed.

(** Draining a buffer that grew is draining it, then draining what was
    left together with the new bytes. *)
Lemma drain_app fuel buffer more :
  length buffer ≤ fuel →
  drain (buffer ++ more)
  = ((drain buffer).1 ++ (drain ((drain buffer).2 ++ more)).1,
     (drain ((drain buffer).2 ++ more)).2).
Proof.
  revert buffer. induction fuel as [|fuel IH]; intros buffer Hlen.
  - destruct buffer; [|simpl in Hlen; lia]. simpl. by destruct (drain more).
  - rewrite (drain_unfold buffer).
    destruct (parse_message buffer) as [[id payload] n] eqn:Hparse.
    destruct (n =? 0) eqn:Hn.
    + simpl. by destruct (drain (buffer ++ more)).
    + apply Nat.eqb_neq in Hn.
      pose proof (parse_message_consumed _ _ _ _ Hparse Hn).
      rewrite (drain_unfold (buffer ++ more)).
      rewrite (parse_message_app _ more _ _ _ Hparse Hn).
      rewrite (proj2 (Nat.eqb_neq _ _) Hn).
      rewrite drop_app_le by lia.
      rewrite (IH (drop n buffer)) by (rewrite length_drop; lia).
      by destruct (drain (drop n buffer)) as [msgs rest].
Qed.

Lemma receive_from st chunks :
  drain st.2 = ([], st.2) →
  foldl feed st chunks
  = (st.1 ++ (drain (st.2 ++ concat chunks)).1, (drain (st.2 ++ concat chunks)).2).
Proof.
  revert st. induction chunks as [|chunk chunks IH]; intros [msgs rest] Hstuck.
  - simpl in *. by rewrite app_nil_r, Hstuck, app_nil_r.
  - cbn [foldl concat]. unfold feed at 2. cbn [fst snd].
    pose proof (drain_rest_stuck _ (rest ++ chunk) (Nat.le_refl _)) as Hstuck'.
    pose proof (drain_app _ (rest ++ chunk) (concat chunks) (Nat.le_refl _)) as Happ.
    rewrite <-app_assoc in Happ. rewrite Happ.
    destruct (drain (rest ++ chunk)) as [msgs1 rest1]. cbn [fst snd] in *.
    rewrite (IH (msgs ++ msgs1, rest1) Hstuck'). cbn [fst snd]. by rewrite app_assoc.
Qed.

Lemma drain_wire frames :
  Forall valid_frame frames →
  drain (concat (map wire frames)) = (map parsed frames, []).
Proof.
  induction 1 as [|f frames Hf _ IH]; [done|].
  cbn [map concat]. rewrite drain_unfold, parse_message_wire by done.
  pose proof (wire_length f Hf). destruct (length (wire f) =? 0) eqn:Hn.
  { apply Nat.eqb_eq in Hn. lia. }
  rewrite drop_app_length, IH. by destruct (parsed f).
Qed.

End FramingFacts.

Section Framing.
Import Py PeerProtocol FramingFacts.

(** C5.  [parse_message] asks for more data, consuming nothing, when the
    buffer has fewer than 4 bytes or fewer than [4 + length] bytes; a
    length prefix of zero is a keep-alive that consumes 4 bytes; else the
    message id is the fifth byte, the payload the [length - 1] bytes after
    it, and [4 + length] bytes are consumed.  Hence, for frames that
    [create_message] can build and keep-alives, cut into chunks at any
    byte boundaries, [receive], which appends each chunk to the buffer
    and parses until nothing is consumed, hands over the frames sent,
    each once and in order, and leaves the buffer empty. *)
Theorem message_framing (data : bytes) (frames : list frame) (chunks : list bytes) :
  (length data < 4 → parse_message data = (None, None, 0))
  ∧ (4 ≤ length data →
     let len := Z.to_nat (unpack_be (take 4 data)) in
     (len = 0 → parse_message data = (None, Some [], 4))
     ∧ (0 < len → length data < 4 + len → parse_message data = (None, None, 0))
     ∧ (0 < len → 4 + len ≤ length data →
        ∃ id, data !! 4 = Some id
              ∧ parse_message data
                = (Some (Z.of_N (ord id)), Some (take (len - 1) (drop 5 data)), 4 + len)
              ∧ length (take (len - 1) (drop 5 data)) = len - 1))
  ∧ (Forall valid_frame frames →
     concat chunks = concat (map wire frames) →
     receive chunks = (map parsed frames, [])).
Proof.
  split_and!.
  - apply parse_message_short.
  - intros Hlen len. destruct (parse_message_cases data Hlen) as (Hka & Hshort & Hwhole).
    split_and!; [done | done |].
    intros Hpos Hall. destruct (lookup_lt_is_Some_2 data 4 ltac:(lia)) as [id Hid].
    exists id. split_and!; [done | |].
    + rewrite (Hwhole Hpos Hall), Hid. done.
    + rewrite length_take, length_drop. fold len. lia.
  - intros Hvalid Hstream. unfold receive.
    rewrite receive_from by done. simpl. rewrite Hstream.
    by rewrite drain_wire.
Qed.

Definition sample_frames : list frame :=
  [KeepAlive; Message "001" []; Message "007" (b "block")].

Lemma message_framing_witness :
  receive [replicate 3 zero; replicate 4 zero; ["001"%char; "001"%char; zero];
           [zero; zero; "006"%char; "007"%char] ++ b "blo"; []; b "ck"]
  = (map parsed sample_frames, []).
Proof.
  apply (proj2 (proj2 (message_framing [] sample_frames _))).
  - repeat constructor; simpl; lia.
  - reflexivity.
Defined.

End Framing.

(** ** The choking policy *)

Module ChokingFacts.
Import Py PeerManager DictFacts SortedFacts.

Lemma Qltb_lt (x y : Q) : Qltb x y = true ↔ (x < y)%Q.
Proof.
  unfold Qltb. rewrite negb_true_iff, <-not_true_iff_false, Qle_bool_iff.
  split; [apply Qnot_le_lt | apply Qlt_not_le].
Qed.

Lemma Qltb_ge (x y : Q) : Qltb x y = false ↔ (y <= x)%Q.
Proof. unfold Qltb. by rewrite negb_false_iff, Qle_bool_iff. Qed.

(** Slices and indices with a bound that is not negative. *)
Lemma zprefix_take {A} (l : list A) (k : Z) :
  (0 ≤ k)%Z → zprefix l k = take (Z.to_nat k) l.
Proof.
  intros Hk. unfold zprefix, zslice, slice, clamp.
  rewrite (proj2 (Z.ltb_ge k 0)) by done. rewrite Z.ltb_irrefl.
  rewrite (Z.min_l 0) by lia. rewrite drop_0, Nat.sub_0_r.
  destruct (Z.le_ge_cases k (Z.of_nat (length l))).
  - by rewrite Z.min_l.
  - rewrite Z.min_r, Nat2Z.id by done. rewrite !take_ge; [done | lia | done].
Qed.

Lemma zindex_lookup {A} (l : list A) (k : Z) :
  (0 ≤ k)%Z → zindex l k = l !! Z.to_nat k.
Proof. intros Hk. unfold zindex. by rewrite (proj2 (Z.ltb_ge _ _)). Qed.

(** The registries that [add_peer] builds: a key once, and every peer
    under the key made of its own address. *)
Definition registry_ok (m : PeerManager) : Prop :=
  NoDup (map fst (peers m)) ∧ Forall (λ e, e.1 = get_peer_id e.2) (peers m).

Lemma init_ok max_unchoked now : registry_ok (init max_unchoked now).
Proof. split; constructor. Qed.

Lemma add_peer_ok m peer_ip peer_port now :
  registry_ok m → registry_ok (add_peer m peer_ip peer_port now).1.
Proof.
  intros [Hnd Hkeys]. unfold add_peer.
  destruct (dict_get (peers m) _); simpl; [done|]. split; simpl.
  - by apply dict_set_NoDup.
  - by apply dict_set_Forall.
Qed.

(** The order of the ranking: the rate does not grow along the list. *)
Definition rate_ge (x y : string * PeerStats) : Prop :=
  (download_rate y.2 <= download_rate x.2)%Q.

(** The peers whose rate is [r]. *)
Definition same_rate (r : Q) (e : string * PeerStats) : Prop :=
  Qeq_bool (download_rate e.2) r = true.

#[global] Instance same_rate_dec r e : Decision (same_rate r e).
Proof. unfold same_rate. apply _. Defined.

Lemma by_rate_Permutation l : by_rate l ≡ₚ l.
Proof. apply sorted_Permutation. Qed.

Lemma by_rate_sorted l : StronglySorted rate_ge (by_rate l).
Proof.
  unfold by_rate.
  eapply StronglySorted_impl; [|apply sorted_StronglySorted].
  - intros x y. unfold may_precede. by rewrite Qltb_ge.
  - intros a c. rewrite Qltb_lt, Qltb_ge. apply Qlt_le_weak.
  - intros a c d. rewrite !Qltb_ge. intros Hac Hcd. by eapply Qle_trans.
Qed.

Lemma by_rate_stable r l : filter (same_rate r) (by_rate l) = filter (same_rate r) l.
Proof.
  apply sorted_stable. intros x y Hx%Qeq_bool_iff Hy%Qeq_bool_iff.
  rewrite Qltb_ge, Hx, Hy. apply Qle_refl.
Qed.

Lemma elem_of_interested m e :
  e ∈ interested m
  ↔ e ∈ peers m ∧ is_interested_in_us e.2 = true ∧ is_choking_us e.2 = false.
Proof.
  unfold interested. rewrite list_elem_of_filter. unfold is_candidate.
  rewrite andb_true_iff, negb_true_iff. tauto.
Qed.

(** The last loop: the keys stay, only the choke flag is written, and it
    is cleared for the peers whose key is among the unchoked. *)
Lemma choke_all_but_flag m unchoked e :
  registry_ok m → unchoked ⊆ peers m → e ∈ peers m →
  is_choked_by_us (choke_all_but unchoked e).2 = false ↔ e.1 ∈ map fst unchoked.
Proof.
  intros [_ Hkeys] Hsub He. unfold choke_all_but. simpl.
  rewrite negb_false_iff, bool_decide_eq_true.
  rewrite Forall_forall in Hkeys. rewrite <-(Hkeys e He).
  assert (Hids : map (λ u, get_peer_id u.2) unchoked = map fst unchoked).
  { apply list_fmap_ext. intros i u Hu. symmetry. apply Hkeys, Hsub.
    by eapply list_elem_of_lookup_2. }
  by rewrite Hids.
Qed.

Lemma finish_spec m0 m unchoked :
  registry_ok m → peers m0 = peers m → unchoked ⊆ peers m →
  let r := finish m0 unchoked in
  map fst r.2 = map fst unchoked
  ∧ map fst (peers r.1) = map fst (peers m)
  ∧ (∀ e', e' ∈ peers r.1 →
           (is_choked_by_us e'.2 = false ↔ e'.1 ∈ map fst r.2))
  ∧ r.2 ⊆ peers r.1
  ∧ Forall2 (λ e e', e' = (e.1, set_choked e.2 (is_choked_by_us e'.2)))
            (peers m) (peers r.1).
Proof.
  intros Hok Hpeers Hsub. unfold finish. cbn [fst snd peers with_peers].
  rewrite Hpeers.
  assert (Hkeys : ∀ l, map fst (map (choke_all_but unchoked) l) = map fst l).
  { intros l. rewrite <-list_fmap_compose. by apply list_fmap_ext. }
  rewrite !Hkeys. split_and!; [done | done | | |].
  - intros e' (e & -> & He)%list_elem_of_fmap.
    change ((choke_all_but unchoked e).1) with e.1.
    by apply choke_all_but_flag with m.
  - intros e' (e & -> & He)%list_elem_of_fmap. apply list_elem_of_fmap.
    exists e. split; [done | by apply Hsub].
  - apply Forall2_fmap_r, Forall_Forall2_diag, Forall_forall. by intros e _.
Qed.

(** The order of admission when the clock does not run backwards, and
    the ranking it gives: by rate, the older peer first at equal rate. *)
Definition older_first (x y : string * PeerStats) : Prop :=
  (connection_time x.2 <= connection_time y.2)%Q.

Definition rate_then_age (x y : string * PeerStats) : Prop :=
  rate_ge x y ∧ ((download_rate x.2 == download_rate y.2)%Q → older_first x y).

Lemma insert_rate_then_age x l :
  Forall (older_first x) l → StronglySorted rate_then_age l →
  StronglySorted rate_then_age
    (insert_sorted (λ r1 r2, Qltb r2 r1) (λ e, download_rate e.2) x l).
Proof.
  intros Hage Hl. induction Hl as [|y l Hl IH Hy]; simpl.
  - repeat constructor.
  - apply Forall_cons in Hage as [Hxy Hage].
    destruct (Qltb (download_rate x.2) (download_rate y.2)) eqn:Hrate.
    + apply Qltb_lt in Hrate. constructor; [by apply IH|].
      rewrite insert_sorted_Permutation. constructor; [|done]. split.
      * by apply Qlt_le_weak.
      * intros Heq. rewrite Heq in Hrate. by apply Qlt_irrefl in Hrate.
    + apply Qltb_ge in Hrate. constructor; [by constructor|].
      constructor; [by split|].
      rewrite Forall_forall in Hy, Hage |- *. intros z Hz. split.
      * unfold rate_ge. eapply Qle_trans; [apply (Hy z Hz) | done].
      * intros _. by apply Hage.
Qed.

Lemma by_rate_then_age l :
  StronglySorted older_first l → StronglySorted rate_then_age (by_rate l).
Proof.
  induction 1 as [|x l _ IH Hx]; simpl; [constructor|].
  apply insert_rate_then_age; [|done]. by rewrite by_rate_Permutation.
Qed.

Lemma StronglySorted_filter {A} (R : A → A → Prop) (P : A → Prop)
    `{∀ x, Decision (P x)} (l : list A) :
  StronglySorted R l → StronglySorted R (filter P l).
Proof.
  induction 1 as [|x l _ IH Hx]; [constructor|].
  rewrite filter_cons. case_decide; [|done]. constructor; [done|].
  rewrite Forall_forall in Hx |- *. intros y [_ Hy]%list_elem_of_filter. by apply Hx.
Qed.

(** The keys of the candidates, of the ranking and of its prefixes are
    distinct. *)
Lemma interested_keys_NoDup m : registry_ok m → NoDup (map fst (interested m)).
Proof.
  intros [Hnd _]. eapply sublist_NoDup; [exact Hnd|].
  apply fmap_sublist. unfold interested. apply sublist_filter.
Qed.

Lemma ranked_prefix_NoDup m n :
  registry_ok m → NoDup (map fst (take n (by_rate (interested m)))).
Proof.
  intros Hok. eapply sublist_NoDup; [|apply fmap_sublist, sublist_take].
  rewrite by_rate_Permutation. by apply interested_keys_NoDup.
Qed.

(** The optimistic timer has run out. *)
Definition elapsed (m : PeerManager) (now : Q) : Prop :=
  (optimistic_unchoke_interval m < now - last_optimistic_unchoke m)%Q.

Lemma interested_subseteq m : interested m ⊆ peers m.
Proof. intros e He. by apply elem_of_interested in He as [? _]. Qed.

Lemma top_subseteq m n : take n (by_rate (interested m)) ⊆ peers m.
Proof.
  intros e (i & He%list_elem_of_lookup_2 & _)%elem_of_take. apply interested_subseteq.
  by rewrite <-(by_rate_Permutation (interested m)).
Qed.

Lemma with_fill_subseteq m n e :
  e ∈ interested m → take n (by_rate (interested m)) ++ [e] ⊆ peers m.
Proof.
  intros He e' [Hin|Hin%list_elem_of_singleton]%elem_of_app.
  - by apply (top_subseteq m n).
  - subst. by apply interested_subseteq.
Qed.

End ChokingFacts.

Section Choking.
Import Py PeerManager ChokingFacts.

(** C1, as the code has it.  With a candidate at least and [K] at least
    1: the candidates are the peers that are interested and do not choke
    us; they are ranked by download rate, highest first, peers of equal
    rate staying in the order of the registry; the top [K - 1] are
    selected; at most one fill peer is added, which is the [K]-th of the
    ranking when the timer has not run out and there are [K] candidates,
    and a candidate outside the top [K - 1], when there is one, after the
    timer has run out (the timer then restarts).  Afterwards the keys of
    the registry are the same, only choke flags have changed, and a peer
    is unchoked exactly when it is selected. *)
Theorem choking_policy (m : PeerManager) (now : Q) (choice : nat) :
  registry_ok m → (1 ≤ max_unchoked_peers m)%Z → interested m ≠ [] →
  let ranked := by_rate (interested m) in
  let top := take (Z.to_nat (max_unchoked_peers m - 1)) ranked in
  (∀ e, e ∈ interested m
        ↔ e ∈ peers m ∧ is_interested_in_us e.2 = true ∧ is_choking_us e.2 = false)
  ∧ ranked ≡ₚ interested m
  ∧ StronglySorted rate_ge ranked
  ∧ (∀ r, filter (same_rate r) ranked = filter (same_rate r) (interested m))
  ∧ (StronglySorted older_first (peers m) → StronglySorted rate_then_age ranked)
  ∧ ∃ m' selected fill,
      recalculate_choking m now choice = Some (m', selected)
      ∧ map fst selected = map fst (top ++ fill)
      ∧ NoDup (map fst selected)
      ∧ (¬ elapsed m now →
         fill = option_list (ranked !! Z.to_nat (max_unchoked_peers m - 1))
         ∧ last_optimistic_unchoke m' = last_optimistic_unchoke m)
      ∧ (elapsed m now →
         (fill = [] ∧ (∀ e, e ∈ interested m → e.1 ∈ map fst top)
          ∧ last_optimistic_unchoke m' = last_optimistic_unchoke m)
         ∨ (∃ e, fill = [e] ∧ e ∈ interested m ∧ (e.1 ∉ map fst top)
                 ∧ last_optimistic_unchoke m' = now))
      ∧ map fst (peers m') = map fst (peers m)
      ∧ (∀ e', e' ∈ peers m' →
               (is_choked_by_us e'.2 = false ↔ e'.1 ∈ map fst selected))
      ∧ selected ⊆ peers m'
      ∧ Forall2 (λ e e', e' = (e.1, set_choked e.2 (is_choked_by_us e'.2)))
                (peers m) (peers m').
Proof.
  intros Hok HK Hcands ranked top.
  split_and!; [apply elem_of_interested | apply by_rate_Permutation
               | apply by_rate_sorted | intros r; apply by_rate_stable
               | intros Hage; by apply by_rate_then_age, StronglySorted_filter |].
  subst ranked top. unfold recalculate_choking.
  destruct (interested m) as [|c cs] eqn:Hint; [done|]. rewrite <-Hint in *.
  rewrite zprefix_take by lia.
  set (ranked := by_rate (interested m)).
  set (top := take (Z.to_nat (max_unchoked_peers m - 1)) ranked).
  destruct (Qltb _ _) eqn:Htimer.
  - (* the timer has run out *)
    apply Qltb_lt in Htimer.
    destruct (filter (λ e, among top e = false) (interested m))
      as [|first others] eqn:Hothers.
    + pose proof (finish_spec m m top Hok eq_refl (top_subseteq m _))
        as (Hsel & Hkeys & Hflag & Hsub & Hsame).
      eexists _, _, []. split; [done|]. rewrite app_nil_r.
      split_and!; try done.
      { pose proof (ranked_prefix_NoDup m (Z.to_nat (max_unchoked_peers m - 1)) Hok)
          as Hdistinct.
        fold ranked in Hdistinct. fold top in Hdistinct.
        rewrite <-Hsel in Hdistinct. exact Hdistinct. }
      intros _. left. split_and!; [done | | done].
      intros e He. destruct (among top e) eqn:Hamong.
      * by apply bool_decide_eq_true in Hamong.
      * assert (e ∈ filter (λ e, among top e = false) (interested m)) as Hin
          by (by apply list_elem_of_filter).
        rewrite Hothers in Hin. by apply elem_of_nil in Hin.
    + set (other_peers := first :: others) in *.
      set (e := default first (other_peers !! (choice mod length other_peers))).
      assert (He : e ∈ interested m ∧ e.1 ∉ map fst top).
      { assert (e ∈ other_peers) as Hin.
        { unfold e. destruct (other_peers !! _) eqn:Hlk; simpl.
          - by eapply list_elem_of_lookup_2.
          - left. }
        rewrite <-Hothers in Hin. apply list_elem_of_filter in Hin as [Hamong Hin].
        split; [done|]. by apply bool_decide_eq_false in Hamong. }
      destruct He as [He Hout].
      pose proof (finish_spec (with_last_optimistic m now) m (top ++ [e]) Hok eq_refl
                    (with_fill_subseteq m _ e He))
        as (Hsel & Hkeys & Hflag & Hsub & Hsame).
      eexists _, _, [e]. split; [done|].
      split_and!; try done.
      { assert (Hdistinct : NoDup (map fst (top ++ [e]))).
        { rewrite map_app. apply NoDup_app.
          split_and!; [by apply ranked_prefix_NoDup | | apply NoDup_singleton].
          by intros k Hk ->%list_elem_of_singleton. }
        rewrite <-Hsel in Hdistinct. exact Hdistinct. }
      intros _. right. exists e. split_and!; [done | done | done | reflexivity].
  - (* the timer has not run out *)
    apply Qltb_ge in Htimer.
    assert (Hnot : ¬ elapsed m now) by (by apply Qle_not_lt).
    rewrite zindex_lookup by lia.
    destruct (max_unchoked_peers m <=? Z.of_nat (length ranked))%Z eqn:Hlen.
    + apply Z.leb_le in Hlen.
      destruct (lookup_lt_is_Some_2 ranked (Z.to_nat (max_unchoked_peers m - 1))
                  ltac:(lia)) as [e Hlk].
      rewrite Hlk. simpl.
      assert (He : e ∈ interested m).
      { rewrite <-(by_rate_Permutation (interested m)).
        by eapply list_elem_of_lookup_2. }
      pose proof (finish_spec m m (top ++ [e]) Hok eq_refl
                    (with_fill_subseteq m _ e He))
        as (Hsel & Hkeys & Hflag & Hsub & Hsame).
      eexists _, _, [e]. split; [done|]. split_and!; try done.
      pose proof (ranked_prefix_NoDup m (S (Z.to_nat (max_unchoked_peers m - 1))) Hok)
        as Hdistinct.
      fold ranked in Hdistinct. rewrite (take_S_r _ _ _ Hlk) in Hdistinct.
      fold top in Hdistinct. rewrite <-Hsel in Hdistinct. exact Hdistinct.
    + apply Z.leb_gt in Hlen.
      pose proof (finish_spec m m top Hok eq_refl (top_subseteq m _))
        as (Hsel & Hkeys & Hflag & Hsub & Hsame).
      eexists _, _, []. split; [done|]. rewrite app_nil_r.
      split_and!; try done.
      { pose proof (ranked_prefix_NoDup m (Z.to_nat (max_unchoked_peers m - 1)) Hok)
          as Hdistinct.
        fold ranked in Hdistinct. fold top in Hdistinct.
        rewrite <-Hsel in Hdistinct. exact Hdistinct. }
      intros _. rewrite lookup_ge_None_2 by lia. done.
Qed.

(** Without a candidate the function returns at once: the registry,
    choke flags included, is the one before. *)
Lemma recalculate_choking_no_candidate (m : PeerManager) (now : Q) (choice : nat) :
  interested m = [] → recalculate_choking m now choice = Some (m, []).
Proof. intros Hnone. unfold recalculate_choking. by rewrite Hnone. Qed.

Definition candidate (peer_ip : string) (rate : Q) (now : Q) : string * PeerStats :=
  (peer_key peer_ip 6881,
   {| ip := peer_ip; port := 6881; downloaded := 0; uploaded := 0;
      last_download_time := now; last_upload_time := now;
      download_rate := rate; upload_rate := 0;
      is_choked_by_us := true; is_choking_us := false;
      is_interested_in_us := true; we_are_interested := false;
      connection_time := now |}).

Definition registry_of (entries : list (string * PeerStats)) : PeerManager :=
  {| peers := entries; max_unchoked_peers := 4;
     optimistic_unchoke_interval := 30; last_optimistic_unchoke := 0;
     total_downloaded := 0; total_uploaded := 0; start_time := 0 |}.

Definition five_candidates : PeerManager :=
  registry_of [candidate "10.0.0.1" 5 1; candidate "10.0.0.2" 7 2;
               candidate "10.0.0.3" 5 3; candidate "10.0.0.4" 9 4;
               candidate "10.0.0.5" 1 5].

Definition two_candidates : PeerManager :=
  registry_of [candidate "10.0.0.1" 5 1; candidate "10.0.0.2" 7 2].

Lemma choking_policy_witness :
  ∃ m' selected fill,
    recalculate_choking five_candidates 40 1 = Some (m', selected)
    ∧ map fst selected
      = map fst (take 3 (by_rate (interested five_candidates)) ++ fill).
Proof.
  assert (Hok : registry_ok five_candidates).
  { split; [refine (bool_decide_unpack _ _); vm_compute; exact I | repeat constructor]. }
  destruct (choking_policy five_candidates 40 1 Hok ltac:(simpl; lia)
              ltac:(discriminate))
    as (_ & _ & _ & _ & _ & m' & selected & fill & Hrun & Hsel & _).
  exists m', selected, fill. split; [exact Hrun | exact Hsel].
Defined.

(** C1 as stated fails: with two candidates and [K = 4] the selection is
    the two candidates, which are the top [K - 1]; no fill peer is added,
    neither before the timer has run out nor after. *)
Lemma choking_without_fill_peer :
  let ranked := by_rate (interested two_candidates) in
  map fst ranked = ["10.0.0.2:6881"; "10.0.0.1:6881"]
  ∧ zprefix ranked (max_unchoked_peers two_candidates - 1) = ranked
  ∧ (∃ m', recalculate_choking two_candidates 10 0
           = Some (m', map (choke_all_but ranked) ranked))
  ∧ (∃ m', recalculate_choking two_candidates 40 0
           = Some (m', map (choke_all_but ranked) ranked)).
Proof.
  split_and!; [reflexivity | reflexivity | |]; eexists; reflexivity.
Qed.

End Choking.

(** ** Decimal numbers *)

Module StrFacts.
Import Py.

Lemma ord_digit_char (d : N) : (d < 10)%N → ord (digit_char d) = (48 + d)%N.
Proof. intros Hd. unfold ord, digit_char. rewrite N_ascii_embedding; lia. Qed.

Lemma is_digit_digit_char (d : N) : (d < 10)%N → is_digit (digit_char d) = true.
Proof.
  intros Hd. unfold is_digit. rewrite ord_digit_char by done.
  apply andb_true_iff. split; apply N.leb_le; lia.
Qed.

Lemma digit_val_digit_char (d : N) : (d < 10)%N → digit_val (digit_char d) = Z.of_N d.
Proof. intros Hd. unfold digit_val. rewrite ord_digit_char by done. lia. Qed.

Lemma is_digit_ord (c : ascii) : is_digit c = true ↔ (48 ≤ ord c ≤ 57)%N.
Proof. unfold is_digit. rewrite andb_true_iff, !N.leb_le. done. Qed.

Lemma is_digit_not_space (c : ascii) : is_digit c = true → is_space c = false.
Proof.
  intros Hc%is_digit_ord. unfold is_space.
  apply orb_false_iff. split.
  - apply andb_false_iff. right. apply N.leb_gt. lia.
  - apply N.eqb_neq. lia.
Qed.

Lemma is_digit_neq (c d : ascii) :
  is_digit c = true → (ord d < 48 ∨ 57 < ord d)%N → c ≠ d.
Proof. intros Hc%is_digit_ord Hd ->. lia. Qed.

(** The value of a string of digits, from an accumulator. *)
Definition digits_val (acc : Z) (s : bytes) : Z :=
  foldl (λ a c, a * 10 + digit_val c)%Z acc s.

Lemma int_digits_all (acc : Z) (s : bytes) :
  forallb is_digit s = true → int_digits acc s = Some (digits_val acc s).
Proof.
  revert acc. induction s as [|c s IH]; intros acc; simpl; [done|].
  intros [Hc Hs]%andb_true_iff. rewrite Hc. by apply IH.
Qed.

Lemma int_unsigned_all (s : bytes) :
  s ≠ [] → forallb is_digit s = true → int_unsigned s = Some (digits_val 0 s).
Proof.
  destruct s as [|c s]; [done|]. intros _ [Hc Hs]%andb_true_iff.
  simpl. rewrite Hc. by apply int_digits_all.
Qed.

Lemma lstrip_id (s : bytes) :
  (∀ c, head s = Some c → is_space c = false) → lstrip s = s.
Proof. destruct s as [|c s]; simpl; [done|]. intros Hc. by rewrite Hc. Qed.

Lemma strip_id (s : bytes) :
  (∀ c, head s = Some c → is_space c = false) →
  (∀ c, last s = Some c → is_space c = false) → strip s = s.
Proof.
  intros Hhead Hlast. unfold strip. rewrite (lstrip_id s) by done.
  rewrite lstrip_id; [apply reverse_involutive|].
  intros c. rewrite head_reverse. apply Hlast.
Qed.

(** [str] of a natural number. *)
Lemma str_nat_aux_app (fuel : nat) (n : N) (acc : bytes) :
  str_nat_aux fuel n acc = str_nat_aux fuel n [] ++ acc.
Proof.
  revert n acc. induction fuel as [|fuel IH]; intros n acc; simpl; [done|].
  destruct (n / 10 =? 0)%N; [done|].
  rewrite (IH _ (_ :: acc)), (IH _ [_]). by rewrite <-app_assoc.
Qed.

Lemma str_nat_aux_step (fuel : nat) (n : N) :
  str_nat_aux (S fuel) n []
  = (if (n / 10 =? 0)%N then [] else str_nat_aux fuel (n / 10) [])
    ++ [digit_char (n mod 10)].
Proof. simpl. destruct (n / 10 =? 0)%N; [done|]. apply str_nat_aux_app. Qed.

Lemma size_nat_gt (n : N) : (n < 2 ^ N.of_nat (N.size_nat n))%N.
Proof.
  destruct n as [|p]; [done|]. simpl.
  induction p as [p IH|p IH|]; cbn [Pos.size_nat];
    rewrite ?Nat2N.inj_succ, ?N.pow_succ_r'; simpl in *; lia.
Qed.

(** With a budget of [fuel] digits for [n < 2 ^ fuel], the digits are
    those of [n]: they are digits, their value is [n], and the first is
    not [0] unless [n] is 0. *)
Lemma str_nat_aux_spec (fuel : nat) (n : N) :
  (n < 2 ^ N.of_nat fuel)%N →
  let s := str_nat_aux fuel n [] in
  forallb is_digit s = true
  ∧ (∀ acc, digits_val acc s = acc * 10 ^ Z.of_nat (length s) + Z.of_N n)%Z
  ∧ s ≠ []
  ∧ (n ≠ 0%N → head s ≠ Some "0"%char).
Proof.
  revert n. induction fuel as [|fuel IH]; intros n Hn.
  - assert (n = 0%N) as -> by (simpl in Hn; lia).
    split_and!; [done | | done | done].
    intros acc. change (digits_val acc (str_nat_aux 0 0 []))
      with (acc * 10 + digit_val (digit_char 0))%Z.
    rewrite digit_val_digit_char by done. simpl. lia.
  - cbv zeta. rewrite str_nat_aux_step.
    pose proof (N.mod_lt n 10 ltac:(lia)) as Hmod.
    pose proof (N.div_mod n 10 ltac:(lia)) as Hdiv.
    destruct (n / 10 =? 0)%N eqn:Hq.
    + apply N.eqb_eq in Hq. rewrite Hq in Hdiv. simpl.
      rewrite is_digit_digit_char by done.
      split_and!; [done | | done |].
      * intros acc. unfold digits_val. simpl.
        rewrite digit_val_digit_char by done. lia.
      * intros Hn0 [= Hc]. apply (f_equal ord) in Hc.
        rewrite ord_digit_char in Hc by done. change (ord "0") with 48%N in Hc. lia.
    + apply N.eqb_neq in Hq.
      destruct (IH (n / 10)%N) as (Hdig & Hval & Hne & Hhead).
      { rewrite Nat2N.inj_succ, N.pow_succ_r' in Hn.
        apply N.Div0.div_lt_upper_bound. lia. }
      split_and!.
      * rewrite forallb_app, Hdig. simpl. by rewrite is_digit_digit_char.
      * intros acc. unfold digits_val in *. rewrite foldl_app, Hval. simpl.
        rewrite digit_val_digit_char by done. rewrite length_app. simpl.
        rewrite Nat2Z.inj_add, Z.pow_add_r by lia. lia.
      * by destruct (str_nat_aux fuel (n / 10) []).
      * intros _. destruct (str_nat_aux fuel (n / 10) []) as [|c s]; [done|].
        simpl in *. by apply Hhead.
Qed.

Lemma str_nat_spec (n : N) :
  forallb is_digit (str_nat n) = true
  ∧ digits_val 0 (str_nat n) = Z.of_N n
  ∧ str_nat n ≠ []
  ∧ (n ≠ 0%N → head (str_nat n) ≠ Some "0"%char).
Proof.
  destruct (str_nat_aux_spec (N.size_nat n) n (size_nat_gt n))
    as (Hdig & Hval & Hne & Hhead).
  split_and!; [done | | done | done].
  unfold str_nat. rewrite (Hval 0%Z). lia.
Qed.

Lemma str_nat_0 : str_nat 0 = b "0".
Proof. reflexivity. Qed.

(** [int(str(z)) == z]. *)
Lemma int_str_nat (n : N) : int (str_nat n) = Some (Z.of_N n).
Proof.
  destruct (str_nat_spec n) as (Hdig & Hval & Hne & _).
  unfold int. rewrite strip_id.
  - destruct (str_nat n) as [|c s] eqn:Hs; [done|].
    pose proof Hdig as [Hc _]%andb_true_iff.
    rewrite !bool_decide_eq_false_2
      by (apply is_digit_neq; [done | left; reflexivity]).
    rewrite int_unsigned_all by done. by rewrite Hval.
  - intros c Hc. apply is_digit_not_space.
    rewrite forallb_forall in Hdig. apply Hdig, list_elem_of_In.
    by apply head_Some_elem_of.
  - intros c Hc. apply is_digit_not_space.
    rewrite forallb_forall in Hdig. apply Hdig, list_elem_of_In.
    by apply last_Some_elem_of.
Qed.

Lemma int_str (z : Z) : int (str z) = Some z.
Proof.
  unfold str. destruct (z <? 0)%Z eqn:Hz; [|rewrite int_str_nat; f_equal; lia].
  apply Z.ltb_lt in Hz.
  destruct (str_nat_spec (Z.to_N (- z))) as (Hdig & Hval & Hne & _).
  unfold int. rewrite strip_id.
  - rewrite bool_decide_eq_true_2 by done.
    rewrite int_unsigned_all by done. rewrite Hval. simpl. f_equal. lia.
  - by intros c [= <-].
  - intros c Hc. apply is_digit_not_space.
    rewrite forallb_forall in Hdig. apply Hdig, list_elem_of_In.
    rewrite last_cons in Hc.
    destruct (last (str_nat _)) eqn:Hl; [|by apply last_None in Hl].
    injection Hc as <-. by apply last_Some_elem_of.
Qed.

(** The characters of [str z]: digits after an optional sign. *)
Lemma str_chars (z : Z) (c : ascii) :
  c ∈ str z → c = "-"%char ∨ is_digit c = true.
Proof.
  unfold str. destruct (z <? 0)%Z.
  - intros [->|Hc]%elem_of_cons; [by left|]. right.
    destruct (str_nat_spec (Z.to_N (- z))) as (Hdig & _).
    rewrite forallb_forall in Hdig. by apply Hdig, list_elem_of_In.
  - intros Hc. right. destruct (str_nat_spec (Z.to_N z)) as (Hdig & _).
    rewrite forallb_forall in Hdig. by apply Hdig, list_elem_of_In.
Qed.

Lemma str_not_elem (z : Z) (c : ascii) :
  c ≠ "-"%char → is_digit c = false → c ∉ str z.
Proof.
  intros Hminus Hdigit Hin. apply str_chars in Hin as [->|Hd]; [done|].
  by rewrite Hd in Hdigit.
Qed.

Lemma str_nonneg (z : Z) : (0 ≤ z)%Z → str z = str_nat (Z.to_N z).
Proof. intros Hz. unfold str. by rewrite (proj2 (Z.ltb_ge _ _)). Qed.

(** [find] reaches the first occurrence. *)
Lemma find_from_app (c : ascii) (s rest : bytes) (pos : nat) :
  c ∉ s → find_from c (s ++ c :: rest) pos = Some (pos + length s).
Proof.
  revert pos. induction s as [|x s IH]; intros pos Hc; simpl.
  - rewrite bool_decide_eq_true_2 by done. f_equal. lia.
  - apply not_elem_of_cons in Hc as [Hx Hs].
    rewrite bool_decide_eq_false_2 by done. rewrite IH by done. f_equal. lia.
Qed.

Lemma find_app (c : ascii) (pre s rest : bytes) :
  c ∉ s → find c (pre ++ s ++ c :: rest) (length pre) = Some (length pre + length s).
Proof. intros Hc. unfold find. rewrite drop_app_length. by apply find_from_app. Qed.

Lemma find_from_Some (c : ascii) (l : bytes) (pos j : nat) :
  find_from c l pos = Some j →
  pos ≤ j < pos + length l ∧ l !! (j - pos) = Some c ∧ c ∉ take (j - pos) l.
Proof.
  revert pos. induction l as [|x l IH]; intros pos; simpl; [done|].
  case_bool_decide as Hx.
  - intros [= <-]. rewrite Nat.sub_diag. subst. simpl.
    split_and!; [lia | lia | done | apply not_elem_of_nil].
  - intros (Hj & Hlk & Hnot)%IH.
    replace (j - pos) with (S (j - S pos)) by lia. simpl.
    split_and!; [lia | lia | done |]. apply not_elem_of_cons. done.
Qed.

Lemma find_Some (c : ascii) (data : bytes) (i j : nat) :
  find c data i = Some j →
  i ≤ j < length data ∧ data !! j = Some c ∧ c ∉ slice data i j.
Proof.
  unfold find. intros (Hj & Hlk & Hnot)%find_from_Some.
  rewrite length_drop in Hj. rewrite lookup_drop in Hlk.
  replace (i + (j - i)) with j in Hlk by lia.
  split_and!; [lia | lia | done | done].
Qed.

End StrFacts.

(** ** The keys of the registry *)

Module PeerKeyFacts.
Import Py PeerManager DictFacts StrFacts.

Lemma list_ascii_of_string_app (s t : string) :
  list_ascii_of_string (s +:+ t) = list_ascii_of_string s ++ list_ascii_of_string t.
Proof. induction s as [|c s IH]; simpl; [done|]. by rewrite IH. Qed.

Lemma list_ascii_of_string_inj (s t : string) :
  list_ascii_of_string s = list_ascii_of_string t → s = t.
Proof.
  intros Heq. rewrite <-(string_of_list_ascii_of_string s),
    <-(string_of_list_ascii_of_string t). by rewrite Heq.
Qed.

Lemma app_sep_inj (c : ascii) (a a' s s' : list ascii) :
  c ∉ s → c ∉ s' → a ++ c :: s = a' ++ c :: s' → a = a' ∧ s = s'.
Proof.
  intros Hs Hs'. revert a'. induction a as [|x a IH]; intros [|x' a']; simpl.
  - by intros [= ->].
  - intros [= <- ->]. exfalso. apply Hs. apply elem_of_app. right. left.
  - intros [= -> <-]. exfalso. apply Hs'. apply elem_of_app. right. left.
  - intros [= -> Heq]. destruct (IH _ Heq) as [-> ->]. done.
Qed.

Lemma str_inj (z z' : Z) : str z = str z' → z = z'.
Proof.
  intros Heq. pose proof (int_str z) as Hz. rewrite Heq, int_str in Hz.
  by injection Hz.
Qed.

(** The key tells the address. *)
Lemma peer_key_inj (peer_ip peer_ip' : string) (peer_port peer_port' : Z) :
  peer_key peer_ip peer_port = peer_key peer_ip' peer_port' →
  peer_ip = peer_ip' ∧ peer_port = peer_port'.
Proof.
  unfold peer_key. intros Heq%(f_equal list_ascii_of_string).
  rewrite !list_ascii_of_string_app, !list_ascii_of_string_of_list_ascii in Heq.
  apply app_sep_inj in Heq as [Hip Hport];
    [|apply str_not_elem; done..].
  split; [by apply list_ascii_of_string_inj | by apply str_inj].
Qed.

(** The registry after a sequence of [add_peer], each with its time. *)
Definition admitted (adds : list (string * Z * Q)) (m : PeerManager) : PeerManager :=
  foldl (λ m a, (add_peer m a.1.1 a.1.2 a.2).1) m adds.

Lemma add_peer_other m peer_ip peer_port now peer_ip' peer_port' :
  (peer_ip', peer_port') ≠ (peer_ip, peer_port) →
  get_peer (add_peer m peer_ip peer_port now).1 peer_ip' peer_port'
  = get_peer m peer_ip' peer_port'.
Proof.
  intros Hne. unfold add_peer, get_peer.
  destruct (dict_get (peers m) (peer_key peer_ip peer_port)); [done|]. simpl.
  apply dict_get_set_ne. intros [-> ->]%peer_key_inj. done.
Qed.

(** An endpoint that was never added is unknown to the registry. *)
Lemma never_added_unknown adds max_unchoked now peer_ip peer_port :
  (peer_ip, peer_port) ∉ map fst adds →
  get_peer (admitted adds (init max_unchoked now)) peer_ip peer_port = None.
Proof.
  intros Hnot.
  assert (Hgen : ∀ m, get_peer m peer_ip peer_port = None →
                      get_peer (admitted adds m) peer_ip peer_port = None);
    [|by apply Hgen].
  induction adds as [|[[ip' port'] t] adds IH]; intros m Hm; [done|].
  apply not_elem_of_cons in Hnot as [Hne Hnot]. simpl.
  apply (IH Hnot). by rewrite add_peer_other.
Qed.

(** When the clock does not run backwards between the admissions, the
    registry is in the order of the connection times. *)
Lemma admitted_older_first adds m :
  StronglySorted ChokingFacts.older_first (peers m) →
  (∀ e a, e ∈ peers m → a ∈ adds → (connection_time e.2 <= a.2)%Q) →
  StronglySorted Qle (map snd adds) →
  StronglySorted ChokingFacts.older_first (peers (admitted adds m)).
Proof.
  revert m. induction adds as [|[[peer_ip peer_port] t] adds IH];
    intros m Hm Hbefore Hclock; [done|].
  cbn [map snd] in Hclock. apply StronglySorted_cons in Hclock as [Hlater Hclock].
  cbn [admitted foldl fst snd]. fold (admitted adds).
  apply IH; [| |done].
  - unfold add_peer.
    destruct (dict_get (peers m) (peer_key peer_ip peer_port)) eqn:Hget; [done|].
    simpl. rewrite dict_set_fresh by (by apply dict_get_None).
    apply StronglySorted_app. split_and!; [| done | repeat constructor].
    intros e x He ->%list_elem_of_singleton.
    apply (Hbefore e (peer_ip, peer_port, t) He). left.
  - intros e a He Ha. unfold add_peer in He.
    assert (Hlater' : (t <= a.2)%Q).
    { rewrite Forall_forall in Hlater. apply Hlater, list_elem_of_fmap. by exists a. }
    destruct (dict_get (peers m) (peer_key peer_ip peer_port)) eqn:Hget.
    + apply (Hbefore e a He). by right.
    + simpl in He. rewrite dict_set_fresh in He by (by apply dict_get_None).
      apply elem_of_app in He as [He| ->%list_elem_of_singleton].
      * apply (Hbefore e a He). by right.
      * exact Hlater'.
Qed.

End PeerKeyFacts.

(** ** Updates of the registry *)

Section RegistryFrame.
Import Py PeerManager DictFacts PeerManagerFacts PeerKeyFacts.

(** C10.  An update for an endpoint the registry does not hold returns the
    manager as it is: no error, no peer and no total changes; such is an
    endpoint that is not among those added since the manager was made.
    For an endpoint it holds, the keys and their order stay, every other
    peer is the same object as before, the peer itself changes in its
    download (resp. upload) statistics only, and only [total_downloaded]
    (resp. [total_uploaded]) moves, by [bytes_count]. *)
Theorem update_frame (m : PeerManager) (peer_ip : string) (peer_port : Z)
    (bytes_count : Z) (now : Q) :
  (get_peer m peer_ip peer_port = None →
     update_download m peer_ip peer_port bytes_count now = m
     ∧ update_upload m peer_ip peer_port bytes_count now = m)
  ∧ (∀ adds max_unchoked t0, (peer_ip, peer_port) ∉ map fst adds →
     let m0 := admitted adds (init max_unchoked t0) in
     update_download m0 peer_ip peer_port bytes_count now = m0
     ∧ update_upload m0 peer_ip peer_port bytes_count now = m0)
  ∧ (∀ peer, get_peer m peer_ip peer_port = Some peer →
     let down := update_download m peer_ip peer_port bytes_count now in
     let up := update_upload m peer_ip peer_port bytes_count now in
     (map fst (peers down) = map fst (peers m)
      ∧ (∀ k, k ≠ peer_key peer_ip peer_port →
           dict_get (peers down) k = dict_get (peers m) k)
      ∧ (∃ q, get_peer down peer_ip peer_port = Some q
              ∧ same_but_download peer q
              ∧ downloaded q = (downloaded peer + bytes_count)%Z)
      ∧ total_downloaded down = (total_downloaded m + bytes_count)%Z
      ∧ total_uploaded down = total_uploaded m
      ∧ same_settings m down)
     ∧ (map fst (peers up) = map fst (peers m)
      ∧ (∀ k, k ≠ peer_key peer_ip peer_port →
           dict_get (peers up) k = dict_get (peers m) k)
      ∧ (∃ q, get_peer up peer_ip peer_port = Some q
              ∧ same_but_upload peer q
              ∧ uploaded q = (uploaded peer + bytes_count)%Z)
      ∧ total_uploaded up = (total_uploaded m + bytes_count)%Z
      ∧ total_downloaded up = total_downloaded m
      ∧ same_settings m up)).
Proof.
  split_and!.
  - intros Hnone. unfold update_download, update_upload. by rewrite Hnone.
  - intros adds max_unchoked t0 Hnot m0.
    pose proof (never_added_unknown adds max_unchoked t0 _ _ Hnot) as Hnone.
    fold m0 in Hnone. unfold update_download, update_upload. by rewrite Hnone.
  - intros peer Hsome. simpl.
    assert (Hin : peer_key peer_ip peer_port ∈ map fst (peers m)).
    { apply dict_get_is_Some. by exists peer. }
    unfold update_download, update_upload, get_peer in *. rewrite Hsome. simpl.
    split.
    + split_and!; try done.
      * rewrite dict_set_keys. by rewrite decide_True.
      * intros k Hk. by apply dict_get_set_ne.
      * eexists. split; [apply dict_get_set_eq|]. by repeat split.
    + split_and!; try done.
      * rewrite dict_set_keys. by rewrite decide_True.
      * intros k Hk. by apply dict_get_set_ne.
      * eexists. split; [apply dict_get_set_eq|]. by repeat split.
Qed.

Definition registry_example : PeerManager :=
  (add_peer (init 4 0) "10.0.0.1" 6881 1).1.

Lemma update_frame_witness :
  update_download registry_example "10.0.0.9" 6881 100 5 = registry_example
  ∧ update_upload registry_example "10.0.0.9" 6881 100 5 = registry_example
  ∧ total_downloaded (update_download registry_example "10.0.0.1" 6881 100 5) = 100%Z
  ∧ total_uploaded (update_download registry_example "10.0.0.1" 6881 100 5) = 0%Z.
Proof.
  pose proof (update_frame registry_example "10.0.0.9" 6881 100 5) as (Hunknown & _).
  pose proof (update_frame registry_example "10.0.0.1" 6881 100 5) as (_ & _ & Hknown).
  destruct (Hunknown eq_refl) as [Hd Hu].
  destruct (Hknown _ eq_refl) as [(_ & _ & _ & Htd & Htu & _) _].
  split_and!; [exact Hd | exact Hu | exact Htd | exact Htu].
Defined.

End RegistryFrame.

(** ** The bencode values *)

Module BvalueFacts.
Import Py Bencode DictFacts.

(** Induction on a value, with the hypothesis for the members of a list
    and for the values of a dict. *)
Section Induction.
Context (P : bvalue → Prop).
Hypothesis Hint : ∀ n, P (BInt n).
Hypothesis Hbytes : ∀ s, P (BBytes s).
Hypothesis Hlist : ∀ l, Forall P l → P (BList l).
Hypothesis Hdict : ∀ d, Forall (λ kv, P kv.2) d → P (BDict d).

Fixpoint bvalue_ind' (v : bvalue) : P v :=
  match v with
  | BInt n => Hint n
  | BBytes s => Hbytes s
  | BList l =>
      Hlist l ((fix go (l : list bvalue) : Forall P l :=
                  match l with
                  | [] => Forall_nil_2 P
                  | x :: r => Forall_cons_2 P x r (bvalue_ind' x) (go r)
                  end) l)
  | BDict d =>
      Hdict d ((fix go (d : list (bytes * bvalue)) : Forall (λ kv, P kv.2) d :=
                  match d with
                  | [] => Forall_nil_2 _
                  | (k, x) :: r => Forall_cons_2 _ (k, x) r (bvalue_ind' x) (go r)
                  end) d)
  end.
End Induction.

Lemma py_eq_BList l l' :
  py_eq (BList l) (BList l') = true ↔ Forall2 (λ v v', py_eq v v' = true) l l'.
Proof.
  revert l'. induction l as [|v l IH]; intros [|v' l']; cbn [py_eq].
  - split; [constructor | done].
  - split; [done | intros H; inv H].
  - split; [done | intros H; inv H].
  - rewrite andb_true_iff. specialize (IH l'). cbn [py_eq] in IH. rewrite IH.
    split; [intros [??]; by constructor | intros H; by inv H].
Qed.

Lemma py_eq_BDict d d' :
  py_eq (BDict d) (BDict d') = true
  ↔ length d = length d'
    ∧ Forall (λ kv, ∃ v', dict_get d' kv.1 = Some v' ∧ py_eq kv.2 v' = true) d.
Proof.
  cbn [py_eq]. rewrite andb_true_iff, Nat.eqb_eq.
  apply and_iff_compat_l. clear.
  induction d as [|[k v] d IH].
  - split; [constructor | done].
  - rewrite andb_true_iff, IH, Forall_cons. apply and_iff_compat_r. simpl.
    destruct (dict_get d' k) as [v'|].
    + split; [by exists v' | by intros (? & [= <-] & ?)].
    + split; [done | by intros (? & ? & _)].
Qed.

Lemma wf_BList l : wf (BList l) ↔ Forall wf l.
Proof.
  cbn [wf]. induction l as [|v l IH]; [by split; [constructor|] |].
  by rewrite Forall_cons, IH.
Qed.

Lemma wf_BDict d : wf (BDict d) ↔ NoDup (map fst d) ∧ Forall (λ kv, wf kv.2) d.
Proof.
  cbn [wf]. apply and_iff_compat_l.
  induction d as [|[k v] d IH]; [by split; [constructor|] |].
  by rewrite Forall_cons, IH.
Qed.

(** The encoding of a dict: the entries in the order of the sorted keys. *)
Definition entry (d : list (bytes * bvalue)) (key : bytes) : bytes :=
  encode_bytes key ++ default [] (encode <$> dict_get d key).

Lemma dict_get_fmap {V W} (f : V → W) (d : list (bytes * V)) (k : bytes) :
  dict_get (map (λ kv, (kv.1, f kv.2)) d) k = f <$> dict_get d k.
Proof.
  induction d as [|[k' v] d IH]; simpl; [done|]. by case_bool_decide.
Qed.

Lemma encode_BDict d :
  encode (BDict d)
  = b "d" ++ concat (map (entry d) (bytes_sorted (map fst d))) ++ b "e".
Proof.
  cbn [encode]. do 3 f_equal. apply list_fmap_ext. intros i k _.
  unfold entry. by rewrite (dict_get_fmap encode).
Qed.

Lemma encode_BList l : encode (BList l) = b "l" ++ concat (map encode l) ++ b "e".
Proof. done. Qed.

(** An encoding is not empty and does not start with the [e] that ends a
    container. *)
Lemma encode_head (v : bvalue) :
  ∃ c s, encode v = c :: s ∧ c ≠ "e"%char.
Proof.
  destruct v as [n|s|l|d].
  - by eexists _, _.
  - unfold encode, encode_bytes.
    rewrite StrFacts.str_nonneg by lia.
    destruct (StrFacts.str_nat_spec (Z.to_N (Z.of_nat (length s))))
      as (Hdig & _ & Hne & _).
    destruct (str_nat _) as [|c t]; [done|]. eexists _, _. split; [done|].
    apply andb_true_iff in Hdig as [Hc _].
    apply StrFacts.is_digit_neq; [done | right; reflexivity].
  - by eexists _, _.
  - rewrite encode_BDict. by eexists _, _.
Qed.

End BvalueFacts.

(** ** The decoder on encodings *)

Module DecodeFacts.
Import Py Bencode DictFacts StrFacts BvalueFacts.

Lemma lookup_middle {A} (pre : list A) (c : A) (rest : list A) :
  (pre ++ c :: rest) !! length pre = Some c.
Proof. by rewrite lookup_app_r, Nat.sub_diag. Qed.

Lemma slice_middle {A} (pre s rest : list A) :
  slice (pre ++ s ++ rest) (length pre) (length pre + length s) = s.
Proof.
  unfold slice. rewrite drop_app_length.
  replace (length pre + length s - length pre) with (length s) by lia.
  apply take_app_length.
Qed.

Lemma at_is_middle (pre : bytes) (c c' : ascii) (rest : bytes) :
  at_is (pre ++ c :: rest) (length pre) c' = bool_decide (c = c').
Proof.
  unfold at_is. rewrite lookup_middle.
  apply bool_decide_ext. split; [by intros [= ->] | by intros ->].
Qed.

Lemma at_is_head (pre s rest : bytes) (c c0 : ascii) (t : bytes) :
  s = c0 :: t → at_is (pre ++ s ++ rest) (length pre) c = bool_decide (c0 = c).
Proof. intros ->. apply at_is_middle. Qed.

Lemma lookup_head (pre s rest : bytes) (c0 : ascii) (t : bytes) :
  s = c0 :: t → (pre ++ s ++ rest) !! length pre = Some c0.
Proof. intros ->. apply lookup_middle. Qed.

(** The checks of [_parse_int] on the digits that [str] writes. *)
Lemma str_checks (z : Z) :
  str z ≠ []
  ∧ str z ≠ ["-"; "0"]%char
  ∧ (slice (str z) 0 1 = ["0"%char] → length (str z) = 1)
  ∧ (slice (str z) 0 1 = ["-"%char] →
     length (str z) ≠ 1 ∧ slice (str z) 1 2 ≠ ["0"%char]).
Proof.
  unfold str. destruct (z <? 0)%Z eqn:Hz.
  - apply Z.ltb_lt in Hz.
    destruct (str_nat_spec (Z.to_N (- z))) as (_ & _ & Hne & Hhead).
    specialize (Hhead ltac:(lia)).
    destruct (str_nat (Z.to_N (- z))) as [|c s]; [done|].
    split_and!; [done | | done |].
    + intros [= -> ->]. done.
    + intros _. split; [done|]. intros [= ->]. done.
  - apply Z.ltb_ge in Hz.
    destruct (str_nat_spec (Z.to_N z)) as (Hdig & _ & Hne & Hhead).
    destruct (str_nat (Z.to_N z)) as [|c s] eqn:Hs; [done|].
    apply andb_true_iff in Hdig as [Hc _].
    split_and!; [done | | |].
    + intros [= -> _]. done.
    + intros [= ->]. destruct (decide (Z.to_N z = 0%N)) as [H0|H0].
      * rewrite H0, str_nat_0 in Hs. by injection Hs as <-.
      * by specialize (Hhead H0).
    + intros [= ->]. done.
Qed.

Lemma _parse_int_encoded (pre : bytes) (z : Z) (rest : bytes) :
  _parse_int (pre ++ encode (BInt z) ++ rest) (length pre)
  = Done (z, length pre + length (encode (BInt z))).
Proof.
  destruct (str_checks z) as (Hne & Hm0 & Hzero & Hneg).
  unfold _parse_int. cbn [encode b list_ascii_of_string app].
  rewrite <-!app_assoc. cbn [app].
  rewrite at_is_middle, bool_decide_eq_true_2 by done. cbn [negb].
  set (pre' := pre ++ ["i"%char]).
  assert (Hpre' : length pre + 1 = length pre') by (unfold pre'; by rewrite length_app).
  assert (Hdata : pre ++ "i"%char :: str z ++ "e"%char :: rest
                  = pre' ++ str z ++ "e"%char :: rest).
  { unfold pre'. by rewrite <-app_assoc. }
  rewrite Hdata, Hpre'.
  rewrite find_app by (apply str_not_elem; done).
  rewrite slice_middle.
  rewrite (bool_decide_eq_false_2 (str z = [])) by done.
  rewrite (bool_decide_eq_false_2 (str z = ["-"; "0"]%char)) by done.
  rewrite int_str.
  replace (length pre' + length (str z) + 1)
    with (length pre + length ("i"%char :: str z ++ ["e"%char]))
    by (rewrite <-Hpre', length_cons, length_app; simpl; lia).
  destruct (decide (slice (str z) 0 1 = ["0"%char])) as [H0|H0].
  - rewrite (Hzero H0). cbn [andb Nat.ltb Nat.leb].
    rewrite (bool_decide_eq_false_2 (slice (str z) 0 1 = ["-"%char]));
      [by rewrite andb_false_r | by rewrite H0].
  - rewrite (bool_decide_eq_false_2 _ H0). cbn [andb].
    destruct (decide (slice (str z) 0 1 = ["-"%char])) as [Hminus|Hminus].
    + destruct (Hneg Hminus) as [Hlen Hnext].
      rewrite (proj2 (Nat.eqb_neq _ _) Hlen), (bool_decide_eq_false_2 _ Hnext).
      cbn [orb]. by rewrite andb_false_r.
    + by rewrite (bool_decide_eq_false_2 _ Hminus).
Qed.

Lemma _parse_bytestring_encoded (pre s rest : bytes) :
  _parse_bytestring (pre ++ encode_bytes s ++ rest) (length pre)
  = Done (s, length pre + length (encode_bytes s)).
Proof.
  unfold encode_bytes. rewrite str_nonneg by lia.
  set (n := Z.to_N (Z.of_nat (length s))).
  destruct (str_nat_spec n) as (Hdig & Hval & Hne & Hhead).
  pose proof (int_str_nat n) as Hint.
  unfold _parse_bytestring. cbn [b list_ascii_of_string app].
  rewrite <-!app_assoc. cbn [app].
  rewrite find_app.
  2:{ intros Hin. rewrite forallb_forall in Hdig.
      by specialize (Hdig _ (proj1 (list_elem_of_In _ _) Hin)). }
  rewrite slice_middle.
  rewrite (bool_decide_eq_false_2 (str_nat n = [])) by done.
  rewrite Hdig. cbn [negb].
  assert (Hlead : bool_decide (slice (str_nat n) 0 1 = ["0"%char])
                  && (1 <? length (str_nat n)) = false).
  { destruct (bool_decide _) eqn:H0; [|done]. apply bool_decide_eq_true in H0.
    destruct (decide (n = 0%N)) as [->|Hn]; [done|]. specialize (Hhead Hn).
    destruct (str_nat n) as [|c t]; [done|]. by injection H0 as ->. }
  rewrite Hlead, Hint.
  replace (Z.to_nat (Z.of_N n)) with (length s) by lia.
  set (pre' := pre ++ str_nat n ++ [":"%char]).
  assert (Hpre' : length pre + length (str_nat n) + 1 = length pre').
  { unfold pre'. rewrite !length_app. simpl. lia. }
  assert (Hdata : pre ++ str_nat n ++ ":"%char :: s ++ rest = pre' ++ s ++ rest).
  { unfold pre'. rewrite <-!app_assoc. done. }
  rewrite Hdata, Hpre', slice_middle.
  rewrite (proj2 (Nat.ltb_ge _ _)) by (rewrite !length_app; lia).
  do 2 f_equal. rewrite <-Hpre', !length_app. simpl. lia.
Qed.

(** The equations of the three mutually recursive functions. *)
Lemma _parse_value_S f data i :
  _parse_value (S f) data i
  = if length data <=? i then Raise UnexpectedEndValue
    else if at_is data i "i" then
      '(n, j) ← _parse_int data i; Done (BInt n, j)
    else if at_is data i "l" then
      '(l, j) ← list_loop f data (i + 1) []; Done (BList l, j)
    else if at_is data i "d" then
      '(d, j) ← dict_loop f data (i + 1) []; Done (BDict d, j)
    else if match data !! i with Some c => is_digit c | None => false end then
      '(s, j) ← _parse_bytestring data i; Done (BBytes s, j)
    else Raise InvalidPrefix.
Proof. done. Qed.

Lemma list_loop_S f data i result :
  list_loop (S f) data i result
  = if length data <=? i then Raise EndInsideList
    else if at_is data i "e" then Done (result, i + 1)
    else '(v, j) ← _parse_value f data i; list_loop f data j (result ++ [v]).
Proof. done. Qed.

Lemma dict_loop_S f data i result :
  dict_loop (S f) data i result
  = if length data <=? i then Raise EndInsideDict
    else if at_is data i "e" then Done (result, i + 1)
    else
      '(key, j) ← _parse_bytestring data i;
      '(value, k) ← _parse_value f data j;
      dict_loop f data k (dict_set result key value).
Proof. done. Qed.

Lemma encode_bytes_head (s : bytes) :
  ∃ c t, encode_bytes s = c :: t ∧ is_digit c = true.
Proof.
  unfold encode_bytes. rewrite str_nonneg by lia.
  destruct (str_nat_spec (Z.to_N (Z.of_nat (length s)))) as (Hdig & _ & Hne & _).
  destruct (str_nat _) as [|c t]; [done|].
  apply andb_true_iff in Hdig as [Hc _]. by eexists _, _.
Qed.

Lemma entry_Some d k v :
  dict_get d k = Some v → entry d k = encode_bytes k ++ encode v.
Proof. intros Hget. unfold entry. by rewrite Hget. Qed.

(** What the decoder makes of the encoding of [v]: a value equal to [v],
    the cursor after the encoding, for every budget of two units per
    byte. *)
Definition decodes_back (v : bvalue) : Prop :=
  ∃ v', py_eq v' v = true
        ∧ ∀ pre rest f, 2 * length (encode v) + 1 ≤ f →
            _parse_value f (pre ++ encode v ++ rest) (length pre)
            = Done (v', length pre + length (encode v)).

Lemma list_loop_encoded (l : list bvalue) :
  Forall decodes_back l →
  ∃ l', Forall2 (λ v' v, py_eq v' v = true) l' l
        ∧ ∀ pre rest result f,
            2 * length (concat (map encode l)) + 2 ≤ f →
            list_loop f (pre ++ concat (map encode l) ++ "e"%char :: rest)
                      (length pre) result
            = Done (result ++ l',
                    length pre + length (concat (map encode l)) + 1).
Proof.
  induction 1 as [|v l (v' & Heq & Hv) _ (l' & Hl' & IH)].
  - exists []. split; [constructor|]. intros pre rest result [|f] Hf; [lia|].
    rewrite list_loop_S. cbn [map concat app length].
    rewrite (proj2 (Nat.leb_gt _ _)) by (rewrite length_app; simpl; lia).
    rewrite at_is_middle, bool_decide_eq_true_2 by done.
    rewrite app_nil_r. do 2 f_equal. lia.
  - exists (v' :: l'). split; [by constructor|].
    intros pre rest result [|f] Hf; [lia|].
    cbn [map concat] in *. rewrite length_app in Hf.
    destruct (encode_head v) as (c & s & Hc & Hne).
    rewrite list_loop_S.
    rewrite (proj2 (Nat.leb_gt _ _)) by (rewrite !length_app, Hc; simpl; lia).
    rewrite <-app_assoc.
    rewrite (at_is_head _ _ _ _ _ _ Hc), bool_decide_eq_false_2 by done.
    rewrite Hv by lia. cbn [mbind outcome_bind].
    replace (length pre + length (encode v)) with (length (pre ++ encode v))
      by (by rewrite length_app).
    rewrite (app_assoc pre). rewrite IH by (rewrite Hc in Hf; simpl in Hf; lia).
    rewrite <-app_assoc. cbn [app]. do 2 f_equal. rewrite !length_app. lia.
Qed.

Lemma dict_loop_encoded (d : list (bytes * bvalue)) (keys : list bytes) :
  NoDup keys →
  Forall (λ k, ∃ v, dict_get d k = Some v ∧ decodes_back v) keys →
  ∃ d', map fst d' = keys
        ∧ Forall (λ kv', ∃ v, dict_get d kv'.1 = Some v ∧ py_eq kv'.2 v = true) d'
        ∧ ∀ pre rest result f,
            (∀ k, k ∈ keys → k ∉ map fst result) →
            2 * length (concat (map (entry d) keys)) + 2 ≤ f →
            dict_loop f (pre ++ concat (map (entry d) keys) ++ "e"%char :: rest)
                      (length pre) result
            = Done (result ++ d',
                    length pre + length (concat (map (entry d) keys)) + 1).
Proof.
  intros Hnd Hkeys. induction Hkeys as [|k keys (v & Hget & v' & Heq & Hv) _ IH].
  - exists []. split_and!; [done | constructor |].
    intros pre rest result [|f] _ Hf; [lia|].
    rewrite dict_loop_S. cbn [map concat app length].
    rewrite (proj2 (Nat.leb_gt _ _)) by (rewrite length_app; simpl; lia).
    rewrite at_is_middle, bool_decide_eq_true_2 by done.
    rewrite app_nil_r. do 2 f_equal. lia.
  - apply NoDup_cons in Hnd as [Hk Hnd].
    destruct (IH Hnd) as (d' & Hfst & Hd' & Hloop).
    exists ((k, v') :: d'). split_and!.
    + simpl. by rewrite Hfst.
    + constructor; [by exists v | done].
    + intros pre rest result [|f] Hfresh Hf; [lia|].
      cbn [map concat] in *. rewrite length_app in Hf.
      rewrite (entry_Some _ _ _ Hget) in Hf |- *. rewrite length_app in Hf.
      destruct (encode_bytes_head k) as (c & s & Hc & Hdigit).
      rewrite dict_loop_S.
      rewrite (proj2 (Nat.leb_gt _ _)) by (rewrite !length_app, Hc; simpl; lia).
      rewrite <-!app_assoc.
      rewrite (at_is_head _ _ _ _ _ _ Hc).
      rewrite bool_decide_eq_false_2
        by (apply is_digit_neq; [done | right; reflexivity]).
      rewrite _parse_bytestring_encoded. cbn [mbind outcome_bind].
      replace (length pre + length (encode_bytes k))
        with (length (pre ++ encode_bytes k)) by (by rewrite length_app).
      rewrite (app_assoc pre). rewrite Hv by lia. cbn [mbind outcome_bind].
      replace (length (pre ++ encode_bytes k) + length (encode v))
        with (length ((pre ++ encode_bytes k) ++ encode v))
        by (by rewrite (length_app _ (encode v))).
      rewrite (app_assoc (pre ++ encode_bytes k)).
      rewrite dict_set_fresh by (apply Hfresh; left).
      rewrite Hloop.
      * rewrite <-app_assoc. cbn [app]. do 2 f_equal. rewrite !length_app. lia.
      * intros k' Hk'. rewrite map_app. cbn [map fst].
        rewrite elem_of_app, list_elem_of_singleton.
        intros [Hin| ->]; [|done]. apply (Hfresh k'); [by right | done].
      * rewrite Hc in Hf. simpl in Hf. lia.
Qed.

Lemma decodes_back_all (v : bvalue) : wf v → decodes_back v.
Proof.
  induction v as [n|s|l IH|d IH] using bvalue_ind'; intros Hwf.
  - exists (BInt n). split; [apply Z.eqb_refl|].
    intros pre rest [|f] Hf; [lia|]. rewrite _parse_value_S.
    rewrite (proj2 (Nat.leb_gt _ _)) by (rewrite !length_app; simpl; lia).
    rewrite (at_is_head _ _ _ _ "i"%char (str n ++ b "e")), bool_decide_eq_true_2
      by done.
    by rewrite _parse_int_encoded.
  - exists (BBytes s). split; [by apply bool_decide_eq_true_2|].
    intros pre rest [|f] Hf; [lia|]. rewrite _parse_value_S. cbn [encode] in *.
    destruct (encode_bytes_head s) as (c & t & Hc & Hdigit).
    rewrite (proj2 (Nat.leb_gt _ _)) by (rewrite !length_app, Hc; simpl; lia).
    rewrite !(at_is_head _ _ _ _ _ _ Hc), (lookup_head _ _ _ _ _ Hc), Hdigit.
    rewrite !bool_decide_eq_false_2
      by (apply is_digit_neq; [done | right; reflexivity]).
    by rewrite _parse_bytestring_encoded.
  - apply wf_BList in Hwf.
    destruct (list_loop_encoded l) as (l' & Hl' & Hloop).
    { rewrite Forall_forall in IH, Hwf |- *. intros v Hv. by apply IH, Hwf. }
    exists (BList l'). split; [by apply py_eq_BList|].
    intros pre rest [|f] Hf; [lia|]. rewrite _parse_value_S, encode_BList in *.
    cbn [b list_ascii_of_string app] in *. rewrite <-!app_assoc. cbn [app].
    rewrite (proj2 (Nat.leb_gt _ _)) by (rewrite !length_app; simpl; lia).
    rewrite !at_is_middle.
    rewrite bool_decide_eq_false_2, bool_decide_eq_true_2 by done.
    replace (length pre + 1) with (length (pre ++ ["l"%char]))
      by (by rewrite length_app).
    rewrite (cons_middle "l"%char pre), (app_assoc pre).
    rewrite Hloop by (simpl in Hf; rewrite length_app in Hf; simpl in Hf; lia).
    cbn [mbind outcome_bind app]. do 2 f_equal.
    rewrite !length_app. simpl. rewrite length_app. simpl. lia.
  - apply wf_BDict in Hwf as [Hnd Hwf].
    assert (Hperm : bytes_sorted (map fst d) ≡ₚ map fst d)
      by apply SortedFacts.sorted_Permutation.
    destruct (dict_loop_encoded d (bytes_sorted (map fst d))) as (d' & Hfst & Hd' & Hloop).
    { by rewrite Hperm. }
    { apply Forall_forall. intros k Hk. rewrite Hperm in Hk.
      apply dict_get_is_Some in Hk as [v Hget]. exists v. split; [done|].
      apply dict_get_Some_elem in Hget.
      rewrite Forall_forall in IH, Hwf. by apply (IH (k, v)), (Hwf (k, v)). }
    exists (BDict d'). split.
    { apply py_eq_BDict. split; [|done].
      rewrite <-(length_map fst d'), Hfst, Hperm. by rewrite length_map. }
    intros pre rest [|f] Hf; [lia|]. rewrite _parse_value_S, encode_BDict in *.
    cbn [b list_ascii_of_string app] in *. rewrite <-!app_assoc. cbn [app].
    rewrite (proj2 (Nat.leb_gt _ _)) by (rewrite !length_app; simpl; lia).
    rewrite !at_is_middle.
    rewrite !bool_decide_eq_false_2, bool_decide_eq_true_2 by done.
    replace (length pre + 1) with (length (pre ++ ["d"%char]))
      by (by rewrite length_app).
    rewrite (cons_middle "d"%char pre), (app_assoc pre).
    rewrite Hloop.
    + cbn [mbind outcome_bind app]. do 2 f_equal.
      rewrite !length_app. simpl. rewrite length_app. simpl. lia.
    + intros k _. apply not_elem_of_nil.
    + simpl in Hf. rewrite length_app in Hf. simpl in Hf. lia.
Qed.

End DecodeFacts.

(** ** The decoder on any input *)

Module ParserFacts.
Import Py Bencode DictFacts StrFacts BvalueFacts DecodeFacts.

Lemma bind_Done {A B} (m : outcome A) (k : A → outcome B) (r : B) :
  m ≫= k = Done r → ∃ a, m = Done a ∧ k a = Done r.
Proof. destruct m as [a| |]; [|done..]. intros Hk. by exists a. Qed.

Lemma bind_settled {A B} (m : outcome A) (k : A → outcome B) :
  m ≫= k ≠ OutOfFuel ↔ m ≠ OutOfFuel ∧ ∀ a, m = Done a → k a ≠ OutOfFuel.
Proof.
  destruct m as [a| |]; simpl.
  - split; [intros Hk; split; [done | by intros ? [= <-]] | intros [_ Hk]; by apply Hk].
  - split; [by intros _; split | done].
  - split; [done | by intros [? _]].
Qed.

(** A method that returns has moved the cursor forward, within the input. *)
Lemma parse_int_Done data i z j :
  _parse_int data i = Done (z, j) → i < j ≤ length data.
Proof.
  unfold _parse_int. destruct (negb _); [done|].
  destruct (find "e" data (i + 1)) as [end_|] eqn:Hfind; [|done].
  apply find_Some in Hfind as (Hend & _).
  repeat (case_match; try done). intros [= _ <-]. lia.
Qed.

Lemma parse_bytestring_Done data i s j :
  _parse_bytestring data i = Done (s, j) → i < j ≤ length data.
Proof.
  unfold _parse_bytestring.
  destruct (find ":" data i) as [colon|] eqn:Hfind; [|done].
  apply find_Some in Hfind as (Hcolon & _).
  repeat (case_match; try done). intros [= _ <-].
  match goal with H : (_ <? _) = false |- _ => apply Nat.ltb_ge in H end. lia.
Qed.

Lemma parse_int_settled data i : _parse_int data i ≠ OutOfFuel.
Proof. unfold _parse_int. repeat (case_match; try done). Qed.

Lemma parse_bytestring_settled data i : _parse_bytestring data i ≠ OutOfFuel.
Proof. unfold _parse_bytestring. repeat (case_match; try done). Qed.

Lemma parse_progress (f : nat) :
  (∀ data i v j, _parse_value f data i = Done (v, j) → i < j ≤ length data)
  ∧ (∀ data i result l j,
       list_loop f data i result = Done (l, j) → i < j ≤ length data)
  ∧ (∀ data i result d j,
       dict_loop f data i result = Done (d, j) → i < j ≤ length data).
Proof.
  induction f as [|f (IHv & IHl & IHd)]; [done|]. split_and!.
  - intros data i v j. rewrite _parse_value_S.
    destruct (length data <=? i) eqn:Hlen; [done|]. apply Nat.leb_gt in Hlen.
    repeat (case_match; try done).
    + intros ([n j'] & Hint%parse_int_Done & [= <- <-])%bind_Done. lia.
    + intros ([l j'] & Hloop%IHl & [= <- <-])%bind_Done. lia.
    + intros ([d j'] & Hloop%IHd & [= <- <-])%bind_Done. lia.
    + intros ([s j'] & Hstr%parse_bytestring_Done & [= <- <-])%bind_Done. lia.
  - intros data i result l j. rewrite list_loop_S.
    destruct (length data <=? i) eqn:Hlen; [done|]. apply Nat.leb_gt in Hlen.
    destruct (at_is data i "e"); [intros [= <- <-]; lia|].
    intros ([v j'] & Hv%IHv & Hloop%IHl)%bind_Done. lia.
  - intros data i result d j. rewrite dict_loop_S.
    destruct (length data <=? i) eqn:Hlen; [done|]. apply Nat.leb_gt in Hlen.
    destruct (at_is data i "e"); [intros [= <- <-]; lia|].
    intros ([key j'] & Hkey%parse_bytestring_Done & Hrest)%bind_Done.
    apply bind_Done in Hrest as ([v k] & Hv%IHv & Hloop%IHd). lia.
Qed.

(** Two units of budget for each byte after the cursor are enough. *)
Lemma parse_settled (f : nat) :
  (∀ data i, 2 * (length data - i) + 1 ≤ f → _parse_value f data i ≠ OutOfFuel)
  ∧ (∀ data i result,
       2 * (length data - i) + 2 ≤ f → list_loop f data i result ≠ OutOfFuel)
  ∧ (∀ data i result,
       2 * (length data - i) + 2 ≤ f → dict_loop f data i result ≠ OutOfFuel).
Proof.
  induction f as [|f (IHv & IHl & IHd)]; [split_and!; intros; lia|].
  destruct (parse_progress f) as (Pv & Pl & Pd).
  split_and!.
  - intros data i Hf. rewrite _parse_value_S.
    destruct (length data <=? i) eqn:Hlen; [done|]. apply Nat.leb_gt in Hlen.
    repeat (case_match; try done); apply bind_settled.
    + split; [apply parse_int_settled | by intros []].
    + split; [apply IHl; lia | by intros []].
    + split; [apply IHd; lia | by intros []].
    + split; [apply parse_bytestring_settled | by intros []].
  - intros data i result Hf. rewrite list_loop_S.
    destruct (length data <=? i) eqn:Hlen; [done|]. apply Nat.leb_gt in Hlen.
    destruct (at_is data i "e"); [done|]. apply bind_settled.
    split; [apply IHv; lia|]. intros [v j] Hv%Pv. apply IHl. lia.
  - intros data i result Hf. rewrite dict_loop_S.
    destruct (length data <=? i) eqn:Hlen; [done|]. apply Nat.leb_gt in Hlen.
    destruct (at_is data i "e"); [done|]. apply bind_settled.
    split; [apply parse_bytestring_settled|].
    intros [key j] Hkey%parse_bytestring_Done. apply bind_settled.
    split; [apply IHv; lia|]. intros [v k] Hv%Pv. apply IHd. lia.
Qed.

(** [decode] never exhausts its budget: it returns a value or raises. *)
Lemma decode_settled (data : bytes) : decode data ≠ OutOfFuel.
Proof.
  unfold decode. apply bind_settled. split.
  - apply parse_settled. unfold budget. lia.
  - intros [v i] _. by destruct (negb _).
Qed.

(** What the decoder returns is a Python object: no key twice in a dict. *)
Lemma parse_wf (f : nat) :
  (∀ data i v j, _parse_value f data i = Done (v, j) → wf v)
  ∧ (∀ data i result l j,
       list_loop f data i result = Done (l, j) → Forall wf result → Forall wf l)
  ∧ (∀ data i result d j,
       dict_loop f data i result = Done (d, j) →
       wf (BDict result) → wf (BDict d)).
Proof.
  induction f as [|f (IHv & IHl & IHd)]; [done|]. split_and!.
  - intros data i v j. rewrite _parse_value_S.
    repeat (case_match; try done).
    + by intros ([n j'] & _ & [= <- <-])%bind_Done.
    + intros ([l j'] & Hloop%IHl & [= <- <-])%bind_Done; [|constructor].
      by apply wf_BList.
    + intros ([d j'] & Hloop%IHd & [= <- <-])%bind_Done; [done|].
      apply wf_BDict. split; constructor.
    + by intros ([s j'] & _ & [= <- <-])%bind_Done.
  - intros data i result l j. rewrite list_loop_S.
    destruct (length data <=? i); [done|].
    destruct (at_is data i "e"); [by intros [= <- <-]|].
    intros ([v j'] & Hv%IHv & Hloop)%bind_Done Hresult.
    apply (IHl _ _ _ _ _ Hloop). apply Forall_app. split; [done | by constructor].
  - intros data i result d j. rewrite dict_loop_S.
    destruct (length data <=? i); [done|].
    destruct (at_is data i "e"); [by intros [= <- <-]|].
    intros ([key j'] & _ & Hrest)%bind_Done Hresult.
    apply bind_Done in Hrest as ([v k] & Hv%IHv & Hloop).
    apply (IHd _ _ _ _ _ Hloop). apply wf_BDict in Hresult as [Hnd Hwf].
    apply wf_BDict. split; [by apply dict_set_NoDup | by apply dict_set_Forall].
Qed.

Lemma decode_wf (data : bytes) (v : bvalue) : decode data = Done v → wf v.
Proof.
  unfold decode. intros ([v' i] & Hv & Hend)%bind_Done.
  destruct (negb _); [done|]. injection Hend as <-.
  by eapply (proj1 (parse_wf _)).
Qed.

(** The round trip. *)
Lemma decode_encode (v : bvalue) :
  wf v → ∃ v', decode (encode v) = Done v' ∧ py_eq v' v = true.
Proof.
  intros (v' & Heq & Hparse)%decodes_back_all. exists v'. split; [|done].
  unfold decode, budget.
  specialize (Hparse [] [] (2 * length (encode v) + 1) ltac:(lia)).
  rewrite app_nil_r in Hparse. cbn [app length] in Hparse. rewrite Hparse.
  cbn [mbind outcome_bind]. by rewrite Nat.eqb_refl.
Qed.

End ParserFacts.

(** ** The canonical encoding *)

Module CanonicalFacts.
Import Py Bencode DictFacts SortedFacts BvalueFacts.

(** [x <= y] on [bytes]. *)
Definition bytes_le (x y : bytes) : Prop := bytes_ltb y x = false.

Lemma bytes_sorted_sorted (keys : list bytes) :
  StronglySorted bytes_le (bytes_sorted keys).
Proof.
  apply (sorted_StronglySorted bytes_ltb id);
    [apply bytes_ltb_asym | apply bytes_ltb_negtrans].
Qed.

(** Two dicts that are equal as maps have the same keys. *)
Lemma py_eq_keys (d d' : list (bytes * bvalue)) :
  NoDup (map fst d) → py_eq (BDict d) (BDict d') = true → map fst d ≡ₚ map fst d'.
Proof.
  intros Hnd [Hlen Hall]%py_eq_BDict.
  apply submseteq_length_Permutation; [|by rewrite !length_map, Hlen].
  apply NoDup_submseteq; [done|].
  intros k ([k' v] & -> & Hin)%list_elem_of_fmap.
  rewrite Forall_forall in Hall. destruct (Hall _ Hin) as (v' & Hget & _).
  apply dict_get_is_Some. by exists v'.
Qed.

(** Values that are equal have the same encoding. *)
Lemma encode_py_eq (v w : bvalue) :
  wf v → wf w → py_eq v w = true → encode v = encode w.
Proof.
  revert w. induction v as [n|s|l IH|d IH] using bvalue_ind';
    intros [m|t|l'|d'] Hv Hw Heq; try done.
  - apply Z.eqb_eq in Heq. by subst.
  - apply bool_decide_eq_true in Heq. by subst.
  - apply wf_BList in Hv, Hw. apply py_eq_BList in Heq.
    rewrite !encode_BList. do 3 f_equal.
    induction Heq as [|v v' l l' Hvv' _ IHl]; [done|].
    apply Forall_cons in IH as [IHv IH], Hv as [Hv Hl], Hw as [Hv' Hl'].
    simpl. f_equal; [by apply IHv | by apply IHl].
  - pose proof Hv as [Hnd Hwf]%wf_BDict. pose proof Hw as [Hnd' Hwf']%wf_BDict.
    pose proof (py_eq_keys d d' Hnd Heq) as Hkeys.
    apply py_eq_BDict in Heq as [_ Hall].
    rewrite !encode_BDict, (bytes_sorted_unique _ _ Hkeys). do 3 f_equal.
    apply list_fmap_ext. intros i k Hk%list_elem_of_lookup_2.
    unfold bytes_sorted in Hk. rewrite elem_of_sorted, <-Hkeys in Hk.
    apply dict_get_is_Some in Hk as [v Hget]. unfold entry. rewrite Hget.
    apply dict_get_Some_elem in Hget as Hin.
    rewrite Forall_forall in IH, Hwf, Hwf', Hall.
    destruct (Hall _ Hin) as (v' & Hget' & Hvv'). simpl in *. rewrite Hget'.
    simpl. f_equal. apply (IH _ Hin); [by apply (Hwf _ Hin) | | done].
    by apply (Hwf' (k, v')), dict_get_Some_elem.
Qed.

End CanonicalFacts.

Section Bencode.
Import Py Bencode TrackerHTTP BvalueFacts ParserFacts CanonicalFacts.

(** C3.  What the decoder returns is a value of the four kinds with no
    key twice in a dict; for every such value, decoding its encoding
    returns a value equal to it (Python's [==]: dicts compare as maps);
    and equal values have one and the same encoding. *)
Theorem bencode_roundtrip (data : bytes) (v w : bvalue) :
  (decode data = Done v → wf v)
  ∧ (wf v → ∃ v', decode (encode v) = Done v' ∧ py_eq v' v = true)
  ∧ (wf v → wf w → py_eq v w = true → encode v = encode w).
Proof.
  split_and!; [apply decode_wf | apply decode_encode | apply encode_py_eq].
Qed.

Definition sample_value : bvalue :=
  BDict [(b "foo", BInt 42);
         (b "bar", BList [BBytes (b "spam"); BInt (-7); BDict []])].

Lemma bencode_roundtrip_witness :
  wf sample_value
  ∧ ∃ v', decode (encode sample_value) = Done v' ∧ py_eq v' sample_value = true.
Proof.
  assert (Hdecoded : decode (b "d3:fooi42e3:barl4:spami-7edeee") = Done sample_value)
    by reflexivity.
  pose proof (bencode_roundtrip (b "d3:fooi42e3:barl4:spami-7edeee")
                sample_value sample_value) as (Hwf & Hround & _).
  split; [exact (Hwf Hdecoded) | exact (Hround (Hwf Hdecoded))].
Defined.

(** C4.  The encoding of a dict is [d], then for each key, in
    lexicographic byte order, the encoded key and the encoded value, then
    [e].  Hence two info dictionaries that are equal as maps, whatever
    the order their keys were decoded in, have the same info-hash. *)
Theorem canonical_encoding (sha1 : bytes → bytes) (d : list (bytes * bvalue))
    (info1 info2 : bvalue) :
  (let keys := bytes_sorted (map fst d) in
   encode (BDict d)
   = b "d"
     ++ concat (map (λ key, encode (BBytes key)
                            ++ default [] (encode <$> dict_get d key)) keys)
     ++ b "e"
   ∧ keys ≡ₚ map fst d
   ∧ StronglySorted bytes_le keys)
  ∧ (wf info1 → wf info2 → py_eq info1 info2 = true →
     calculate_info_hash sha1 info1 = calculate_info_hash sha1 info2).
Proof.
  split.
  - split_and!.
    + apply encode_BDict.
    + apply SortedFacts.sorted_Permutation.
    + apply bytes_sorted_sorted.
  - intros H1 H2 Heq. unfold calculate_info_hash. f_equal. by apply encode_py_eq.
Qed.

Definition info_one : bvalue :=
  BDict [(b "name", BBytes (b "a.txt")); (b "length", BInt 3);
         (b "piece length", BInt 16384)].

Definition info_two : bvalue :=
  BDict [(b "piece length", BInt 16384); (b "length", BInt 3);
         (b "name", BBytes (b "a.txt"))].

Lemma canonical_encoding_witness :
  decode (b "d4:name5:a.txt6:lengthi3e12:piece lengthi16384ee") = Done info_one
  ∧ decode (b "d12:piece lengthi16384e6:lengthi3e4:name5:a.txte") = Done info_two
  ∧ info_one ≠ info_two
  ∧ calculate_info_hash (take 20) info_one = calculate_info_hash (take 20) info_two.
Proof.
  split_and!; [reflexivity | reflexivity | discriminate |].
  apply (canonical_encoding (take 20) [] info_one info_two).
  - by apply (decode_wf (b "d4:name5:a.txt6:lengthi3e12:piece lengthi16384ee")).
  - by apply (decode_wf (b "d12:piece lengthi16384e6:lengthi3e4:name5:a.txte")).
  - reflexivity.
Defined.

End Bencode.

(** ** The errors of the decoder *)

Module ErrorFacts.
Import Py Bencode StrFacts DecodeFacts ParserFacts.










Lemma at_is_inj data i c c' : at_is data i c = true → c ≠ c' → at_is data i c' = false.
Proof.
  unfold at_is. intros Hc%bool_decide_eq_true Hne.
  apply bool_decide_eq_false_2. rewrite Hc. by intros [= ->].
Qed.

Lemma at_is_lt data i c : at_is data i c = true → i < length data.
Proof.
  unfold at_is. intros Hc%bool_decide_eq_true. by eapply lookup_lt_Some.
Qed.

(** The branches of [_parse_value] on [l] and [d] are the calls of
    [_parse_list] and [_parse_dict]: their own check of the prefix cannot
    fail there. *)
Lemma _parse_value_list f data i :
  at_is data i "l" = true → _parse_value (S f) data i = _parse_list f data i.
Proof.
  intros Hl. pose proof (at_is_lt _ _ _ Hl) as Hlt.
  cbn [_parse_value]. unfold _parse_list.
  rewrite (proj2 (Nat.leb_gt (length data) i)) by lia.
  rewrite (at_is_inj data i "l" "i" Hl) by done.
  by rewrite Hl.
Qed.

Lemma _parse_value_dict f data i :
  at_is data i "d" = true → _parse_value (S f) data i = _parse_dict f data i.
Proof.
  intros Hd. pose proof (at_is_lt _ _ _ Hd) as Hlt.
  cbn [_parse_value]. unfold _parse_dict.
  rewrite (proj2 (Nat.leb_gt (length data) i)) by lia.
  rewrite (at_is_inj data i "d" "i" Hd), (at_is_inj data i "d" "l" Hd) by done.
  by rewrite Hd.
Qed.









(** The unguarded [int(...)] of [_parse_bytestring] never raises: it is
    given digits only. *)
Lemma _parse_bytestring_no_ValueError data i :
  _parse_bytestring data i ≠ Raise UncaughtValueError.
Proof.
  unfold _parse_bytestring. destruct (find ":" data i) as [colon|]; [|done].
  set (len_bytes := slice data i colon).
  destruct (bool_decide (len_bytes = [])) eqn:Hnil; [done|].
  apply bool_decide_eq_false in Hnil.
  destruct (forallb is_digit len_bytes) eqn:Hdig; [|done]. cbn [negb].
  destruct (_ && _); [done|].
  assert (Hint : int len_bytes = Some (digits_val 0 len_bytes)).
  { unfold int. rewrite strip_id.
    - destruct len_bytes as [|c t] eqn:Hs; [done|].
      pose proof Hdig as [Hc _]%andb_true_iff.
      rewrite !bool_decide_eq_false_2
        by (apply is_digit_neq; [done | left; reflexivity]).
      by rewrite int_unsigned_all.
    - intros c Hc. apply is_digit_not_space.
      rewrite forallb_forall in Hdig. apply Hdig, list_elem_of_In.
      by apply head_Some_elem_of.
    - intros c Hc. apply is_digit_not_space.
      rewrite forallb_forall in Hdig. apply Hdig, list_elem_of_In.
      by apply last_Some_elem_of. }
  rewrite Hint. by destruct (_ <? _).
Qed.

End ErrorFacts.

Section DecoderErrors.
Import Py Bencode ParserFacts ErrorFacts.



(** The stated cases, one input each. *)
Example decoder_stated_errors :
  decode (b "i1ex") = Raise ExtraData
  ∧ decode (b "i03e") = Raise IntLeadingZeros
  ∧ decode (b "i-0e") = Raise NegativeZero
  ∧ decode (b "i-03e") = Raise InvalidNegative
  ∧ decode (b "03:abc") = Raise LengthLeadingZeros
  ∧ decode (b "5:abc") = Raise LengthExceedsData
  ∧ decode (b "li1e") = Raise EndInsideList
  ∧ decode (b "d1:ai1e") = Raise EndInsideDict.
Proof. split_and!; reflexivity. Qed.

(** Integer literals that the checks let through to [int]. *)
Example decoder_lenient_integers :
  decode (b "i 007e") = Done (BInt 7)
  ∧ decode (b "i+5e") = Done (BInt 5)
  ∧ decode (b "i1_0e") = Done (BInt 10)
  ∧ decode (b "i -0e") = Done (BInt 0).
Proof. split_and!; reflexivity. Qed.


End DecoderErrors.

(** ** The handshake and the messages of a download *)

Module ProtocolFacts.
Import Py PeerProtocol FramingFacts.

Lemma pack_be32_Some (n : Z) :
  (0 ≤ n < 2 ^ 32)%Z → ∃ p, pack_be32 n = Some p ∧ length p = 4 ∧ unpack_be p = n.
Proof.
  intros Hn. destruct (pack_be32 n) as [p|] eqn:Hp.
  - exists p. split; [done|]. split; [by eapply pack_length | by apply unpack_pack].
  - unfold pack_be32 in Hp.
    rewrite (proj2 (andb_true_iff _ _)) in Hp; [done|].
    split; [apply Z.leb_le | apply Z.ltb_lt]; lia.
Qed.

Lemma pack_be32_None (n : Z) : ¬ (0 ≤ n < 2 ^ 32)%Z → pack_be32 n = None.
Proof.
  intros Hn. unfold pack_be32.
  destruct ((0 <=? n) && (n <? 2 ^ 32))%Z eqn:Hrange; [|done].
  apply andb_true_iff in Hrange as [H0%Z.leb_le H1%Z.ltb_lt]. lia.
Qed.

Lemma unpack_be_bound (x : bytes) : (0 ≤ unpack_be x < 256 ^ Z.of_nat (length x))%Z.
Proof.
  unfold unpack_be.
  assert (Hgen : ∀ acc, (0 ≤ acc)%Z →
            (0 ≤ foldl (λ acc c, acc * 256 + Z.of_N (ord c)) acc x
             < (acc + 1) * 256 ^ Z.of_nat (length x))%Z).
  { induction x as [|c x IH]; intros acc Hacc; cbn [foldl length]; [simpl; lia|].
    pose proof (N_ascii_bounded c) as Hc. change (N_of_ascii c) with (ord c) in Hc.
    specialize (IH (acc * 256 + Z.of_N (ord c))%Z ltac:(lia)).
    split; [lia|]. eapply Z.lt_le_trans; [apply IH|].
    rewrite Nat2Z.inj_succ, Z.pow_succ_r by lia.
    assert (0 < 256 ^ Z.of_nat (length x))%Z by (apply Z.pow_pos_nonneg; lia).
    nia. }
  specialize (Hgen 0%Z ltac:(lia)). lia.
Qed.

Lemma create_message_Some (id : ascii) (payload : bytes) :
  (1 + Z.of_nat (length payload) < 2 ^ 32)%Z →
  ∃ p, pack_be32 (1 + Z.of_nat (length payload)) = Some p
       ∧ create_message (Z.of_N (ord id)) payload = Some (p ++ id :: payload).
Proof.
  intros Hlen. destruct (wire_message id payload Hlen) as (p & Hp & Hwire).
  exists p. split; [done|]. unfold wire in Hwire.
  unfold create_message in *. rewrite Hp in *. simpl in *.
  unfold bytes_of_int in *. pose proof (N_ascii_bounded id) as Hid.
  rewrite (proj2 (andb_true_iff _ _)) in *
    by (unfold ord; split; [apply Z.leb_le | apply Z.ltb_lt]; lia).
  simpl in *. by rewrite Hwire.
Qed.

Lemma elem_of_concat {A} (x : A) (ls : list (list A)) :
  x ∈ concat ls ↔ ∃ l, x ∈ l ∧ l ∈ ls.
Proof.
  rewrite list_elem_of_In, in_concat. split.
  - intros (l & Hl & Hx). exists l. by rewrite !list_elem_of_In.
  - intros (l & Hx & Hl). exists l. by rewrite <-!list_elem_of_In.
Qed.

(** A bit of a byte, as the mask [1 << (7 - bit_index)] selects it. *)
Lemma bit_set (byte : ascii) (bit : nat) :
  bit < 8 →
  negb (Z.land (Z.of_N (ord byte)) (Z.shiftl 1 (7 - Z.of_nat bit)) =? 0)%Z = true
  ↔ Z.testbit (Z.of_N (ord byte)) (7 - Z.of_nat bit) = true.
Proof.
  intros Hbit. rewrite negb_true_iff, Z.eqb_neq.
  set (k := (7 - Z.of_nat bit)%Z). assert (0 ≤ k)%Z by lia.
  set (x := Z.of_N (ord byte)). split.
  - intros Hne. destruct (Z.testbit x k) eqn:Hk; [done|]. exfalso. apply Hne.
    apply Z.bits_inj'. intros n Hn. rewrite Z.land_spec, Z.bits_0, Z.shiftl_spec by lia.
    destruct (decide (n = k)) as [->|Hnk]; [by rewrite Hk|].
    destruct (Z.lt_ge_cases n k).
    + rewrite (Z.testbit_neg_r 1 (n - k)) by lia. apply andb_false_r.
    + rewrite (Z.bits_above_log2 1 (n - k)) by (simpl; lia). apply andb_false_r.
  - intros Hk Hzero. apply (f_equal (λ z, Z.testbit z k)) in Hzero.
    rewrite Z.land_spec, Z.bits_0, Z.shiftl_spec, Hk, Z.sub_diag in Hzero by lia.
    done.
Qed.

Ltac case_bit :=
  match goal with
  | H : context [negb ?c] |- _ => destruct (negb c) eqn:?
  | |- context [negb ?c] => destruct (negb c) eqn:?
  end.

Definition bit_row (byte_index : nat) (byte : ascii) : list nat :=
  omap (λ bit_index,
          if negb (Z.land (Z.of_N (ord byte))
                          (Z.shiftl 1 (7 - Z.of_nat bit_index)) =? 0)%Z
          then Some (byte_index * 8 + bit_index) else None)
       (seq 0 8).

Lemma bit_row_range byte_index byte i :
  i ∈ bit_row byte_index byte → byte_index * 8 ≤ i < byte_index * 8 + 8.
Proof.
  intros (bit & Hbit%elem_of_seq & Hset)%list_elem_of_omap.
  case_bit; [|done]. injection Hset as <-. lia.
Qed.

Lemma bit_row_sorted byte_index byte : StronglySorted lt (bit_row byte_index byte).
Proof.
  unfold bit_row.
  assert (Hgen : ∀ n start, StronglySorted lt
            (omap (λ bit_index,
                     if negb (Z.land (Z.of_N (ord byte))
                                (Z.shiftl 1 (7 - Z.of_nat bit_index)) =? 0)%Z
                     then Some (byte_index * 8 + bit_index) else None)
                  (seq start n))); [|apply Hgen].
  induction n as [|n IH]; intros start; [constructor|]. cbn [seq omap list_omap].
  case_bit; [|apply IH]. constructor; [apply IH|].
  apply Forall_forall. intros i (bit & Hbit%elem_of_seq & Hset)%list_elem_of_omap.
  case_bit; [|done]. injection Hset as <-. lia.
Qed.

Lemma bitfield_sorted (payload : bytes) : StronglySorted lt (parse_bitfield payload).
Proof.
  unfold parse_bitfield. fold bit_row.
  change (λ byte_index byte, bit_row byte_index byte) with bit_row.
  assert (Hgen : ∀ k, StronglySorted lt
            (concat (imap (λ j byte, bit_row (k + j) byte) payload))
          ∧ Forall (λ i, k * 8 ≤ i)
               (concat (imap (λ j byte, bit_row (k + j) byte) payload))).
  { induction payload as [|byte payload IH]; intros k.
    { split; constructor. }
    cbn [imap concat]. destruct (IH (S k)) as [Hsorted Hlow].
    rewrite (imap_ext _ (λ j byte, bit_row (S k + j) byte))
      by (intros; simpl; f_equal; lia).
    split.
    - apply StronglySorted_app. split_and!; [|apply bit_row_sorted | done].
      intros x y Hx%bit_row_range Hy. rewrite Forall_forall in Hlow.
      specialize (Hlow y Hy). lia.
    - apply Forall_app. split.
      + apply Forall_forall. intros i Hi%bit_row_range. lia.
      + eapply Forall_impl; [exact Hlow|]. simpl. lia. }
  apply (Hgen 0).
Qed.

End ProtocolFacts.

Section Protocol.
Import Py PeerProtocol FramingFacts ProtocolFacts.

(** X1.  A generated peer id has 20 bytes.  With an info-hash and a peer
    id of 20 bytes each, the handshake has 68 bytes, and parsing it, with
    anything after it, gives back the info-hash and the peer id. *)
Theorem handshake_roundtrip (our_info_hash our_peer_id rest : bytes)
    (randint : nat → ascii) :
  length (TrackerHTTP.generate_peer_id randint) = 20
  ∧ (length our_info_hash = 20 → length our_peer_id = 20 →
     length (create_handshake our_info_hash our_peer_id) = 68
     ∧ parse_handshake (create_handshake our_info_hash our_peer_id ++ rest)
       = inr {| info_hash := our_info_hash; peer_id := our_peer_id |}).
Proof.
  split; [reflexivity|]. intros Hh Hp.
  assert (Hlen : length (create_handshake our_info_hash our_peer_id) = 68).
  { unfold create_handshake. rewrite !length_app, Hh, Hp. reflexivity. }
  split; [done|]. unfold parse_handshake.
  rewrite length_app, Hlen.
  replace (68 + length rest <? 68) with false by (symmetry; apply Nat.ltb_ge; lia).
  unfold create_handshake, slice. rewrite <-!app_assoc.
  set (tail := our_info_hash ++ our_peer_id ++ rest). simpl.
  unfold tail. rewrite drop_0, (take_app_length' our_info_hash) by done.
  rewrite (drop_app_length' our_info_hash) by done.
  by rewrite (take_app_length' our_peer_id).
Qed.

Lemma handshake_roundtrip_witness :
  parse_handshake (create_handshake (replicate 20 "h"%char)
                     (TrackerHTTP.generate_peer_id (λ _, "r"%char)) ++ b "tail")
  = inr {| info_hash := replicate 20 "h"%char;
           peer_id := TrackerHTTP.generate_peer_id (λ _, "r"%char) |}.
Proof.
  exact (proj2 (proj2 (handshake_roundtrip (replicate 20 "h"%char)
                         (TrackerHTTP.generate_peer_id (λ _, "r"%char)) (b "tail")
                         (λ _, "r"%char)) eq_refl eq_refl)).
Defined.

(** X2.  [create_request] succeeds exactly when the three numbers fit in 32
    bits.  The message has 17 bytes; [parse_message] reads it, with
    anything after it, as message 6 with a payload of 12 bytes that holds
    the three numbers, and consumes the 17 bytes. *)
Theorem request_roundtrip (piece_index begin length : Z) (rest : bytes) :
  (is_Some (create_request piece_index begin length)
   ↔ (0 ≤ piece_index < 2 ^ 32)%Z ∧ (0 ≤ begin < 2 ^ 32)%Z ∧ (0 ≤ length < 2 ^ 32)%Z)
  ∧ ∀ request, create_request piece_index begin length = Some request →
      List.length request = 17
      ∧ ∃ payload,
          parse_message (request ++ rest) = (Some MSG_REQUEST, Some payload, 17)
          ∧ List.length payload = 12
          ∧ unpack_be (slice payload 0 4) = piece_index
          ∧ unpack_be (slice payload 4 8) = begin
          ∧ unpack_be (slice payload 8 12) = length.
Proof.
  assert (Hrange : is_Some (create_request piece_index begin length) →
            (0 ≤ piece_index < 2 ^ 32)%Z ∧ (0 ≤ begin < 2 ^ 32)%Z
            ∧ (0 ≤ length < 2 ^ 32)%Z).
  { intros [request Hreq]. unfold create_request, pack_be32_3 in Hreq.
    destruct (decide (0 ≤ piece_index < 2 ^ 32)%Z) as [?|Hn];
      [|by rewrite (pack_be32_None _ Hn) in Hreq].
    destruct (decide (0 ≤ begin < 2 ^ 32)%Z) as [?|Hn];
      [|rewrite (pack_be32_None _ Hn) in Hreq;
        by destruct (pack_be32 piece_index)].
    destruct (decide (0 ≤ length < 2 ^ 32)%Z) as [?|Hn]; [done|].
    rewrite (pack_be32_None _ Hn) in Hreq.
    by destruct (pack_be32 piece_index), (pack_be32 begin). }
  assert (Hbuild : (0 ≤ piece_index < 2 ^ 32)%Z → (0 ≤ begin < 2 ^ 32)%Z →
            (0 ≤ length < 2 ^ 32)%Z →
            ∃ px py pz p,
              List.length px = 4 ∧ List.length py = 4 ∧ List.length pz = 4
              ∧ unpack_be px = piece_index ∧ unpack_be py = begin
              ∧ unpack_be pz = length
              ∧ pack_be32 13 = Some p
              ∧ create_request piece_index begin length
                = Some (p ++ "006"%char :: (px ++ py ++ pz))).
  { intros Hi Hb Hl.
    destruct (pack_be32_Some _ Hi) as (px & Hpx & Hlx & Hux).
    destruct (pack_be32_Some _ Hb) as (py & Hpy & Hly & Huy).
    destruct (pack_be32_Some _ Hl) as (pz & Hpz & Hlz & Huz).
    exists px, py, pz.
    destruct (create_message_Some "006"%char (px ++ py ++ pz)) as (p & Hp & Hmsg).
    { rewrite !length_app, Hlx, Hly, Hlz. simpl. lia. }
    exists p. split_and!; try done.
    - rewrite <-Hp. f_equal. rewrite !length_app, Hlx, Hly, Hlz. reflexivity.
    - unfold create_request, pack_be32_3. rewrite Hpx, Hpy, Hpz. simpl. exact Hmsg. }
  split.
  - split; [exact Hrange|]. intros (Hi & Hb & Hl).
    destruct (Hbuild Hi Hb Hl) as (px & py & pz & p & _ & _ & _ & _ & _ & _ & _ & ->).
    by eexists.
  - intros request Hreq.
    destruct (Hrange (mk_is_Some _ _ Hreq)) as (Hi & Hb & Hl).
    destruct (Hbuild Hi Hb Hl)
      as (px & py & pz & p & Hlx & Hly & Hlz & Hux & Huy & Huz & Hp & Hmsg).
    rewrite Hmsg in Hreq. injection Hreq as <-.
    pose proof (pack_length _ _ Hp) as Hlp.
    assert (Hpl : List.length (px ++ py ++ pz) = 12)
      by (rewrite !length_app; lia).
    split; [rewrite length_app; simpl; rewrite Hpl; lia|].
    exists (px ++ py ++ pz).
    pose proof (parse_message_wire (Message "006"%char (px ++ py ++ pz)) rest) as Hparse.
    assert (Hwire : wire (Message "006"%char (px ++ py ++ pz))
                    = p ++ "006"%char :: (px ++ py ++ pz)).
    { destruct (wire_message "006"%char (px ++ py ++ pz)) as (p' & Hp' & ->).
      - simpl. rewrite Hpl. lia.
      - rewrite Hpl in Hp'. change (1 + Z.of_nat 12)%Z with 13%Z in Hp'.
        rewrite Hp in Hp'. by injection Hp' as <-. }
    rewrite Hwire in Hparse. rewrite Hparse by (simpl; rewrite Hpl; lia).
    split_and!.
    + simpl. do 2 f_equal. rewrite length_app. simpl. rewrite Hpl. lia.
    + done.
    + rewrite slice_0, take_app_length'; done.
    + unfold slice. rewrite (drop_app_length' px) by done.
      cbn [Nat.sub]. by rewrite take_app_length'.
    + unfold slice. rewrite app_assoc.
      rewrite (drop_app_length' (px ++ py)) by (rewrite length_app; lia).
      cbn [Nat.sub]. by rewrite take_ge by lia.
Qed.

Lemma request_roundtrip_witness :
  ∃ request, create_request 3 16384 16384 = Some request ∧ List.length request = 17.
Proof.
  eexists. split; [reflexivity|].
  exact (proj1 (proj2 (request_roundtrip 3 16384 16384 []) _ eq_refl)).
Defined.

(** X3.  [parse_piece_message] fails exactly on a payload of fewer than 8
    bytes.  Otherwise the block is the payload without its first 8 bytes,
    and the index and the offset are the numbers of 32 bits that those
    bytes hold, whatever the block is: the payload made of an index, an
    offset and a block is read as these three. *)
Theorem piece_message_fields (payload block_data : bytes) (piece_index offset : Z) :
  (parse_piece_message payload = None ↔ length payload < 8)
  ∧ (∀ m, parse_piece_message payload = Some m →
          (0 ≤ index m < 2 ^ 32)%Z ∧ (0 ≤ begin m < 2 ^ 32)%Z
          ∧ block m = drop 8 payload
          ∧ length (block m) = length payload - 8)
  ∧ (∀ pi po, pack_be32 piece_index = Some pi → pack_be32 offset = Some po →
        parse_piece_message (pi ++ po ++ block_data)
        = Some {| index := piece_index; begin := offset; block := block_data |}).
Proof.
  split_and!.
  - unfold parse_piece_message. rewrite slice_0, length_take.
    destruct (Nat.lt_ge_cases (length payload) 8) as [Hlt|Hge].
    + rewrite (proj2 (Nat.eqb_neq _ 8)) by lia. done.
    + rewrite (proj2 (Nat.eqb_eq _ 8)) by lia. simpl. split; [done | lia].
  - intros m. unfold parse_piece_message. rewrite slice_0, length_take.
    destruct (8 `min` length payload =? 8) eqn:Hlen; [|done].
    apply Nat.eqb_eq in Hlen. simpl. intros [= <-]. simpl.
    split; [|split; [|split]]; [| |done|].
    + pose proof (unpack_be_bound (slice (take 8 payload) 0 4)) as Hb.
      rewrite slice_0, length_take, length_take in Hb.
      rewrite slice_0.
      replace (4 `min` (8 `min` length payload)) with 4 in Hb by lia.
      change (256 ^ Z.of_nat 4)%Z with (2 ^ 32)%Z in Hb. done.
    + pose proof (unpack_be_bound (slice (take 8 payload) 4 8)) as Hb.
      unfold slice in *. rewrite length_take, length_drop, length_take in Hb.
      replace ((8 - 4) `min` (8 `min` length payload - 4)) with 4 in Hb by lia.
      change (256 ^ Z.of_nat 4)%Z with (2 ^ 32)%Z in Hb. done.
    + by rewrite length_drop.
  - intros pi po Hpi Hpo.
    pose proof (pack_length _ _ Hpi) as Hli. pose proof (pack_length _ _ Hpo) as Hlo.
    unfold parse_piece_message. rewrite slice_0.
    rewrite app_assoc.
    rewrite take_app_length' by (rewrite length_app; lia).
    rewrite length_app, Hli, Hlo. simpl.
    rewrite slice_0, take_app_length' by done.
    unfold slice. rewrite (drop_app_length' pi) by done.
    cbn [Nat.sub]. rewrite take_ge by lia.
    rewrite (unpack_pack _ _ Hpi), (unpack_pack _ _ Hpo).
    by rewrite (drop_app_length' (pi ++ po)) by (rewrite length_app; lia).
Qed.

Lemma piece_message_fields_witness :
  parse_piece_message (replicate 4 zero ++ [zero; zero; "@"%char; zero] ++ b "block")
  = Some {| index := 0; begin := 16384; block := b "block" |}.
Proof.
  exact (proj2 (proj2 (piece_message_fields [] (b "block") 0 16384))
           _ _ eq_refl eq_refl).
Defined.

(** X4.  [parse_bitfield] lists piece [i] exactly when the payload has a
    byte [i / 8] and the bit of that byte for [i mod 8], counted from the
    most significant one, is set; the pieces come in increasing order,
    each once. *)
Theorem parse_bitfield_pieces (payload : bytes) (i : nat) :
  (i ∈ parse_bitfield payload
   ↔ ∃ byte, payload !! (i / 8) = Some byte
             ∧ Z.testbit (Z.of_N (ord byte)) (7 - Z.of_nat (i mod 8)) = true)
  ∧ StronglySorted lt (parse_bitfield payload).
Proof.
  split.
  - unfold parse_bitfield. rewrite elem_of_concat. split.
    + intros (row & Hi & (j & byte & -> & Hbyte)%elem_of_lookup_imap).
      apply list_elem_of_omap in Hi as (bit & Hbit%elem_of_seq & Hset).
      destruct (negb _) eqn:Hland in Hset; [|done]. injection Hset as <-.
      rewrite Nat.div_add_l, Nat.div_small, Nat.add_0_r by lia.
      exists byte. split; [done|].
      rewrite Nat.Div0.add_mod, Nat.Div0.mod_mul, Nat.add_0_l,
        Nat.Div0.mod_mod, Nat.mod_small by lia.
      apply bit_set; [lia | done].
    + intros (byte & Hbyte & Hset). eexists. split; [|apply elem_of_lookup_imap; eauto].
      apply list_elem_of_omap. exists (i mod 8). split.
      * apply elem_of_seq. pose proof (Nat.mod_upper_bound i 8). lia.
      * apply bit_set in Hset; [|pose proof (Nat.mod_upper_bound i 8); lia].
        rewrite Hset. f_equal. pose proof (Nat.div_mod_eq i 8). lia.
  - apply bitfield_sorted.
Qed.

End Protocol.

(** ** More on the encoder and the decoder *)

Module EqualityFacts.
Import Py Bencode DictFacts BvalueFacts CanonicalFacts.

Lemma py_eq_trans (u v w : bvalue) :
  py_eq u v = true → py_eq v w = true → py_eq u w = true.
Proof.
  revert v w. induction u as [n|s|l IH|d IH] using bvalue_ind';
    intros [n1|s1|l1|d1] [n2|s2|l2|d2] Huv Hvw; try done.
  - apply Z.eqb_eq in Huv, Hvw. apply Z.eqb_eq. congruence.
  - apply bool_decide_eq_true in Huv, Hvw. apply bool_decide_eq_true. congruence.
  - apply py_eq_BList in Huv, Hvw. apply py_eq_BList.
    revert l2 Hvw. induction Huv as [|x y l l1 Hxy _ IHl]; intros l2 Hvw.
    + inv Hvw. constructor.
    + inv Hvw. apply Forall_cons in IH as [IHx IH].
      constructor; [by eapply IHx | by apply IHl].
  - apply py_eq_BDict in Huv as [Hlen Huv], Hvw as [Hlen' Hvw].
    apply py_eq_BDict. split; [congruence|].
    rewrite Forall_forall in IH, Huv, Hvw |- *. intros [k x] Hin.
    destruct (Huv _ Hin) as (y & Hy & Hxy). simpl in *.
    destruct (Hvw _ (dict_get_Some_elem _ _ _ Hy)) as (z & Hz & Hyz). simpl in *.
    exists z. split; [done|]. by apply (IH _ Hin y z).
Qed.

Lemma py_eq_sym (v w : bvalue) :
  wf v → wf w → py_eq v w = true → py_eq w v = true.
Proof.
  revert w. induction v as [n|s|l IH|d IH] using bvalue_ind';
    intros [n1|s1|l1|d1] Hv Hw Heq; try done.
  - apply Z.eqb_eq in Heq. apply Z.eqb_eq. done.
  - apply bool_decide_eq_true in Heq. by apply bool_decide_eq_true.
  - apply wf_BList in Hv, Hw. apply py_eq_BList in Heq. apply py_eq_BList.
    induction Heq as [|x y l l1 Hxy _ IHl]; [constructor|].
    apply Forall_cons in IH as [IHx IH], Hv as [Hx Hv], Hw as [Hy Hw].
    constructor; [by apply IHx | by apply IHl].
  - pose proof (py_eq_keys d d1 (proj1 (proj1 (wf_BDict d) Hv)) Heq) as Hkeys.
    apply wf_BDict in Hv as [Hnd Hv], Hw as [Hnd1 Hw].
    apply py_eq_BDict in Heq as [Hlen Heq]. apply py_eq_BDict. split; [done|].
    rewrite Forall_forall in IH, Heq, Hv, Hw |- *. intros [k y] Hin. simpl.
    assert (Hk : k ∈ map fst d).
    { rewrite Hkeys. apply list_elem_of_fmap. by exists (k, y). }
    apply dict_get_is_Some in Hk as [x Hx]. exists x. split; [done|].
    apply dict_get_Some_elem in Hx as Hxin.
    destruct (Heq _ Hxin) as (y' & Hy' & Hxy). simpl in *.
    rewrite (dict_get_NoDup _ _ _ Hnd1 Hin) in Hy'. injection Hy' as <-.
    apply (IH _ Hxin); [by apply (Hv _ Hxin) | by apply (Hw _ Hin) | done].
Qed.

End EqualityFacts.

Module AppendFacts.
Import Py Bencode StrFacts DecodeFacts ParserFacts.

Lemma find_from_app_l (c : ascii) (l extra : bytes) (pos j : nat) :
  find_from c l pos = Some j → find_from c (l ++ extra) pos = Some j.
Proof.
  revert pos. induction l as [|x l IH]; intros pos; simpl; [done|].
  case_bool_decide; [done | apply IH].
Qed.

Lemma find_app_l (c : ascii) (data extra : bytes) (i j : nat) :
  find c data i = Some j → find c (data ++ extra) i = Some j.
Proof.
  unfold find. intros Hfind.
  destruct (Nat.le_gt_cases i (length data)) as [Hle|Hgt].
  - rewrite drop_app_le by done. by apply find_from_app_l.
  - by rewrite drop_ge in Hfind by lia.
Qed.

Lemma slice_app_l {A} (x y : list A) (lo hi : nat) :
  hi ≤ length x → slice (x ++ y) lo hi = slice x lo hi.
Proof.
  intros Hhi. unfold slice.
  destruct (Nat.le_gt_cases lo (length x)) as [Hle|Hgt].
  - rewrite drop_app_le by done. apply take_app_le. rewrite length_drop. lia.
  - replace (hi - lo) with 0 by lia. done.
Qed.

Lemma at_is_app_l (data extra : bytes) (i : nat) (c : ascii) :
  i < length data → at_is (data ++ extra) i c = at_is data i c.
Proof. intros Hi. unfold at_is. by rewrite lookup_app_l. Qed.

Lemma parse_int_app data extra i r :
  _parse_int data i = Done r → _parse_int (data ++ extra) i = Done r.
Proof.
  unfold _parse_int. destruct (at_is data i "i") eqn:Hi; [|done].
  rewrite at_is_app_l, Hi by (by eapply ErrorFacts.at_is_lt). cbn [negb].
  destruct (find "e" data (i + 1)) as [end_|] eqn:Hfind; [|done].
  rewrite (find_app_l _ _ _ _ _ Hfind). apply find_Some in Hfind as (Hend & _).
  by rewrite slice_app_l by lia.
Qed.

Lemma parse_bytestring_app data extra i r :
  _parse_bytestring data i = Done r → _parse_bytestring (data ++ extra) i = Done r.
Proof.
  unfold _parse_bytestring.
  destruct (find ":" data i) as [colon|] eqn:Hfind; [|done].
  rewrite (find_app_l _ _ _ _ _ Hfind). apply find_Some in Hfind as (Hcolon & _).
  rewrite slice_app_l by lia.
  repeat (case_match; try done);
    repeat match goal with
           | H : (_ <? _) = false |- _ => apply Nat.ltb_ge in H
           | H : (_ <? _) = true |- _ => apply Nat.ltb_lt in H
           end.
  - rewrite length_app in *. lia.
  - by rewrite slice_app_l by lia.
Qed.

(** A parse that returns stands when bytes are appended to the input,
    and with any larger budget. *)
Lemma parse_app (f : nat) :
  (∀ data extra i r f', f ≤ f' →
     _parse_value f data i = Done r → _parse_value f' (data ++ extra) i = Done r)
  ∧ (∀ data extra i result r f', f ≤ f' →
       list_loop f data i result = Done r →
       list_loop f' (data ++ extra) i result = Done r)
  ∧ (∀ data extra i result r f', f ≤ f' →
       dict_loop f data i result = Done r →
       dict_loop f' (data ++ extra) i result = Done r).
Proof.
  induction f as [|f (IHv & IHl & IHd)]; [done|]. split_and!.
  - intros data extra i r [|f'] Hf; [lia|]. rewrite !_parse_value_S.
    destruct (length data <=? i) eqn:Hlen; [done|]. apply Nat.leb_gt in Hlen.
    rewrite (proj2 (Nat.leb_gt _ _)) by (rewrite length_app; lia).
    rewrite !at_is_app_l, lookup_app_l by done.
    repeat (case_match; try done).
    + intros ([n j] & Hint & Hr)%bind_Done. by rewrite (parse_int_app _ _ _ _ Hint).
    + intros ([l j] & Hloop & Hr)%bind_Done.
      by rewrite (IHl _ extra _ _ _ f' ltac:(lia) Hloop).
    + intros ([d j] & Hloop & Hr)%bind_Done.
      by rewrite (IHd _ extra _ _ _ f' ltac:(lia) Hloop).
    + intros ([s j] & Hstr & Hr)%bind_Done.
      by rewrite (parse_bytestring_app _ _ _ _ Hstr).
  - intros data extra i result r [|f'] Hf; [lia|]. rewrite !list_loop_S.
    destruct (length data <=? i) eqn:Hlen; [done|]. apply Nat.leb_gt in Hlen.
    rewrite (proj2 (Nat.leb_gt _ _)) by (rewrite length_app; lia).
    rewrite at_is_app_l by done.
    destruct (at_is data i "e"); [done|].
    intros ([v j] & Hv & Hloop)%bind_Done.
    rewrite (IHv _ extra _ _ f' ltac:(lia) Hv). cbn [mbind outcome_bind].
    by apply IHl; [lia|].
  - intros data extra i result r [|f'] Hf; [lia|]. rewrite !dict_loop_S.
    destruct (length data <=? i) eqn:Hlen; [done|]. apply Nat.leb_gt in Hlen.
    rewrite (proj2 (Nat.leb_gt _ _)) by (rewrite length_app; lia).
    rewrite at_is_app_l by done.
    destruct (at_is data i "e"); [done|].
    intros ([key j] & Hkey & Hrest)%bind_Done.
    apply bind_Done in Hrest as ([v k] & Hv & Hloop).
    rewrite (parse_bytestring_app _ extra _ _ Hkey). cbn [mbind outcome_bind].
    rewrite (IHv _ extra _ _ f' ltac:(lia) Hv). cbn [mbind outcome_bind].
    by apply IHd; [lia|].
Qed.

End AppendFacts.

Section BencodeMore.
Import Py Bencode TorrentMeta BvalueFacts ParserFacts CanonicalFacts EqualityFacts
  AppendFacts.

(** X5.  The encoder loses nothing: two values with the same encoding are
    equal under [==]. *)
Theorem encode_injective (v w : bvalue) :
  wf v → wf w → encode v = encode w → py_eq v w = true.
Proof.
  intros Hv Hw Henc.
  destruct (decode_encode v Hv) as (v' & Hdec & Hv').
  destruct (decode_encode w Hw) as (w' & Hdec' & Hw').
  rewrite Henc, Hdec' in Hdec. injection Hdec as <-.
  apply (py_eq_trans v w' w); [|done].
  apply py_eq_sym; [by eapply decode_wf | done | done].
Qed.

Lemma encode_injective_witness :
  py_eq (BDict [(b "a", BInt 1); (b "b", BList [])])
        (BDict [(b "b", BList []); (b "a", BInt 1)]) = true.
Proof.
  apply encode_injective.
  - by apply (decode_wf (b "d1:ai1e1:blee")).
  - by apply (decode_wf (b "d1:ble1:ai1ee")).
  - reflexivity.
Defined.

(** X6.  A value that decodes is delimited by its own bytes: when [data]
    decodes, [data] followed by one byte or more is refused for its extra
    data, so no encoding of a value begins another one. *)
Theorem decode_self_delimiting (data extra : bytes) (v : bvalue) :
  decode data = Done v → extra ≠ [] → decode (data ++ extra) = Raise ExtraData.
Proof.
  unfold decode. intros ([v' i] & Hv & Hend)%bind_Done Hextra.
  destruct (i =? length data) eqn:Hi; [|done]. apply Nat.eqb_eq in Hi.
  rewrite (proj1 (parse_app (budget data)) data extra 0 (v', i) (budget (data ++ extra)))
    by (done || unfold budget; rewrite length_app; lia).
  cbn [mbind outcome_bind].
  rewrite (proj2 (Nat.eqb_neq _ _)); [done|].
  rewrite length_app. destruct extra; [done|]. simpl. lia.
Qed.

Lemma decode_self_delimiting_witness :
  decode (b "i42e" ++ b "e") = Raise ExtraData.
Proof.
  apply (decode_self_delimiting (b "i42e") (b "e") (BInt 42)); [reflexivity | done].
Defined.

(** X7.  [load_torrent] gives the dictionary that the bytes decode to, the
    error of the decoder when they do not decode, and [ValueError] when
    they decode to something else.  So the encoding of a dictionary loads
    as an equal dictionary, and the encoding of an integer, a byte string
    or a list is refused. *)
Theorem load_torrent_cases (data : bytes) (v : bvalue) :
  (∀ meta, load_torrent data = Some (inr meta) ↔ decode data = Done (BDict meta))
  ∧ (∀ e, load_torrent data = Some (inl (Undecodable e)) ↔ decode data = Raise e)
  ∧ (load_torrent data = Some (inl NotADictionary)
     ↔ ∃ x, decode data = Done x ∧ ∀ meta, x ≠ BDict meta)
  ∧ (wf v →
     match v with
     | BDict d => ∃ meta, load_torrent (encode v) = Some (inr meta)
                          ∧ py_eq (BDict meta) v = true
     | _ => load_torrent (encode v) = Some (inl NotADictionary)
     end).
Proof.
  split_and!.
  - intros meta. unfold load_torrent.
    destruct (decode data) as [[]| |]; split; intros [=]; by subst.
  - intros e. unfold load_torrent.
    destruct (decode data) as [[]| |]; split; intros [=]; by subst.
  - unfold load_torrent. pose proof (decode_settled data) as Hset.
    destruct (decode data) as [x|e|]; [| |done].
    + split.
      * intros Hload. exists x. split; [done|]. intros meta ->. done.
      * intros (x' & [= <-] & Hx). destruct x; try done. by destruct (Hx d).
    + split; [done | by intros (? & ? & _)].
  - intros Hv. destruct (decode_encode v Hv) as (v' & Hdec & Heq).
    unfold load_torrent. rewrite Hdec.
    destruct v, v'; try done. by eexists.
Qed.

Lemma load_torrent_cases_witness :
  ∃ meta, load_torrent (encode (BDict [(b "info", BDict [])])) = Some (inr meta)
          ∧ py_eq (BDict meta) (BDict [(b "info", BDict [])]) = true.
Proof.
  apply (proj2 (proj2 (proj2 (load_torrent_cases [] (BDict [(b "info", BDict [])]))))).
  by apply (decode_wf (b "d4:infodee")).
Defined.

End BencodeMore.

(** ** The tracker client *)

Module CompactFacts.
Import Py TrackerHTTP StrFacts PeerKeyFacts.

Lemma chunks_of_fuel (f : nat) (peer_data : bytes) :
  length peer_data ≤ f → chunks_of f peer_data = chunks_of (length peer_data) peer_data.
Proof.
  revert peer_data. induction (lt_wf f) as [f _ IH]. intros peer_data Hf.
  destruct peer_data as [|c rest]; [by destruct f|].
  cbn [length] in Hf. destruct f as [|f]; [lia|]. cbn [chunks_of length]. f_equal.
  assert (Hdrop : length (drop 6 (c :: rest)) ≤ length rest)
    by (rewrite length_drop; cbn [length]; lia).
  rewrite (IH f) by lia. symmetry. apply IH; [lia | done].
Qed.

Lemma chunks_of_S (f : nat) (c : ascii) (rest : bytes) :
  chunks_of (S f) (c :: rest) = take 6 (c :: rest) :: chunks_of f (drop 6 (c :: rest)).
Proof. done. Qed.

(** The chunks of a chunk followed by data. *)
Lemma parse_compact_peers_app (chunk rest : bytes) :
  length chunk = 6 →
  parse_compact_peers (chunk ++ rest)
  = p ← compact_peer chunk; peers ← parse_compact_peers rest; Some (p :: peers).
Proof.
  intros Hlen. unfold parse_compact_peers. rewrite length_app, Hlen.
  replace ((6 + length rest) mod 6) with (length rest mod 6)
    by (rewrite <-(Nat.Div0.add_mod_idemp_l 6); done).
  destruct (negb (length rest mod 6 =? 0)) eqn:Hmod.
  { simpl. by destruct (compact_peer chunk). }
  change (6 + length rest) with (S (5 + length rest)).
  destruct chunk as [|c0 chunk]; [done|].
  rewrite <-app_comm_cons, chunks_of_S, app_comm_cons.
  rewrite take_app_length', drop_app_length' by done.
  rewrite chunks_of_fuel by lia. cbn [mapM mbind option_bind].
  destruct (compact_peer (c0 :: chunk)); [|done]. simpl.
  by destruct (mapM compact_peer _).
Qed.

Lemma port_value (hi lo : ascii) :
  Z.lor (Z.shiftl (Z.of_N (ord hi)) 8) (Z.of_N (ord lo))
  = (256 * Z.of_N (ord hi) + Z.of_N (ord lo))%Z.
Proof.
  pose proof (N_ascii_bounded hi) as Hhi. pose proof (N_ascii_bounded lo) as Hlo.
  unfold ord. set (x := Z.of_N (N_of_ascii hi)). set (y := Z.of_N (N_of_ascii lo)).
  assert (0 ≤ y < 2 ^ 8)%Z by (unfold y; simpl; lia).
  rewrite Z.shiftl_mul_pow2 by lia.
  assert (Hland : Z.land (x * 2 ^ 8) y = 0%Z).
  { apply Z.bits_inj'. intros n Hn. rewrite Z.land_spec, Z.bits_0.
    destruct (Z.lt_ge_cases n 8).
    - rewrite Z.mul_pow2_bits_low by lia. done.
    - destruct (decide (y = 0%Z)) as [Hy0|Hy]; [by rewrite Hy0, Z.bits_0, andb_false_r|].
      assert (Z.log2 y < 8)%Z by (apply Z.log2_lt_pow2; lia).
      rewrite (Z.bits_above_log2 y) by lia.
      apply andb_false_r. }
  rewrite <-Z.lxor_lor, <-Z.add_nocarry_lxor by done. lia.
Qed.

(** What a chunk of six bytes gives. *)
Lemma compact_peer_fields (chunk : bytes) (p : Peer) :
  compact_peer chunk = Some p →
  ∃ c0 c1 c2 c3 c4 c5,
    chunk = [c0; c1; c2; c3; c4; c5]
    ∧ peer_ip p = str_byte c0 +:+ "." +:+ str_byte c1 +:+ "."
                  +:+ str_byte c2 +:+ "." +:+ str_byte c3
    ∧ peer_port p = (256 * Z.of_N (ord c4) + Z.of_N (ord c5))%Z
    ∧ (0 ≤ peer_port p < 65536)%Z.
Proof.
  destruct chunk as [|c0 [|c1 [|c2 [|c3 [|c4 [|c5 [|]]]]]]]; try done.
  intros [= <-]. exists c0, c1, c2, c3, c4, c5. cbn [peer_ip peer_port].
  rewrite port_value. split_and!; try done.
  - lia.
  - pose proof (N_ascii_bounded c4). pose proof (N_ascii_bounded c5).
    unfold ord. lia.
Qed.

Lemma compact_peer_Some (chunk : bytes) :
  length chunk = 6 → is_Some (compact_peer chunk).
Proof.
  destruct chunk as [|c0 [|c1 [|c2 [|c3 [|c4 [|c5 [|]]]]]]]; first [done | by eexists].
Qed.

Lemma parse_compact_exact (n : nat) (peer_data : bytes) :
  length peer_data = 6 * n →
  ∃ peers, parse_compact_peers peer_data = Some peers
    ∧ length peers = n
    ∧ (∀ k p, peers !! k = Some p →
              compact_peer (slice peer_data (6 * k) (6 * k + 6)) = Some p)
    ∧ (∀ more, parse_compact_peers (peer_data ++ more)
               = rest ← parse_compact_peers more; Some (peers ++ rest)).
Proof.
  revert peer_data. induction n as [|n IH]; intros peer_data Hlen.
  - destruct peer_data; [|done]. exists []. split_and!; try done.
    intros more. simpl. by destruct (parse_compact_peers more).
  - destruct (IH (drop 6 peer_data)) as (peers & Hparse & Hn & Hat & Happ).
    { rewrite length_drop. lia. }
    destruct (compact_peer_Some (take 6 peer_data)) as [p Hp].
    { rewrite length_take. lia. }
    exists (p :: peers).
    assert (Hsplit : peer_data = take 6 peer_data ++ drop 6 peer_data)
      by (by rewrite take_drop).
    split_and!.
    + rewrite Hsplit, parse_compact_peers_app by (rewrite length_take; lia).
      by rewrite Hp, Hparse.
    + simpl. by rewrite Hn.
    + intros [|k] q Hq.
      * injection Hq as <-. by rewrite FramingFacts.slice_0.
      * specialize (Hat k q Hq). unfold slice in *. rewrite drop_drop in Hat.
        replace (6 * S k) with (6 + 6 * k) by lia.
        by replace (6 + 6 * k + 6 - (6 + 6 * k)) with (6 * k + 6 - 6 * k) by lia.
    + intros more. rewrite Hsplit at 1. rewrite <-app_assoc.
      rewrite parse_compact_peers_app by (rewrite length_take; lia).
      rewrite Hp, Happ. simpl. by destruct (parse_compact_peers more).
Qed.

(** The first separator splits a string in one way. *)
Lemma app_sep_inj_l (c : ascii) (a a' s s' : list ascii) :
  c ∉ a → c ∉ a' → a ++ c :: s = a' ++ c :: s' → a = a' ∧ s = s'.
Proof.
  revert a'. induction a as [|x a IH]; intros [|x' a'] Ha Ha'; simpl.
  - by intros [= ->].
  - intros [= <- _]. exfalso. apply Ha'. left.
  - intros [= -> _]. exfalso. apply Ha. left.
  - intros [= -> Heq]. apply not_elem_of_cons in Ha as [_ Ha], Ha' as [_ Ha'].
    destruct (IH _ Ha Ha' Heq) as [-> ->]. done.
Qed.

Lemma str_nat_inj (n m : N) : str_nat n = str_nat m → n = m.
Proof.
  intros Heq. pose proof (int_str_nat n) as Hn. rewrite Heq, int_str_nat in Hn.
  injection Hn. lia.
Qed.

Lemma str_nat_no_dot (n : N) : "."%char ∉ str_nat n.
Proof.
  intros Hin. destruct (str_nat_spec n) as (Hdig & _).
  rewrite forallb_forall in Hdig. apply list_elem_of_In, Hdig in Hin. done.
Qed.

Lemma ord_inj (c c' : ascii) : ord c = ord c' → c = c'.
Proof.
  unfold ord. intros Heq. by rewrite <-(ascii_N_embedding c), Heq, ascii_N_embedding.
Qed.

Lemma str_byte_chars (c : ascii) : list_ascii_of_string (str_byte c) = str_nat (ord c).
Proof. unfold str_byte. by rewrite list_ascii_of_string_of_list_ascii. Qed.

End CompactFacts.

Section Tracker.
Import Py TrackerHTTP StrFacts PeerKeyFacts CompactFacts.

(** X8.  [parse_compact_peers] fails exactly when the length is not a
    multiple of 6.  Otherwise it gives one peer for each chunk of six
    bytes, in order: the address is the first four bytes in decimal,
    joined by dots, and the port is the last two bytes, big-endian, so
    below 65536.  The peers of two lists of chunks put together are the
    peers of the first followed by those of the second. *)
Theorem compact_peers_layout (peer_data more : bytes) :
  (parse_compact_peers peer_data = None ↔ length peer_data mod 6 ≠ 0)
  ∧ (∀ peers, parse_compact_peers peer_data = Some peers →
       6 * length peers = length peer_data
       ∧ ∀ k p, peers !! k = Some p →
           ∃ c0 c1 c2 c3 c4 c5,
             slice peer_data (6 * k) (6 * k + 6) = [c0; c1; c2; c3; c4; c5]
             ∧ peer_ip p = str_byte c0 +:+ "." +:+ str_byte c1 +:+ "."
                           +:+ str_byte c2 +:+ "." +:+ str_byte c3
             ∧ peer_port p = (256 * Z.of_N (ord c4) + Z.of_N (ord c5))%Z
             ∧ (0 ≤ peer_port p < 65536)%Z)
  ∧ (length peer_data mod 6 = 0 →
     parse_compact_peers (peer_data ++ more)
     = peers ← parse_compact_peers peer_data;
       rest ← parse_compact_peers more;
       Some (peers ++ rest)).
Proof.
  assert (Hexact : length peer_data mod 6 = 0 →
            ∃ n, length peer_data = 6 * n).
  { intros Hmod. exists (length peer_data / 6).
    pose proof (Nat.div_mod_eq (length peer_data) 6). lia. }
  split_and!.
  - split.
    + intros Hnone Hmod. destruct (Hexact Hmod) as [n Hn].
      destruct (parse_compact_exact n peer_data Hn) as (peers & Hparse & _).
      by rewrite Hparse in Hnone.
    + intros Hmod. unfold parse_compact_peers.
      by rewrite (proj2 (Nat.eqb_neq _ _) Hmod).
  - intros peers Hparse.
    destruct (decide (length peer_data mod 6 = 0)) as [Hmod|Hmod].
    + destruct (Hexact Hmod) as [n Hn].
      destruct (parse_compact_exact n peer_data Hn) as (peers' & Hparse' & Hlen & Hat & _).
      rewrite Hparse in Hparse'. injection Hparse' as <-.
      split; [lia|]. intros k p Hp. by apply compact_peer_fields, Hat.
    + unfold parse_compact_peers in Hparse.
      by rewrite (proj2 (Nat.eqb_neq _ _) Hmod) in Hparse.
  - intros Hmod. destruct (Hexact Hmod) as [n Hn].
    destruct (parse_compact_exact n peer_data Hn) as (peers & Hparse & _ & _ & Happ).
    by rewrite Happ, Hparse.
Qed.

(** X9.  The key by which duplicates are dropped tells the entries of a
    compact list apart: two chunks that give the same [ip:port] key are
    the same six bytes. *)
Theorem compact_endpoint_key (chunk chunk' : bytes) (p p' : Peer) :
  compact_peer chunk = Some p → compact_peer chunk' = Some p' →
  PeerManager.peer_key (peer_ip p) (peer_port p)
  = PeerManager.peer_key (peer_ip p') (peer_port p') →
  chunk = chunk'.
Proof.
  intros (c0 & c1 & c2 & c3 & c4 & c5 & -> & Hip & Hport & _)%compact_peer_fields
         (d0 & d1 & d2 & d3 & d4 & d5 & -> & Hip' & Hport' & _)%compact_peer_fields
         [Hips Hports]%peer_key_inj.
  rewrite Hip, Hip' in Hips. rewrite Hport, Hport' in Hports.
  apply (f_equal list_ascii_of_string) in Hips.
  rewrite !list_ascii_of_string_app, !str_byte_chars in Hips. cbn [list_ascii_of_string app] in Hips.
  apply app_sep_inj_l in Hips as [H0%str_nat_inj%ord_inj Hips];
    [|apply str_nat_no_dot..].
  apply app_sep_inj_l in Hips as [H1%str_nat_inj%ord_inj Hips];
    [|apply str_nat_no_dot..].
  apply app_sep_inj_l in Hips as [H2%str_nat_inj%ord_inj H3%str_nat_inj%ord_inj];
    [|apply str_nat_no_dot..].
  pose proof (N_ascii_bounded c4). pose proof (N_ascii_bounded c5).
  pose proof (N_ascii_bounded d4). pose proof (N_ascii_bounded d5).
  assert (Hhi : ord c4 = ord d4) by (unfold ord in *; lia).
  assert (Hlo : ord c5 = ord d5) by (unfold ord in *; lia).
  apply ord_inj in Hhi, Hlo. by subst.
Qed.

Definition sample_chunk : bytes :=
  [ascii_of_nat 127; zero; zero; ascii_of_nat 1; ascii_of_nat 26; ascii_of_nat 225].

Lemma compact_peers_layout_witness :
  parse_compact_peers (sample_chunk ++ sample_chunk)
  = Some [{| peer_ip := "127.0.0.1"; peer_port := 6881 |};
          {| peer_ip := "127.0.0.1"; peer_port := 6881 |}].
Proof.
  exact (eq_trans (proj2 (proj2 (compact_peers_layout sample_chunk sample_chunk))
                     eq_refl) eq_refl).
Defined.

Lemma compact_endpoint_key_witness :
  sample_chunk = [ascii_of_nat 127; zero; zero; ascii_of_nat 1; ascii_of_nat 26;
                  ascii_of_nat 225].
Proof.
  exact (compact_endpoint_key sample_chunk
           [ascii_of_nat 127; zero; zero; ascii_of_nat 1; ascii_of_nat 26;
            ascii_of_nat 225]
           {| peer_ip := "127.0.0.1"; peer_port := 6881 |}
           {| peer_ip := "127.0.0.1"; peer_port := 6881 |} eq_refl eq_refl eq_refl).
Defined.

End Tracker.

(** ** The announce URL *)

Module UrlFacts.
Import Py TrackerHTTP StrFacts PeerKeyFacts.

Lemma url_encode_bytes_chars (data : bytes) :
  list_ascii_of_string (url_encode_bytes data) = flat_map quote_byte data.
Proof. unfold url_encode_bytes. by rewrite list_ascii_of_string_of_list_ascii. Qed.

Lemma hex_digit_safe (n : N) : (n < 16)%N → always_safe (hex_digit n) = true.
Proof.
  intros Hn.
  assert (Hcases : n ∈ [0; 1; 2; 3; 4; 5; 6; 7; 8; 9; 10; 11; 12; 13; 14; 15]%N).
  { rewrite !elem_of_cons. lia. }
  repeat (apply elem_of_cons in Hcases as [->|Hcases]; [done|]).
  by apply elem_of_nil in Hcases.
Qed.

Lemma hex_digit_inj (n m : N) :
  (n < 16)%N → (m < 16)%N → hex_digit n = hex_digit m → n = m.
Proof.
  intros Hn Hm Heq. apply (f_equal N_of_ascii) in Heq. unfold hex_digit in Heq.
  destruct (n <? 10)%N eqn:Hn10, (m <? 10)%N eqn:Hm10;
    rewrite ?N.ltb_lt, ?N.ltb_ge in *;
    rewrite !N_ascii_embedding in Heq by lia; lia.
Qed.

Lemma hex_digit_HEX (n : N) :
  (n < 16)%N → b "0123456789ABCDEF" !! N.to_nat n = Some (hex_digit n).
Proof.
  intros Hn. destruct n as [|p]; [reflexivity|].
  do 4 (destruct p as [p|p|]; try reflexivity); lia.
Qed.

Lemma quote_byte_chars (c x : ascii) :
  x ∈ quote_byte c → always_safe x = true ∨ x = "%"%char.
Proof.
  unfold quote_byte. destruct (always_safe c) eqn:Hc.
  - intros ->%list_elem_of_singleton. by left.
  - pose proof (N_ascii_bounded c) as Hb. change (N_of_ascii c) with (ord c) in Hb.
    rewrite !elem_of_cons. intros [->|[->|[->|Hx]]].
    + by right.
    + left. apply hex_digit_safe. apply N.Div0.div_lt_upper_bound. lia.
    + left. apply hex_digit_safe. apply N.mod_upper_bound. lia.
    + by apply elem_of_nil in Hx.
Qed.

Lemma quote_byte_length (c : ascii) : 1 ≤ length (quote_byte c) ≤ 3.
Proof. unfold quote_byte. destruct (always_safe c); simpl; lia. Qed.

Lemma quote_inj (data data' : bytes) :
  flat_map quote_byte data = flat_map quote_byte data' → data = data'.
Proof.
  revert data'. induction data as [|c data IH]; intros [|c' data']; cbn [flat_map].
  - done.
  - pose proof (quote_byte_length c'). destruct (quote_byte c'); [simpl in *; lia | done].
  - pose proof (quote_byte_length c). destruct (quote_byte c); [simpl in *; lia | done].
  - unfold quote_byte.
    destruct (always_safe c) eqn:Hc, (always_safe c') eqn:Hc'; cbn [app].
    + intros [= -> Hrest]. f_equal. by apply IH.
    + intros [= -> _]. done.
    + intros [= <- _]. done.
    + intros [= Hhi Hlo Hrest].
      pose proof (N_ascii_bounded c) as Hb. pose proof (N_ascii_bounded c') as Hb'.
      change (N_of_ascii c) with (ord c) in Hb.
      change (N_of_ascii c') with (ord c') in Hb'.
      apply hex_digit_inj in Hhi;
        [|apply N.Div0.div_lt_upper_bound; lia..].
      apply hex_digit_inj in Hlo; [|apply N.mod_upper_bound; lia..].
      assert (Hord : ord c = ord c').
      { rewrite (N.div_mod (ord c) 16), (N.div_mod (ord c') 16) by lia. congruence. }
      f_equal; [|by apply IH].
      unfold ord in Hord.
      by rewrite <-(ascii_N_embedding c), Hord, ascii_N_embedding.
Qed.

(** The characters that structure a query string are quoted. *)
Lemma quoted_no (x : ascii) (data : bytes) :
  always_safe x = false → x ≠ "%"%char → x ∉ flat_map quote_byte data.
Proof.
  intros Hx Hne Hin. apply list_elem_of_In, in_flat_map in Hin as (c & _ & Hin).
  apply list_elem_of_In, quote_byte_chars in Hin as [Hs| ->]; [congruence | done].
Qed.

Lemma filter_nil_Forall {A} (P : A → Prop) `{∀ x, Decision (P x)} (l : list A) :
  Forall (λ x, ¬ P x) l → filter P l = [].
Proof.
  induction 1 as [|x l Hx _ IH]; [done|]. by rewrite filter_cons_False.
Qed.

Lemma filter_quoted (P : ascii → Prop) `{∀ x, Decision (P x)} (data : bytes) :
  (∀ x, P x → always_safe x = false ∧ x ≠ "%"%char) →
  filter P (flat_map quote_byte data) = [].
Proof.
  intros HP. apply filter_nil_Forall, Forall_forall. intros x Hin Hx.
  destruct (HP x Hx) as [Hsafe Hne]. by apply (quoted_no x data).
Qed.

Lemma filter_str (P : ascii → Prop) `{∀ x, Decision (P x)} (z : Z) :
  (∀ x, P x → x ≠ "-"%char ∧ is_digit x = false) →
  filter P (str z) = [].
Proof.
  intros HP. apply filter_nil_Forall, Forall_forall. intros x Hin Hx.
  destruct (HP x Hx) as [Hminus Hdigit]. by apply (str_not_elem z x).
Qed.

End UrlFacts.

Section Url.
Import Py TrackerHTTP StrFacts PeerKeyFacts UrlFacts.

(** The digits of [%XX], in the order of their values. *)
Definition HEX : bytes := b "0123456789ABCDEF".

(** X10.  [url_encode_bytes] writes the bytes one after the other: a
    letter, a digit and each of [_.-~] as it is, and every other byte as
    [%] and the two digits of its value in base 16, the high one first,
    with the letters [A] to [F] in upper case.  So it writes only
    letters, digits, [_.-~] and [%], it takes one to three characters for
    a byte, and it loses nothing: different byte strings are written
    differently. *)
Theorem url_encode_bytes_quotes (data data' : bytes) :
  (∃ quoted : list bytes,
     list_ascii_of_string (url_encode_bytes data) = concat quoted
     ∧ Forall2 (λ c q,
                  if always_safe c then q = [c]
                  else ∃ (high low : nat) (h l : ascii),
                         HEX !! high = Some h ∧ HEX !! low = Some l
                         ∧ N.to_nat (ord c) = 16 * high + low
                         ∧ q = ["%"%char; h; l]) data quoted)
  ∧ Forall (λ x, always_safe x = true ∨ x = "%"%char)
           (list_ascii_of_string (url_encode_bytes data))
  ∧ length data ≤ length (list_ascii_of_string (url_encode_bytes data))
    ≤ 3 * length data
  ∧ (url_encode_bytes data = url_encode_bytes data' → data = data').
Proof.
  rewrite url_encode_bytes_chars. split_and!.
  - exists (map quote_byte data). split; [by rewrite flat_map_concat_map|].
    apply Forall2_fmap_r, Forall_Forall2_diag, Forall_forall. intros c _.
    cbn [compose]. unfold quote_byte. destruct (always_safe c); [done|].
    pose proof (N_ascii_bounded c) as Hc. fold (ord c) in Hc.
    exists (N.to_nat (ord c / 16)), (N.to_nat (ord c mod 16)),
      (hex_digit (ord c / 16)), (hex_digit (ord c mod 16)).
    split_and!; [apply hex_digit_HEX | apply hex_digit_HEX | | done].
    + apply N.Div0.div_lt_upper_bound. lia.
    + by apply N.mod_lt.
    + rewrite (N.div_mod (ord c) 16) at 1 by done. lia.
  - apply Forall_forall. intros x (c & _ & Hin)%list_elem_of_In%in_flat_map.
    by apply list_elem_of_In, quote_byte_chars in Hin.
  - induction data as [|c data IH]; [done|]. cbn [flat_map length].
    rewrite length_app. pose proof (quote_byte_length c). lia.
  - induction data as [|c data IH]; [simpl; lia|]. cbn [flat_map length].
    rewrite length_app. pose proof (quote_byte_length c). lia.
  - intros Heq%(f_equal list_ascii_of_string).
    rewrite !url_encode_bytes_chars in Heq. by apply quote_inj.
Qed.

Lemma url_encode_bytes_quotes_witness :
  [zero; "/"%char; "a"%char] = [zero; "/"%char; "a"%char].
Proof.
  exact (proj2 (proj2 (proj2 (url_encode_bytes_quotes [zero; "/"%char; "a"%char]
                                [zero; "/"%char; "a"%char]))) eq_refl).
Defined.

(** A space, a null byte and a byte above the letters, as the source
    says of them. *)
Example url_encode_bytes_sample :
  url_encode_bytes [" "%char; zero; "a"%char; ascii_of_nat 171; "~"%char]
  = "%20%00a%AB~"%string.
Proof. reflexivity. Qed.

(** X11.  The announce URL is the tracker's URL, then [?], or [&] when
    the tracker's URL has a [?] already, then a query string.  Whatever
    the info-hash, the peer id and the numbers are, the query string has
    8 [=] and 7 [&], so 8 parameters, and none of [?], [#], [/] and the
    space. *)
Theorem tracker_url_shape (announce_url : string) (info_hash peer_id : bytes)
    (total_length port : Z) :
  ∃ query,
    build_tracker_url announce_url info_hash peer_id total_length port
    = announce_url
      +:+ (if bool_decide ("?"%char ∈ list_ascii_of_string announce_url)
           then "&" else "?")
      +:+ query
    ∧ length (filter (λ x, x = "="%char) (list_ascii_of_string query)) = 8
    ∧ length (filter (λ x, x = "&"%char) (list_ascii_of_string query)) = 7
    ∧ filter (λ x, x ∈ b "?#/ ") (list_ascii_of_string query) = [].
Proof.
  eexists. split; [reflexivity|].
  cbn [map String.concat fst snd].
  rewrite !list_ascii_of_string_app, !list_ascii_of_string_of_list_ascii,
    !url_encode_bytes_chars.
  rewrite !filter_app.
  rewrite !(filter_quoted (λ x, x = "="%char)), !(filter_str (λ x, x = "="%char))
    by (by intros x ->).
  rewrite !(filter_quoted (λ x, x = "&"%char)), !(filter_str (λ x, x = "&"%char))
    by (by intros x ->).
  rewrite !(filter_quoted (λ x, x ∈ b "?#/ ")), !(filter_str (λ x, x ∈ b "?#/ "))
    by (intros x Hx; cbn in Hx; rewrite !elem_of_cons, elem_of_nil in Hx;
        by destruct Hx as [->|[->|[->|[->|[]]]]]).
  split_and!; reflexivity.
Qed.

End Url.

(** ** The registry over a run *)

Module ManagerFacts.
Import Py PeerManager DictFacts SortedFacts ChokingFacts PeerKeyFacts.

(** The sum of a counter over the peers. *)
Definition sum_of (f : PeerStats → Z) (l : list (string * PeerStats)) : Z :=
  foldr Z.add 0%Z (map (λ e, f e.2) l).

Lemma sum_of_app f l1 l2 : sum_of f (l1 ++ l2) = (sum_of f l1 + sum_of f l2)%Z.
Proof.
  unfold sum_of. induction l1 as [|e l1 IH]; simpl; [done|]. rewrite IH. lia.
Qed.

Lemma sum_of_dict_set f (d : list (string * PeerStats)) k old v :
  dict_get d k = Some old →
  sum_of f (dict_set d k v) = (sum_of f d - f old + f v)%Z.
Proof.
  unfold sum_of. induction d as [|[k' v'] d IH]; simpl; [done|].
  case_bool_decide.
  - intros [= ->]. simpl. lia.
  - intros Hget. simpl. rewrite IH by done. lia.
Qed.

Lemma sum_of_ext f (l l' : list (string * PeerStats)) :
  Forall2 (λ e e', f e.2 = f e'.2) l l' → sum_of f l = sum_of f l'.
Proof.
  unfold sum_of. induction 1 as [|e e' l l' He _ IH]; simpl; [done|]. by rewrite He, IH.
Qed.

(** What the sessions and the clients write on a peer they hold: its
    flags, on the object under its key. *)
Definition set_flags (m : PeerManager) (peer_ip : string) (peer_port : Z)
    (choking_us interested_in_us we_interested : bool) : PeerManager :=
  match get_peer m peer_ip peer_port with
  | Some p =>
      with_peers m
        (dict_set (peers m) (peer_key peer_ip peer_port)
           {| ip := ip p; port := port p;
              downloaded := downloaded p; uploaded := uploaded p;
              last_download_time := last_download_time p;
              last_upload_time := last_upload_time p;
              download_rate := download_rate p; upload_rate := upload_rate p;
              is_choked_by_us := is_choked_by_us p;
              is_choking_us := choking_us;
              is_interested_in_us := interested_in_us;
              we_are_interested := we_interested;
              connection_time := connection_time p |})
  | None => m
  end.

(** The calls made on a manager, each at its time; an [IndexError] of
    [recalculate_choking] leaves the manager as it was. *)
Inductive action : Type :=
| AddPeer (peer_ip : string) (peer_port : Z) (now : Q)
| UpdateDownload (peer_ip : string) (peer_port : Z) (bytes_count : Z) (now : Q)
| UpdateUpload (peer_ip : string) (peer_port : Z) (bytes_count : Z) (now : Q)
| SetFlags (peer_ip : string) (peer_port : Z)
           (choking_us interested_in_us we_interested : bool)
| RecalculateChoking (now : Q) (choice : nat).

Definition act (m : PeerManager) (a : action) : PeerManager :=
  match a with
  | AddPeer peer_ip peer_port now => (add_peer m peer_ip peer_port now).1
  | UpdateDownload peer_ip peer_port bytes_count now =>
      update_download m peer_ip peer_port bytes_count now
  | UpdateUpload peer_ip peer_port bytes_count now =>
      update_upload m peer_ip peer_port bytes_count now
  | SetFlags peer_ip peer_port c i w => set_flags m peer_ip peer_port c i w
  | RecalculateChoking now choice =>
      match recalculate_choking m now choice with
      | Some (m', _) => m'
      | None => m
      end
  end.

Definition bytes_of (a : action) : Z :=
  match a with
  | UpdateDownload _ _ bytes_count _ | UpdateUpload _ _ bytes_count _ => bytes_count
  | _ => 0%Z
  end.

(** The invariant of a run. *)
Record sound (m : PeerManager) : Prop := {
  sound_registry : registry_ok m;
  sound_downloaded : total_downloaded m = sum_of downloaded (peers m);
  sound_uploaded : total_uploaded m = sum_of uploaded (peers m)
}.

Definition rates_ok (m : PeerManager) : Prop :=
  Forall (λ e, (0 <= download_rate e.2)%Q ∧ (0 <= upload_rate e.2)%Q) (peers m).

Lemma get_peer_key m peer_ip peer_port p :
  registry_ok m → get_peer m peer_ip peer_port = Some p →
  peer_key peer_ip peer_port = get_peer_id p.
Proof.
  intros [_ Hkeys] Hget. apply dict_get_Some_elem in Hget.
  rewrite Forall_forall in Hkeys. apply (Hkeys _ Hget).
Qed.

(** A write on the object under a key keeps the registry well formed when
    the address of the object stays. *)
Lemma replace_ok m peer_ip peer_port p q :
  registry_ok m → get_peer m peer_ip peer_port = Some p →
  get_peer_id q = get_peer_id p →
  registry_ok (with_peers m (dict_set (peers m) (peer_key peer_ip peer_port) q)).
Proof.
  intros Hok Hget Hid. pose proof (get_peer_key _ _ _ _ Hok Hget) as Hkey.
  destruct Hok as [Hnd Hkeys]. split; simpl.
  - by apply dict_set_NoDup.
  - apply dict_set_Forall; [done|]. simpl. congruence.
Qed.

(** What a re-evaluation does to the registry: nothing, or it writes the
    choke flags. *)
Lemma recalculate_choking_peers m now choice m' selected :
  recalculate_choking m now choice = Some (m', selected) →
  (m' = m ∨ ∃ unchoked, peers m' = map (choke_all_but unchoked) (peers m))
  ∧ total_downloaded m' = total_downloaded m
  ∧ total_uploaded m' = total_uploaded m
  ∧ max_unchoked_peers m' = max_unchoked_peers m.
Proof.
  unfold recalculate_choking.
  destruct (interested m) as [|e0 rest] eqn:Hint; [by intros [= <- <-]; split; [left|]|].
  destruct (Qltb _ _).
  - destruct (filter _ _) as [|first others].
    + intros [= <- <-]. split; [right; by eexists | done].
    + intros [= <- <-]. split; [right; by eexists | done].
  - destruct (_ <=? _)%Z.
    + destruct (zindex _ _) as [nth|]; [|done]. simpl.
      intros [= <- <-]. split; [right; by eexists | done].
    + intros [= <- <-]. split; [right; by eexists | done].
Qed.

Lemma choke_all_but_registry unchoked (l : list (string * PeerStats)) :
  map fst (map (choke_all_but unchoked) l) = map fst l
  ∧ Forall2 (λ e e', e'.1 = e.1 ∧ get_peer_id e'.2 = get_peer_id e.2
                     ∧ downloaded e'.2 = downloaded e.2
                     ∧ uploaded e'.2 = uploaded e.2
                     ∧ download_rate e'.2 = download_rate e.2
                     ∧ upload_rate e'.2 = upload_rate e.2)
            l (map (choke_all_but unchoked) l).
Proof.
  split.
  - rewrite <-list_fmap_compose. by apply list_fmap_ext.
  - apply Forall2_fmap_r, Forall_Forall2_diag, Forall_forall. by intros e _.
Qed.

Lemma act_sound m a : sound m → sound (act m a).
Proof.
  intros [Hok Hdown Hup]. destruct a as [pip pport now|pip pport n now|pip pport n now
                                        |pip pport c i w|now choice]; cbn [act].
  - split; [by apply add_peer_ok| |]; unfold add_peer;
      destruct (dict_get (peers m) _) eqn:Hget; cbn [fst peers with_peers
        total_downloaded total_uploaded]; try done;
      rewrite dict_set_fresh by (by apply dict_get_None);
      rewrite sum_of_app; unfold sum_of at 2; simpl; lia.
  - unfold update_download. destruct (get_peer m pip pport) as [p|] eqn:Hget; [|done].
    split; cbn [peers with_totals with_peers total_downloaded total_uploaded].
    + by apply (replace_ok m pip pport p).
    + rewrite (sum_of_dict_set _ _ _ p) by done. simpl. lia.
    + rewrite (sum_of_dict_set _ _ _ p) by done. simpl. lia.
  - unfold update_upload. destruct (get_peer m pip pport) as [p|] eqn:Hget; [|done].
    split; cbn [peers with_totals with_peers total_downloaded total_uploaded].
    + by apply (replace_ok m pip pport p).
    + rewrite (sum_of_dict_set _ _ _ p) by done. simpl. lia.
    + rewrite (sum_of_dict_set _ _ _ p) by done. simpl. lia.
  - unfold set_flags. destruct (get_peer m pip pport) as [p|] eqn:Hget; [|done].
    split; cbn [peers with_peers total_downloaded total_uploaded].
    + by apply (replace_ok m pip pport p).
    + rewrite (sum_of_dict_set _ _ _ p) by done. simpl. lia.
    + rewrite (sum_of_dict_set _ _ _ p) by done. simpl. lia.
  - destruct (recalculate_choking m now choice) as [[m' selected]|] eqn:Hrec; [|done].
    apply recalculate_choking_peers in Hrec as ([->|[unchoked Hpeers]] & Htd & Htu & _);
      [done|].
    destruct (choke_all_but_registry unchoked (peers m)) as [Hkeys Hsame].
    rewrite <-Hpeers in Hkeys, Hsame. destruct Hok as [Hnd Hids].
    split.
    + split; [by rewrite Hkeys|].
      apply Forall_forall. intros e' He'.
      apply list_elem_of_lookup_1 in He' as [k He'].
      destruct (Forall2_lookup_r _ _ _ _ _ Hsame He') as (e & He & H1 & H2 & _).
      rewrite Forall_forall in Hids. rewrite H1, H2.
      by eapply Hids, list_elem_of_lookup_2.
    + rewrite Htd, Hdown. apply sum_of_ext.
      eapply Forall2_impl; [exact Hsame|]. simpl. intros ?? (_ & _ & -> & _). done.
    + rewrite Htu, Hup. apply sum_of_ext.
      eapply Forall2_impl; [exact Hsame|]. simpl. intros ?? (_ & _ & _ & -> & _). done.
Qed.

Lemma ema_nonneg (rate : Q) (bytes_count : Z) (time_diff : Q) :
  (0 <= rate)%Q → (0 ≤ bytes_count)%Z → (0 < time_diff)%Q →
  (0 <= (4 # 5) * rate + (1 # 5) * (inject_Z bytes_count / time_diff))%Q.
Proof.
  intros Hrate Hbytes Htime.
  apply (Qplus_le_compat 0 _ 0); apply Qmult_le_0_compat; try done.
  unfold Qdiv. apply Qmult_le_0_compat.
  - change 0%Q with (inject_Z 0). by rewrite <-Zle_Qle.
  - by apply Qlt_le_weak, Qinv_lt_0_compat.
Qed.

Lemma act_rates m a : (0 ≤ bytes_of a)%Z → rates_ok m → rates_ok (act m a).
Proof.
  intros Hbytes Hrates. unfold rates_ok in *.
  destruct a as [pip pport now|pip pport n now|pip pport n now
                |pip pport c i w|now choice]; cbn [act bytes_of] in *.
  - unfold add_peer. destruct (dict_get (peers m) _); [done|]. simpl.
    apply dict_set_Forall; [done|]. by split.
  - unfold update_download. destruct (get_peer m pip pport) as [p|] eqn:Hget; [|done].
    simpl. apply dict_set_Forall; [done|]. simpl.
    apply dict_get_Some_elem in Hget. rewrite Forall_forall in Hrates.
    destruct (Hrates _ Hget) as [Hd Hu]. split; [|done].
    destruct (Qltb 0 _) eqn:Htime; [|done]. apply Qltb_lt in Htime.
    by apply ema_nonneg.
  - unfold update_upload. destruct (get_peer m pip pport) as [p|] eqn:Hget; [|done].
    simpl. apply dict_set_Forall; [done|]. simpl.
    apply dict_get_Some_elem in Hget. rewrite Forall_forall in Hrates.
    destruct (Hrates _ Hget) as [Hd Hu]. split; [done|].
    destruct (Qltb 0 _) eqn:Htime; [|done]. apply Qltb_lt in Htime.
    by apply ema_nonneg.
  - unfold set_flags. destruct (get_peer m pip pport) as [p|] eqn:Hget; [|done].
    simpl. apply dict_set_Forall; [done|]. simpl.
    apply dict_get_Some_elem in Hget. rewrite Forall_forall in Hrates.
    apply (Hrates _ Hget).
  - destruct (recalculate_choking m now choice) as [[m' selected]|] eqn:Hrec; [|done].
    apply recalculate_choking_peers in Hrec as ([->|[unchoked Hpeers]] & _); [done|].
    rewrite Hpeers. apply Forall_fmap. eapply Forall_impl; [exact Hrates|]. done.
Qed.

(** The peers that a re-evaluation with a candidate unchokes: peers of
    the registry, no key twice, [max_unchoked_peers] of them at most. *)
Lemma recalculate_choking_unchoked m now choice :
  registry_ok m → (1 ≤ max_unchoked_peers m)%Z → interested m ≠ [] →
  ∃ m0 unchoked,
    peers m0 = peers m
    ∧ unchoked ⊆ peers m
    ∧ NoDup (map fst unchoked)
    ∧ length unchoked ≤ Z.to_nat (max_unchoked_peers m)
    ∧ recalculate_choking m now choice = Some (finish m0 unchoked).
Proof.
  intros Hok HK Hint. unfold recalculate_choking.
  destruct (interested m) as [|e0 rest] eqn:Hcand; [done|]. rewrite <-Hcand.
  rewrite zprefix_take by lia.
  set (n := Z.to_nat (max_unchoked_peers m - 1)).
  set (ranked := by_rate (interested m)).
  assert (Htop : length (take n ranked) ≤ n) by (rewrite length_take; lia).
  destruct (Qltb _ _).
  - destruct (filter _ (interested m)) as [|first others] eqn:Hothers.
    + exists m, (take n ranked). split_and!; try done.
      * apply top_subseteq.
      * by apply ranked_prefix_NoDup.
      * lia.
    + set (optimistic_peer := default first _).
      assert (Hin : optimistic_peer ∈ first :: others).
      { unfold optimistic_peer.
        destruct ((first :: others) !! _) as [e|] eqn:He; simpl; [|left].
        by eapply list_elem_of_lookup_2. }
      rewrite <-Hothers in Hin. apply list_elem_of_filter in Hin as [Hnot Hcandidate].
      exists (with_last_optimistic m now), (take n ranked ++ [optimistic_peer]).
      split_and!; try done.
      * by apply with_fill_subseteq.
      * rewrite map_app. apply NoDup_app. split_and!.
        -- by apply ranked_prefix_NoDup.
        -- intros k Hk ->%list_elem_of_singleton.
           unfold among in Hnot. apply bool_decide_eq_false in Hnot. done.
        -- apply NoDup_singleton.
      * rewrite length_app. simpl. lia.
  - destruct (_ <=? _)%Z eqn:Hlen.
    + apply Z.leb_le in Hlen. rewrite zindex_lookup by lia. fold n ranked.
      destruct (ranked !! n) as [nth|] eqn:Hnth.
      * simpl. exists m, (take n ranked ++ [nth]). split_and!; try done.
        -- apply with_fill_subseteq. rewrite <-(by_rate_Permutation (interested m)).
           by eapply list_elem_of_lookup_2.
        -- rewrite <-(take_S_r _ _ _ Hnth). by apply ranked_prefix_NoDup.
        -- rewrite length_app. simpl. lia.
      * apply lookup_ge_None in Hnth. fold ranked in Hlen. lia.
    + exists m, (take n ranked). split_and!; try done.
      * apply top_subseteq.
      * by apply ranked_prefix_NoDup.
      * lia.
Qed.

Lemma filter_map_length {A B} (f : A → B) (P : B → Prop) (Q : A → Prop)
    `{∀ x, Decision (P x)} `{∀ x, Decision (Q x)} (l : list A) :
  (∀ x, x ∈ l → P (f x) ↔ Q x) →
  length (filter P (map f l)) = length (filter Q l).
Proof.
  induction l as [|x l IH]; intros HPQ; [done|].
  cbn [map]. rewrite !filter_cons.
  pose proof (HPQ x ltac:(left)) as Hx.
  assert (IHl : length (filter P (map f l)) = length (filter Q l))
    by (apply IH; intros y Hy; apply HPQ; by right).
  destruct (decide (P (f x))), (decide (Q x)); cbn [length]; tauto || lia.
Qed.

(** The peers of a registry whose key is among distinct keys of it. *)
Lemma filter_keys_length (l u : list (string * PeerStats)) :
  NoDup (map fst l) → NoDup (map fst u) → map fst u ⊆ map fst l →
  length (filter (λ e, e.1 ∈ map fst u) l) = length u.
Proof.
  intros Hl Hu Hsub.
  rewrite <-(length_map fst (filter _ l)), <-(length_map fst u).
  apply Permutation_length, NoDup_Permutation; [|done|].
  - eapply sublist_NoDup; [exact Hl|]. apply fmap_sublist, sublist_filter.
  - intros k. split.
    + intros (e & -> & [He _]%list_elem_of_filter)%list_elem_of_fmap. done.
    + intros Hk. pose proof (Hsub k Hk) as (e & -> & He)%list_elem_of_fmap.
      apply list_elem_of_fmap. exists e. split; [done|].
      by apply list_elem_of_filter.
Qed.

End ManagerFacts.

Section Manager.
Import Py PeerManager DictFacts SortedFacts ChokingFacts PeerKeyFacts ManagerFacts.

(** X12.  [add_peer] returns the peer that [get_peer] then finds.  For an
    endpoint the registry holds, it returns the object held and changes
    nothing; for a new one it puts a fresh peer at the end.  The other
    endpoints are found as before, and adding the endpoint again, at any
    time, gives the same peer and the same registry. *)
Theorem add_peer_lookup (m : PeerManager) (peer_ip other_ip : string)
    (peer_port other_port : Z) (now later : Q) :
  let r := add_peer m peer_ip peer_port now in
  get_peer r.1 peer_ip peer_port = Some r.2
  ∧ (∀ p, get_peer m peer_ip peer_port = Some p → r = (m, p))
  ∧ (get_peer m peer_ip peer_port = None →
     r.2 = new_peer peer_ip peer_port now
     ∧ peers r.1 = peers m ++ [(peer_key peer_ip peer_port, r.2)])
  ∧ ((other_ip, other_port) ≠ (peer_ip, peer_port) →
     get_peer r.1 other_ip other_port = get_peer m other_ip other_port)
  ∧ add_peer r.1 peer_ip peer_port later = r.
Proof.
  intros r. subst r. unfold add_peer, get_peer.
  destruct (dict_get (peers m) (peer_key peer_ip peer_port)) as [p|] eqn:Hget;
    cbn [fst snd peers with_peers].
  - split_and!; try done.
    + by intros ? [= <-].
    + by rewrite Hget.
  - split_and!; try done.
    + by rewrite dict_get_set_eq.
    + intros _. split; [done|]. by rewrite dict_set_fresh by (by apply dict_get_None).
    + intros Hne. apply dict_get_set_ne. intros [-> ->]%peer_key_inj. done.
    + by rewrite dict_get_set_eq.
Qed.

Lemma add_peer_lookup_witness :
  get_peer (add_peer (init 4 0) "10.0.0.1" 6881 1).1 "10.0.0.2" 6881 = None.
Proof.
  exact (proj1 (proj2 (proj2 (proj2 (add_peer_lookup (init 4 0) "10.0.0.1" "10.0.0.2"
                                       6881 6881 1 2)))) ltac:(discriminate)).
Defined.

(** X13.  After any sequence of calls on a new manager (peers added,
    downloads and uploads counted, flags written, choking re-evaluated),
    no key is twice in the registry, every peer is under the key of its
    own address, and the totals of the manager are the sums of the
    counters of its peers.  When no count of
    bytes is negative, no rate is negative. *)
Theorem registry_run (max_unchoked : Z) (t0 : Q) (actions : list action) :
  let m := foldl act (init max_unchoked t0) actions in
  NoDup (map fst (peers m))
  ∧ Forall (λ e, e.1 = get_peer_id e.2) (peers m)
  ∧ total_downloaded m = sum_of downloaded (peers m)
  ∧ total_uploaded m = sum_of uploaded (peers m)
  ∧ (Forall (λ a, (0 ≤ bytes_of a)%Z) actions →
     Forall (λ e, (0 <= download_rate e.2)%Q ∧ (0 <= upload_rate e.2)%Q) (peers m)).
Proof.
  intros m.
  assert (Hsound : sound m).
  { subst m.
    assert (Hm0 : sound (init max_unchoked t0)) by (split; [apply init_ok|done..]).
    revert Hm0. generalize (init max_unchoked t0).
    induction actions as [|a actions IH]; intros m0 Hm0; [done|].
    simpl. by apply IH, act_sound. }
  destruct Hsound as [[Hnd Hkeys] Hdown Hup]. split_and!; try done.
  intros Hbytes. clear Hnd Hkeys Hdown Hup. subst m.
  assert (Hm0 : rates_ok (init max_unchoked t0)) by constructor.
  revert Hm0. generalize (init max_unchoked t0).
  induction Hbytes as [|a actions Ha _ IH]; intros m0 Hm0; [done|].
  simpl. apply IH, act_rates; [exact Ha | exact Hm0].
Qed.

Lemma registry_run_witness :
  let m := foldl act (init 4 0)
             [AddPeer "10.0.0.1" 6881 1; UpdateDownload "10.0.0.1" 6881 100 2;
              UpdateDownload "10.0.0.9" 6881 50 3] in
  Forall (λ e, (0 <= download_rate e.2)%Q ∧ (0 <= upload_rate e.2)%Q) (peers m).
Proof.
  apply (registry_run 4 0). repeat constructor; simpl; lia.
Defined.

(** X14.  For a count that is not negative, [get_best_peers_for_download]
    gives peers of the registry that do not choke us, as many as the
    count allows, by download rate from the highest; no peer left out
    that does not choke us has a higher rate than one of those given. *)
Theorem best_peers_for_download (m : PeerManager) (count : Z) :
  (0 ≤ count)%Z →
  let available := filter (λ e, is_choking_us e.2 = false) (peers m) in
  let best := get_best_peers_for_download m count in
  length best = Z.to_nat count `min` length available
  ∧ (∀ e, e ∈ best → e ∈ peers m ∧ is_choking_us e.2 = false)
  ∧ StronglySorted rate_ge best
  ∧ ∃ others, best ++ others ≡ₚ available
              ∧ ∀ e e', e ∈ best → e' ∈ others → rate_ge e e'.
Proof.
  intros Hcount available best. subst best. unfold get_best_peers_for_download.
  fold available. rewrite zprefix_take by done.
  set (n := Z.to_nat count). set (ranked := by_rate available).
  pose proof (by_rate_Permutation available) as Hperm. fold ranked in Hperm.
  pose proof (by_rate_sorted available) as Hsorted. fold ranked in Hsorted.
  split_and!.
  - rewrite length_take, Hperm. done.
  - intros e (i & He%list_elem_of_lookup_2 & _)%elem_of_take.
    rewrite Hperm in He. by apply list_elem_of_filter in He as [? ?].
  - rewrite <-(take_drop n ranked) in Hsorted.
    by apply StronglySorted_app_1_l in Hsorted.
  - exists (drop n ranked). split; [by rewrite take_drop|].
    intros e e'. rewrite <-(take_drop n ranked) in Hsorted.
    by apply StronglySorted_app_1_elem_of.
Qed.

Lemma best_peers_for_download_witness :
  length (get_best_peers_for_download
            (set_flags (add_peer (init 4 0) "10.0.0.1" 6881 1).1 "10.0.0.1" 6881
               false true true) 5)
  = 1.
Proof.
  exact (proj1 (best_peers_for_download
                  (set_flags (add_peer (init 4 0) "10.0.0.1" 6881 1).1 "10.0.0.1" 6881
                     false true true) 5 ltac:(lia))).
Defined.

(** X15.  After a re-evaluation with a candidate at least, for a limit
    of 1 or more, the number of unchoked peers that [get_statistics]
    reports is the number of peers that the re-evaluation returned, and
    it is not above the limit; the number of peers is as before. *)
Theorem unchoked_within_limit (m : PeerManager) (now later : Q) (choice : nat) :
  registry_ok m → (1 ≤ max_unchoked_peers m)%Z → interested m ≠ [] →
  ∃ m' selected,
    recalculate_choking m now choice = Some (m', selected)
    ∧ unchoked_peers (get_statistics m' later) = length selected
    ∧ length selected ≤ Z.to_nat (max_unchoked_peers m)
    ∧ num_peers (get_statistics m' later) = num_peers (get_statistics m later).
Proof.
  intros Hok HK Hint.
  destruct (recalculate_choking_unchoked m now choice Hok HK Hint)
    as (m0 & unchoked & Hpeers & Hsub & Hnd & Hlen & ->).
  eexists _, _. split; [done|].
  unfold finish, get_statistics. cbn [fst snd peers with_peers unchoked_peers num_peers].
  rewrite Hpeers, !length_map. split_and!; [|done|done].
  assert (Hflag : ∀ e, e ∈ peers m →
            is_choked_by_us (choke_all_but unchoked e).2 = false
            ↔ e.1 ∈ map fst unchoked).
  { intros e He. by apply (choke_all_but_flag m). }
  rewrite <-(filter_keys_length (peers m) unchoked); [|apply Hok | done |].
  - by apply filter_map_length.
  - intros k (e & -> & He)%list_elem_of_fmap. apply list_elem_of_fmap.
    exists e. split; [done | by apply Hsub].
Qed.

Lemma unchoked_within_limit_witness :
  ∃ m' selected,
    recalculate_choking
      (set_flags (add_peer (init 1 0) "10.0.0.1" 6881 1).1 "10.0.0.1" 6881
         false true true) 5 0
    = Some (m', selected)
    ∧ unchoked_peers (get_statistics m' 6) = length selected.
Proof.
  destruct (unchoked_within_limit
              (set_flags (add_peer (init 1 0) "10.0.0.1" 6881 1).1 "10.0.0.1" 6881
                 false true true) 5 6 0) as (m' & selected & Hrec & Hcount & _).
  - split; [apply NoDup_singleton | by repeat constructor].
  - simpl. lia.
  - discriminate.
  - by exists m', selected.
Defined.

End Manager.

(** ** The layout of the files *)

Module LayoutFacts.
Import Py Bencode FileManager FileManagerFacts.

(** [x[lo:lo + len]] for bounds that are not negative. *)
Lemma zslice_nonneg {A} (x : list A) (lo len : Z) :
  (0 ≤ lo)%Z → (0 ≤ len)%Z →
  zslice x lo (lo + len) = take (Z.to_nat len) (drop (Z.to_nat lo) x).
Proof.
  intros Hlo Hlen. unfold zslice, slice, clamp.
  rewrite (proj2 (Z.ltb_ge lo 0)), (proj2 (Z.ltb_ge (lo + len) 0)) by lia.
  destruct (Z.le_gt_cases lo (Z.of_nat (List.length x))) as [Hin|Hout].
  - rewrite (Z.min_l lo) by done.
    destruct (Z.le_gt_cases (lo + len) (Z.of_nat (List.length x))).
    + rewrite Z.min_l by done. f_equal. lia.
    + rewrite Z.min_r, Nat2Z.id by lia.
      rewrite !take_ge; [done | rewrite length_drop; lia | rewrite length_drop; lia].
  - rewrite !Z.min_r, Nat2Z.id by lia.
    rewrite !drop_ge by lia. by rewrite !take_nil.
Qed.

Definition sum_Z_of (lens : list Z) : Z := foldr Z.add 0%Z lens.

Lemma foldl_add_sum (lens : list Z) (total : Z) :
  foldl Z.add total lens = (total + sum_Z_of lens)%Z.
Proof.
  revert total. induction lens as [|len lens IH]; intros total; simpl; [lia|].
  rewrite IH. unfold sum_Z_of. lia.
Qed.

(** A file of the list that the constructor takes: a [path] that can be
    iterated, with a component at least, every component a byte string
    of UTF-8, and an integer [length]. *)
Definition utf8_bytes (part : bvalue) : Prop :=
  ∃ s, part = BBytes s ∧ utf8_valid s = true.

Definition accepted (file_info : bvalue) : Prop :=
  ∃ path_value parts len,
    getitem file_info (b "path") = Ok path_value
    ∧ iter path_value = Ok parts
    ∧ parts ≠ [] ∧ Forall utf8_bytes parts
    ∧ getitem file_info (b "length") = Ok (BInt len).

Lemma decode_parts_Ok parts :
  (∃ l, decode_parts parts = Ok l) ↔ Forall utf8_bytes parts.
Proof.
  induction parts as [|part parts IH].
  - split; [constructor | by eexists].
  - cbn [decode_parts]. split.
    + intros [l Hl]. destruct part as [|s| |]; try done. cbn [decode_utf8] in Hl.
      destruct (utf8_valid s) eqn:Hs; [|done]. cbn in Hl.
      destruct (decode_parts parts) as [l'|] eqn:Hparts; [|done].
      constructor; [by exists s|]. apply IH. by eexists.
    + intros Hall. inv Hall. destruct H1 as (s & -> & Hs).
      apply IH in H2 as [l Hl]. cbn [decode_utf8]. rewrite Hs. cbn. rewrite Hl.
      by eexists.
Qed.

Lemma decode_parts_length parts l : decode_parts parts = Ok l → length l = length parts.
Proof.
  revert l. induction parts as [|part parts IH]; intros l; cbn [decode_parts].
  - by intros [= <-].
  - destruct (decode_utf8 part); [|done]. cbn.
    destruct (decode_parts parts) as [l'|]; [|done]. cbn. intros [= <-].
    cbn. by rewrite (IH l').
Qed.

(** One round of the loop of [_parse_file_list]. *)
Lemma _parse_file_list_cons root file_info rest current_offset :
  accepted file_info →
  ∃ full_path len,
    getitem file_info (b "length") = Ok (BInt len)
    ∧ _parse_file_list root (file_info :: rest) current_offset
      = (files ← _parse_file_list root rest (current_offset + len);
         Ok ({| path := full_path; file_length := BInt len; offset := current_offset |}
             :: files)).
Proof.
  intros (path_value & parts & len & Hpath & Hiter & Hne & Hutf8 & Hlen).
  apply decode_parts_Ok in Hutf8 as [l Hl].
  pose proof (decode_parts_length _ _ Hl) as Hlength.
  cbn [_parse_file_list]. rewrite Hpath. cbn [mbind result_bind]. rewrite Hiter.
  cbn [mbind result_bind]. rewrite Hl. cbn [mbind result_bind].
  destruct l as [|part l]; [by destruct parts|]. cbn [join_parts mbind result_bind].
  rewrite Hlen. cbn [mbind result_bind add]. by eexists _, _.
Qed.

Lemma _parse_file_list_accepted root file_info rest current_offset entries :
  _parse_file_list root (file_info :: rest) current_offset = Ok entries →
  accepted file_info.
Proof.
  cbn [_parse_file_list].
  destruct (getitem file_info (b "path")) as [path_value|] eqn:Hpath; [|done].
  cbn [mbind result_bind].
  destruct (iter path_value) as [parts|] eqn:Hiter; [|done]. cbn [mbind result_bind].
  destruct (decode_parts parts) as [l|] eqn:Hl; [|done]. cbn [mbind result_bind].
  destruct l as [|part l]; [done|]. cbn [join_parts mbind result_bind].
  destruct (getitem file_info (b "length")) as [length|] eqn:Hlen; [|done].
  cbn [mbind result_bind]. destruct length as [len| | |]; try done. intros _.
  exists path_value, parts, len. split_and!; try done.
  - intros ->. by apply decode_parts_length in Hl.
  - apply decode_parts_Ok. by eexists.
Qed.

(** Entries laid one after the other from an offset, with the lengths
    [lens]. *)
Fixpoint contiguous (start : Z) (entries : list FileEntry) (lens : list Z) : Prop :=
  match entries, lens with
  | [], [] => True
  | e :: entries, len :: lens =>
      offset e = start ∧ file_length e = BInt len
      ∧ contiguous (start + len) entries lens
  | _, _ => False
  end.

Lemma _parse_file_list_Ok root file_infos current_offset :
  (∃ entries, _parse_file_list root file_infos current_offset = Ok entries)
  ↔ Forall accepted file_infos.
Proof.
  revert current_offset. induction file_infos as [|file_info rest IH]; intros o.
  - split; [constructor | by eexists].
  - split.
    + intros [entries Hparse].
      pose proof (_parse_file_list_accepted _ _ _ _ _ Hparse) as Hacc.
      constructor; [done|].
      destruct (_parse_file_list_cons root file_info rest o Hacc)
        as (full_path & len & _ & Hstep).
      rewrite Hstep in Hparse.
      destruct (_parse_file_list root rest (o + len)) as [files|] eqn:Hrest; [|done].
      apply (IH (o + len)%Z). by eexists.
    + intros Hall. inv Hall.
      destruct (_parse_file_list_cons root file_info rest o H1)
        as (full_path & len & _ & ->).
      apply (IH (o + len)%Z) in H2 as [files ->]. by eexists.
Qed.

Lemma _parse_file_list_contiguous root file_infos current_offset entries :
  _parse_file_list root file_infos current_offset = Ok entries →
  ∃ lens, contiguous current_offset entries lens
          ∧ Forall2 (λ file_info len, getitem file_info (b "length") = Ok (BInt len))
                    file_infos lens.
Proof.
  revert current_offset entries.
  induction file_infos as [|file_info rest IH]; intros o entries Hparse.
  - injection Hparse as <-. by exists [].
  - pose proof (_parse_file_list_accepted _ _ _ _ _ Hparse) as Hacc.
    destruct (_parse_file_list_cons root file_info rest o Hacc)
      as (full_path & len & Hlen & Hstep).
    rewrite Hstep in Hparse.
    destruct (_parse_file_list root rest (o + len)) as [files|] eqn:Hrest; [|done].
    injection Hparse as <-. destruct (IH _ _ Hrest) as (lens & Hc & Hl).
    exists (len :: lens). split; [done|]. by constructor.
Qed.

(** The loop raises what its first file that is not accepted raises. *)
Lemma _parse_file_list_first root good bad rest current_offset e :
  Forall accepted good →
  (∀ o, _parse_file_list root (bad :: rest) o = Raised e) →
  _parse_file_list root (good ++ bad :: rest) current_offset = Raised e.
Proof.
  intros Hgood Hbad. revert current_offset.
  induction Hgood as [|file_info good Hacc _ IH]; intros o; [apply Hbad|].
  destruct (_parse_file_list_cons root file_info (good ++ bad :: rest) o Hacc)
    as (full_path & len & _ & Hstep).
  cbn [app]. rewrite Hstep, IH. done.
Qed.

Lemma contiguous_lengths start entries lens :
  contiguous start entries lens → map file_length entries = map BInt lens.
Proof.
  revert start lens. induction entries as [|e entries IH]; intros start [|len lens];
    try done.
  intros (_ & Hlen & Hc). cbn [map]. by rewrite Hlen, (IH _ _ Hc).
Qed.

Lemma contiguous_lookup start entries lens k e :
  contiguous start entries lens → entries !! k = Some e →
  offset e = (start + sum_Z_of (take k lens))%Z.
Proof.
  revert start lens k.
  induction entries as [|e0 entries IH]; intros start [|len lens] k; try done.
  intros (H0 & _ & Hrest). destruct k as [|k]; simpl.
  - intros [= <-]. lia.
  - intros He. rewrite (IH _ _ _ Hrest He). unfold sum_Z_of. simpl. lia.
Qed.

Lemma sum_Z_of_nonneg lens : Forall (λ len, (0 ≤ len)%Z) lens → (0 ≤ sum_Z_of lens)%Z.
Proof. unfold sum_Z_of. induction 1; simpl; lia. Qed.

(** The slices of contiguous entries make up the data that they cover. *)
Lemma contiguous_slices (all_data : bytes) start entries lens :
  contiguous start entries lens → (0 ≤ start)%Z →
  Forall (λ len, (0 ≤ len)%Z) lens →
  concat (zip_with (file_data_of all_data) entries lens)
  = take (Z.to_nat (sum_Z_of lens)) (drop (Z.to_nat start) all_data).
Proof.
  intros Hc Hstart Hlen. revert start entries Hc Hstart.
  induction Hlen as [|len lens Hl Hlen IH]; intros start [|e entries] Hc Hstart;
    try done.
  destruct Hc as (Ho & _ & Hc). cbn [zip_with concat].
  rewrite (IH _ _ Hc) by lia. unfold file_data_of.
  rewrite Ho, zslice_nonneg by done.
  pose proof (sum_Z_of_nonneg lens Hlen) as Hsum.
  unfold sum_Z_of in *. cbn [foldr].
  rewrite (Z2Nat.inj_add len), (Z2Nat.inj_add start) by lia.
  rewrite <-drop_drop. apply take_take_drop.
Qed.

Lemma contiguous_take start entries lens k :
  contiguous start entries lens → contiguous start (take k entries) (take k lens).
Proof.
  revert start entries lens. induction k as [|k IH]; intros start [|e entries] [|len lens];
    try done.
  intros (Ho & Hl & Hc). cbn. split_and!; [done | done |]. by apply IH.
Qed.

(** The manager that the constructor returns: its entries are
    contiguous from 0, and its total length is their sum, when the
    lengths are integers. *)
Lemma new_contiguous info base fm lens :
  new info base = Ok fm →
  map file_length (file_entries fm) = map BInt lens →
  contiguous 0 (file_entries fm) lens ∧ total_length fm = BInt (sum_Z_of lens).
Proof.
  unfold new. case_bool_decide as Hmulti.
  - destruct (getitem (BDict info) (b "name")) as [name|]; [|done].
    cbn [mbind result_bind].
    destruct (decode_utf8 name) as [root|]; [|done]. cbn [mbind result_bind].
    destruct (getitem (BDict info) (b "files")) as [files_value|]; [|done].
    cbn [mbind result_bind].
    destruct (iter files_value) as [file_infos|]; [|done]. cbn [mbind result_bind].
    destruct (_parse_file_list root file_infos 0) as [entries|] eqn:Hparse; [|done].
    cbn [mbind result_bind].
    destruct (_parse_file_list_contiguous _ _ _ _ Hparse) as (lens' & Hc & _).
    rewrite (sum_lengths_ints entries lens' 0) by (by eapply contiguous_lengths).
    cbn [mbind result_bind]. intros [= <-]. cbn [file_entries total_length].
    intros Hlens. rewrite (contiguous_lengths _ _ _ Hc) in Hlens.
    assert (lens' = lens) as ->.
    { clear -Hlens. revert lens Hlens.
      induction lens' as [|l lens' IH]; intros [|l' lens]; try done.
      intros [= -> Hrest]. f_equal. by apply IH. }
    split; [done|]. by rewrite foldl_add_sum.
  - destruct (getitem (BDict info) (b "name")) as [name|]; [|done].
    cbn [mbind result_bind].
    destruct (decode_utf8 name) as [root|]; [|done]. cbn [mbind result_bind].
    destruct (getitem (BDict info) (b "length")) as [length|]; [|done].
    cbn [mbind result_bind]. intros [= <-]. cbn [file_entries total_length map].
    destruct lens as [|len [|]]; try done. intros [= ->]. cbn.
    split; [done|]. f_equal. lia.
Qed.

End LayoutFacts.

Section Layout.
Import Py Bencode FileManager FileManagerFacts LayoutFacts.

(** X16.  The constructor returns exactly when the name is a byte string
    of UTF-8 and either there is no [files] and there is a [length], or
    every file of [files] is accepted: a [path] with a component at
    least, all of them byte strings of UTF-8, and an integer [length].  A
    missing name or a missing [length] is a [KeyError], a name that is not
    UTF-8 a [UnicodeDecodeError], and after files that are accepted a file
    without [path], with a component that is not UTF-8, with no component
    or without [length] raises [KeyError], [UnicodeDecodeError],
    [TypeError] and [KeyError].  On return there is an entry for each
    file, in order, or one entry for a single file; the first entry is at
    offset 0, each entry is where the one before it ends, and the total
    length is the sum of the lengths. *)
Theorem file_layout (info : list (bytes * bvalue)) (base : string) :
  ((∃ fm, new info base = Ok fm)
   ↔ (∃ name, dict_get info (b "name") = Some (BBytes name) ∧ utf8_valid name = true)
     ∧ match dict_get info (b "files") with
       | Some files_value =>
           ∃ file_infos, iter files_value = Ok file_infos ∧ Forall accepted file_infos
       | None => is_Some (dict_get info (b "length"))
       end)
  ∧ (dict_get info (b "name") = None → new info base = Raised (KeyError (b "name")))
  ∧ (∀ name, dict_get info (b "name") = Some (BBytes name) →
       (utf8_valid name = false → new info base = Raised UnicodeDecodeError)
       ∧ (utf8_valid name = true →
          (dict_get info (b "files") = None → dict_get info (b "length") = None →
           new info base = Raised (KeyError (b "length")))
          ∧ ∀ good rest d,
              dict_get info (b "files") = Some (BList (good ++ BDict d :: rest)) →
              Forall accepted good →
              (dict_get d (b "path") = None →
               new info base = Raised (KeyError (b "path")))
              ∧ (∀ parts, dict_get d (b "path") = Some (BList (map BBytes parts)) →
                   (Exists (λ part, utf8_valid part = false) parts →
                    new info base = Raised UnicodeDecodeError)
                   ∧ (parts = [] → new info base = Raised TypeError)
                   ∧ (parts ≠ [] → Forall (λ part, utf8_valid part = true) parts →
                      dict_get d (b "length") = None →
                      new info base = Raised (KeyError (b "length"))))))
  ∧ (∀ fm, new info base = Ok fm →
       match dict_get info (b "files") with
       | Some files_value =>
           ∃ file_infos lens,
             iter files_value = Ok file_infos
             ∧ Forall2 (λ file_info len,
                          getitem file_info (b "length") = Ok (BInt len))
                       file_infos lens
             ∧ map file_length (file_entries fm) = map BInt lens
             ∧ (∀ k e, file_entries fm !! k = Some e →
                       offset e = sum_Z_of (take k lens))
             ∧ total_length fm = BInt (sum_Z_of lens)
       | None =>
           ∃ length, dict_get info (b "length") = Some length
             ∧ file_entries fm
               = [{| path := root_name fm; file_length := length; offset := 0 |}]
             ∧ total_length fm = length
       end).
Proof.
  split_and!.
  - unfold new. cbn [getitem].
    destruct (dict_get info (b "files")) as [files_value|] eqn:Hfiles.
    + rewrite bool_decide_eq_true_2 by done.
      destruct (dict_get info (b "name")) as [name|] eqn:Hname;
        [|split; [by intros [] | by intros [[? []] _]]].
      cbn [mbind result_bind].
      destruct name as [|name| |]; cbn [decode_utf8];
        try (split; [by intros [] | by intros [(? & [=] & _) _]]).
      destruct (utf8_valid name) eqn:Hutf8;
        [|split; [by intros [] | intros [(? & [= <-] & ?) _]; congruence]].
      cbn [mbind result_bind].
      destruct (iter files_value) as [file_infos|] eqn:Hiter;
        [|split; [by intros [] | by intros [_ (? & [=] & _)]]].
      cbn [mbind result_bind].
      destruct (_parse_file_list _ file_infos 0) as [entries|] eqn:Hparse.
      * cbn [mbind result_bind].
        destruct (_parse_file_list_contiguous _ _ _ _ Hparse) as (lens & Hc & _).
        rewrite (sum_lengths_ints entries lens 0) by (by eapply contiguous_lengths).
        cbn [mbind result_bind]. split; [|by eexists].
        intros _. split; [by exists name|]. exists file_infos. split; [done|].
        eapply _parse_file_list_Ok. by eexists.
      * split; [by intros []|]. intros [_ (file_infos' & [= <-] & Hall)].
        eapply _parse_file_list_Ok in Hall as [entries Hentries].
        by rewrite Hparse in Hentries.
    + rewrite bool_decide_eq_false_2 by (by intros []).
      destruct (dict_get info (b "name")) as [name|] eqn:Hname;
        [|split; [by intros [] | by intros [[? []] _]]].
      cbn [mbind result_bind].
      destruct name as [|name| |]; cbn [decode_utf8];
        try (split; [by intros [] | by intros [(? & [=] & _) _]]).
      destruct (utf8_valid name) eqn:Hutf8;
        [|split; [by intros [] | intros [(? & [= <-] & ?) _]; congruence]].
      cbn [mbind result_bind].
      destruct (dict_get info (b "length")) as [length|] eqn:Hlength.
      * cbn. split; [|by eexists]. intros _. split; [by exists name | done].
      * split; [by intros [] | by intros [_ []]].
  - intros Hname. unfold new. cbn [getitem]. rewrite Hname. by case_bool_decide.
  - intros name Hname. split.
    + intros Hutf8. unfold new. cbn [getitem]. rewrite Hname. cbn [mbind result_bind].
      cbn [decode_utf8]. rewrite Hutf8. by case_bool_decide.
    + intros Hutf8. split.
      * intros Hfiles Hlength. unfold new. cbn [getitem].
        rewrite Hfiles, Hname, Hlength.
        rewrite bool_decide_eq_false_2 by (by intros []).
        cbn [mbind result_bind decode_utf8]. by rewrite Hutf8.
      * intros good rest d Hfiles Hgood.
        assert (Hnew : ∀ e,
                  (∀ o, _parse_file_list (text name) (BDict d :: rest) o = Raised e) →
                  new info base = Raised e).
        { intros e He. unfold new. cbn [getitem]. rewrite Hfiles, Hname.
          rewrite bool_decide_eq_true_2 by done.
          cbn [mbind result_bind decode_utf8]. rewrite Hutf8.
          cbn [mbind result_bind iter]. fold (text name).
          by rewrite (_parse_file_list_first _ good (BDict d) rest 0 e Hgood He). }
        split.
        { intros Hpath. apply Hnew. intros o. cbn [_parse_file_list getitem].
          by rewrite Hpath. }
        intros parts Hpath. split_and!.
        { intros Hbad. apply Hnew. intros o. cbn [_parse_file_list getitem].
          rewrite Hpath. cbn [mbind result_bind iter].
          destruct (decode_parts (map BBytes parts)) as [l|] eqn:Hl.
          - assert (Hall : Forall utf8_bytes (map BBytes parts))
              by (apply decode_parts_Ok; by eexists).
            apply Exists_exists in Hbad as (part & Hin & Hpart).
            rewrite Forall_forall in Hall.
            destruct (Hall (BBytes part)) as (s & [= <-] & Hs);
              [by apply list_elem_of_fmap_2 | congruence].
          - clear -Hl. induction parts as [|part parts IH]; [done|].
            cbn [map decode_parts decode_utf8] in Hl.
            destruct (utf8_valid part); [|by injection Hl as <-].
            cbn in Hl. destruct (decode_parts (map BBytes parts)); [done|].
            cbn in Hl. injection Hl as <-. by rewrite IH. }
        { intros ->. apply Hnew. intros o. cbn [_parse_file_list getitem].
          by rewrite Hpath. }
        { intros Hne Hparts Hlength. apply Hnew. intros o.
          cbn [_parse_file_list getitem]. rewrite Hpath. cbn [mbind result_bind iter].
          rewrite decode_parts_text by done. cbn [mbind result_bind].
          destruct parts as [|part parts]; [done|].
          cbn [map join_parts mbind result_bind]. by rewrite Hlength. }
  - intros fm. unfold new. cbn [getitem].
    destruct (dict_get info (b "files")) as [files_value|] eqn:Hfiles.
    + rewrite bool_decide_eq_true_2 by done.
      destruct (dict_get info (b "name")) as [name|]; [|done]. cbn [mbind result_bind].
      destruct (decode_utf8 name) as [root|]; [|done]. cbn [mbind result_bind].
      destruct (iter files_value) as [file_infos|]; [|done]. cbn [mbind result_bind].
      destruct (_parse_file_list root file_infos 0) as [entries|] eqn:Hparse; [|done].
      cbn [mbind result_bind].
      destruct (_parse_file_list_contiguous _ _ _ _ Hparse) as (lens & Hc & Hlens).
      rewrite (sum_lengths_ints entries lens 0) by (by eapply contiguous_lengths).
      cbn [mbind result_bind]. intros [= <-]. cbn [file_entries total_length].
      exists file_infos, lens. split_and!; [done | done | | |].
      * by eapply contiguous_lengths.
      * intros k e He. rewrite (contiguous_lookup 0 entries lens k e Hc He). lia.
      * by rewrite foldl_add_sum.
    + rewrite bool_decide_eq_false_2 by (by intros []).
      destruct (dict_get info (b "name")) as [name|]; [|done]. cbn [mbind result_bind].
      destruct (decode_utf8 name) as [root|]; [|done]. cbn [mbind result_bind].
      destruct (dict_get info (b "length")) as [length|]; [|done].
      cbn. intros [= <-]. by exists length.
Qed.

Definition two_files : list (bytes * bvalue) :=
  [(b "name", BBytes (b "root"));
   (b "files",
    BList [BDict [(b "length", BInt 3); (b "path", BList [BBytes (b "a")])];
           BDict [(b "length", BInt 4);
                  (b "path", BList [BBytes (b "d"); BBytes (b "b")])]])].

Lemma file_layout_witness :
  ∃ fm, new two_files "downloads" = Ok fm ∧ total_length fm = BInt 7.
Proof.
  eexists. split; [reflexivity|].
  destruct (proj2 (proj2 (proj2 (file_layout two_files "downloads"))) _ eq_refl)
    as (file_infos & lens & Hiter & Hlens & _ & _ & Htotal).
  injection Hiter as <-.
  inv Hlens. inv H3. inv H5. injection H1 as <-. injection H2 as <-. exact Htotal.
Defined.

(** X17.  When no length is negative, the files written hold, one after
    the other, a prefix of the pieces put together in the order of their
    indices, whatever the operating system refuses.  When [write_pieces]
    returns, they hold the first [total_length] bytes of the pieces, or
    all of them when there are fewer, and the count returned is the
    number of these bytes. *)
Theorem write_pieces_partition (info : list (bytes * bvalue)) (base : string)
    (fm : FileManager) (lens : list Z) (os : OS) (pieces_data : list (Z * bytes)) :
  new info base = Ok fm →
  map file_length (file_entries fm) = map BInt lens →
  Forall (λ len, (0 ≤ len)%Z) lens →
  let run := write_pieces os fm pieces_data [] in
  let contents := concat (map snd (written run.2)) in
  (∃ k, contents = take k (all_data pieces_data))
  ∧ ∀ n, run.1 = Ok n →
         contents = take (Z.to_nat (sum_Z_of lens)) (all_data pieces_data)
         ∧ total_length fm = BInt (sum_Z_of lens)
         ∧ n = Z.min (sum_Z_of lens) (Z.of_nat (List.length (all_data pieces_data))).
Proof.
  intros Hnew Hlens Hpos run contents.
  destruct (new_contiguous info base fm lens Hnew Hlens) as [Hc Htotal].
  subst contents run. unfold write_pieces.
  pose proof (create_directories_spec os fm []) as [Hdirs _].
  destruct (create_directories os fm []) as [[[]|e] performed]; cbn [fst snd] in *.
  - pose proof (write_files_spec os (base_output_dir fm) (all_data pieces_data)
                  (file_entries fm) lens 0 performed Hlens) as Hspec.
    cbv zeta in Hspec. rewrite Hdirs in Hspec.
    change (written []) with (@nil (string * bytes)) in Hspec. cbn [app] in Hspec.
    destruct Hspec as ((k & Hk) & Hok & _).
    assert (Hdata : ∀ entries lens',
              map snd (zip_with (λ file_info len,
                                   (join (base_output_dir fm) [path file_info],
                                    file_data_of (all_data pieces_data) file_info len))
                                entries lens')
              = zip_with (file_data_of (all_data pieces_data)) entries lens').
    { induction entries as [|e entries IH]; intros [|len lens']; try done.
      cbn. by rewrite IH. }
    split.
    + rewrite Hk, zip_with_take, Hdata.
      rewrite (contiguous_slices _ 0 _ _ (contiguous_take 0 _ _ k Hc))
        by (done || by apply Forall_take).
      rewrite drop_0. by eexists.
    + intros n Hn. destruct (Hok n Hn) as [Hw ->]. rewrite Hw, Hdata.
      rewrite (contiguous_slices _ 0 _ _ Hc) by done. rewrite drop_0.
      split_and!; [done | done |]. rewrite length_take.
      pose proof (sum_Z_of_nonneg lens Hpos). lia.
  - split; [|done]. exists 0. rewrite Hdirs. by rewrite take_0.
Qed.

Lemma write_pieces_partition_witness :
  ∃ fm, new two_files "downloads" = Ok fm
        ∧ concat (map snd (written (write_pieces permissive fm
                                      [(1%Z, b "defg"); (0%Z, b "abc")] []).2))
          = b "abcdefg".
Proof.
  eexists. split; [reflexivity|].
  destruct (write_pieces_partition two_files "downloads" _ [3; 4]%Z permissive
              [(1%Z, b "defg"); (0%Z, b "abc")] eq_refl eq_refl) as [_ Hok].
  - repeat constructor; lia.
  - exact (proj1 (Hok 7%Z eq_refl)).
Defined.

End Layout.

(** ** The pieces and the blocks of a download *)

Module GeometryFacts.
Import Py Downloader.

Definition sum_Z (l : list Z) : Z := foldr Z.add 0%Z l.

Lemma sum_Z_app l1 l2 : sum_Z (l1 ++ l2) = (sum_Z l1 + sum_Z l2)%Z.
Proof. unfold sum_Z. induction l1 as [|x l1 IH]; simpl; [done|]. rewrite IH. lia. Qed.

(** The sizes of the first [k] pieces, none of them the last. *)
Lemma full_pieces (total_length piece_length n : Z) (max_pieces : option Z) (k : nat) :
  (Z.of_nat k ≤ n - 1)%Z →
  sum_Z (map (λ i, piece_len total_length piece_length n max_pieces (Z.of_nat i))
             (seq 0 k))
  = (Z.of_nat k * piece_length)%Z.
Proof.
  induction k as [|k IH]; intros Hk; [done|].
  rewrite seq_S, map_app, sum_Z_app, IH by lia. cbn [map sum_Z foldr Nat.add].
  unfold piece_len. rewrite (proj2 (Z.eqb_neq _ _)) by lia. simpl. lia.
Qed.

(** The requests from an offset on. *)
Lemma blocks_from_spec (fuel : nat) (piece_len offset : Z) :
  (0 ≤ offset)%Z → (piece_len - offset ≤ Z.of_nat fuel)%Z →
  let requests := blocks_from fuel piece_len offset in
  sum_Z (map snd requests) = Z.max 0 (piece_len - offset)
  ∧ (∀ k r, requests !! k = Some r →
            r.1 = (offset + Z.of_nat k * BLOCK_SIZE)%Z
            ∧ r.2 = Z.min BLOCK_SIZE (piece_len - r.1)
            ∧ (0 < r.2)%Z
            ∧ (r.1 + r.2 ≤ piece_len)%Z).
Proof.
  revert offset. induction fuel as [|fuel IH]; intros offset Hoff Hfuel; simpl.
  - split; [unfold sum_Z; simpl; lia | done].
  - destruct (offset <? piece_len)%Z eqn:Hlt.
    + apply Z.ltb_lt in Hlt.
      set (block_size := Z.min BLOCK_SIZE (piece_len - offset)).
      assert (Hsize : (0 < block_size ≤ piece_len - offset)%Z)
        by (unfold block_size, BLOCK_SIZE; lia).
      destruct (IH (offset + block_size)%Z ltac:(lia) ltac:(lia)) as [Hsum Hat].
      split.
      * cbn [map snd]. unfold sum_Z in *. cbn [foldr]. rewrite Hsum. lia.
      * intros [|k] r; cbn [lookup list_lookup].
        -- intros [= <-]. cbn [fst snd]. fold block_size. lia.
        -- intros Hr. destruct (Hat k r Hr) as (H1 & H2 & H3 & H4).
           split_and!; try done. rewrite Nat2Z.inj_succ.
           unfold block_size, BLOCK_SIZE in *. lia.
    + apply Z.ltb_ge in Hlt. split; [unfold sum_Z; simpl; lia | done].
Qed.

End GeometryFacts.

Section Geometry.
Import Py PeerProtocol Downloader GeometryFacts.

(** X18.  A piece length of zero is a division by zero.  For a positive
    piece length and no limit, the number of pieces is the total length
    divided by the piece length, rounded up; every piece is asked with a
    size between 1 and the piece length, and the sizes add up to the
    total length.  With a limit given, also one that does not bind, every
    piece is asked with the full piece length, the last one too. *)
Theorem piece_geometry (total_length piece_length : Z) (max_pieces : option Z) :
  num_pieces total_length 0 max_pieces = None
  ∧ ((0 < piece_length)%Z → (0 ≤ total_length)%Z →
     ∃ n, num_pieces total_length piece_length None = Some n
          ∧ (piece_length * (n - 1) < total_length ≤ piece_length * n
             ∨ total_length = 0%Z ∧ n = 0%Z)%Z
          ∧ (∀ i, (0 ≤ i < n)%Z →
                  (0 < piece_len total_length piece_length n None i ≤ piece_length)%Z)
          ∧ sum_Z (map (λ i, piece_len total_length piece_length n None (Z.of_nat i))
                       (seq 0 (Z.to_nat n)))
            = total_length)
  ∧ (∀ limit n i, piece_len total_length piece_length n (Some limit) i = piece_length).
Proof.
  split_and!; [done| |].
  2:{ intros limit n i. unfold piece_len.
      rewrite bool_decide_eq_false_2 by done. by rewrite andb_false_r. }
  intros Hp Ht. unfold num_pieces. rewrite (proj2 (Z.eqb_neq _ _)) by lia.
  set (n := ((total_length + piece_length - 1) / piece_length)%Z).
  assert (Hn : (piece_length * n ≤ total_length + piece_length - 1
                < piece_length * n + piece_length)%Z).
  { pose proof (Z.div_mod (total_length + piece_length - 1) piece_length ltac:(lia)).
    pose proof (Z.mod_pos_bound (total_length + piece_length - 1) piece_length Hp).
    fold n in H. lia. }
  assert (Hn0 : (0 ≤ n)%Z) by nia.
  exists n. split_and!; [done | | |].
  - destruct (decide (total_length = 0%Z)) as [->|Hne].
    + right. split; [done|]. nia.
    + left. nia.
  - intros i Hi. unfold piece_len. rewrite bool_decide_eq_true_2 by done.
    destruct (i =? n - 1)%Z eqn:Hlast; simpl.
    + apply Z.eqb_eq in Hlast. subst i. nia.
    + lia.
  - destruct (decide (n = 0%Z)) as [Hz|Hnz].
    + rewrite Hz. simpl. unfold sum_Z. simpl. rewrite Hz in Hn. lia.
    + replace (Z.to_nat n) with (S (Z.to_nat (n - 1))) by lia.
      rewrite seq_S, map_app, sum_Z_app, full_pieces by lia.
      cbn [map sum_Z foldr Nat.add]. unfold piece_len.
      rewrite (proj2 (Z.eqb_eq _ _)) by lia. rewrite bool_decide_eq_true_2 by done.
      simpl. lia.
Qed.

Lemma piece_geometry_witness :
  ∃ n, num_pieces 100000 32768 None = Some n
       ∧ sum_Z (map (λ i, piece_len 100000 32768 n None (Z.of_nat i))
                    (seq 0 (Z.to_nat n)))
         = 100000%Z.
Proof.
  destruct (proj1 (proj2 (piece_geometry 100000 32768 None)) ltac:(lia) ltac:(lia))
    as (n & Hn & _ & _ & Hsum).
  by exists n.
Defined.

(** X19.  The block loop asks for nothing when the size of the piece is
    not positive.  Otherwise request [k] is at offset [k * 16384], for
    16384 bytes or what is left of the piece when that is less; every
    request is for a byte at least and stays within the piece, and the
    sizes add up to the size of the piece.  When the index, and the size
    of the piece, fit in 32 bits, a message is built for every
    request. *)
Theorem block_requests_cover (piece_len piece_index : Z) :
  let requests := block_requests piece_len in
  sum_Z (map snd requests) = Z.max 0 piece_len
  ∧ (∀ k r, requests !! k = Some r →
            r.1 = (Z.of_nat k * BLOCK_SIZE)%Z
            ∧ r.2 = Z.min BLOCK_SIZE (piece_len - r.1)
            ∧ (0 < r.2)%Z
            ∧ (r.1 + r.2 ≤ piece_len)%Z)
  ∧ ((0 ≤ piece_index < 2 ^ 32)%Z → (piece_len ≤ 2 ^ 32)%Z →
     Forall (λ r, is_Some (create_request piece_index r.1 r.2)) requests).
Proof.
  intros requests. subst requests. unfold block_requests.
  destruct (blocks_from_spec (Z.to_nat piece_len) piece_len 0 ltac:(lia) ltac:(lia))
    as [Hsum Hat].
  rewrite Z.sub_0_r in Hsum. split_and!; [done | |].
  - intros k r Hr. destruct (Hat k r Hr) as (H1 & H2 & H3 & H4). by rewrite Z.add_0_l in H1.
  - intros Hindex Hlen. apply Forall_forall. intros r Hr.
    apply list_elem_of_lookup_1 in Hr as [k Hr].
    destruct (Hat k r Hr) as (H1 & H2 & H3 & H4).
    assert (Hsome : ∀ x, (0 ≤ x < 2 ^ 32)%Z → ∃ p, pack_be32 x = Some p).
    { intros x Hx. destruct (ProtocolFacts.pack_be32_Some x Hx) as (p & -> & _). by eexists. }
    destruct (Hsome piece_index Hindex) as [pi Hpi].
    destruct (Hsome r.1) as [po Hpo]; [unfold BLOCK_SIZE in *; lia|].
    destruct (Hsome r.2) as [pl Hpl]; [unfold BLOCK_SIZE in *; lia|].
    unfold create_request, pack_be32_3. rewrite Hpi, Hpo, Hpl. simpl.
    destruct (ProtocolFacts.create_message_Some "006"%char (pi ++ po ++ pl))
      as (p & _ & Hmsg).
    + rewrite !length_app.
      rewrite (FramingFacts.pack_length _ _ Hpi), (FramingFacts.pack_length _ _ Hpo),
        (FramingFacts.pack_length _ _ Hpl). simpl. lia.
    + change (Z.of_N (ord "006"%char)) with 6%Z in Hmsg. by rewrite Hmsg.
Qed.

Lemma block_requests_cover_witness :
  Forall (λ r, is_Some (create_request 7 r.1 r.2)) (block_requests 40000).
Proof.
  apply (block_requests_cover 40000 7); lia.
Defined.

End Geometry.

Module RunFacts.
Import Py TrackerHTTP PeerProtocol Downloader DictFacts SortedFacts.

(** *** The plain downloader *)

Lemma try_peers_verified sha1 peers expected_hash net data net' :
  Download.try_peers sha1 peers expected_hash net = (Some data, net') →
  sha1 data = expected_hash.
Proof.
  revert net. induction peers as [|peer rest IH]; intros net; simpl; [done|].
  destruct (mjoin (head net)) as [piece_data|]; [|apply IH].
  unfold Download.verify_piece. case_bool_decide as Hhash; [|apply IH].
  by intros [= <- _].
Qed.

Lemma try_peers_none sha1 expected_hash net :
  Download.try_peers sha1 [] expected_hash net = (None, net).
Proof. done. Qed.

Lemma download_from_spec sha1 count piece_idx pieces_hashes peers net downloaded pieces :
  Download.download_from sha1 count piece_idx pieces_hashes peers net downloaded
  = Some pieces →
  ∃ new, pieces = downloaded ++ new
         ∧ length new = count
         ∧ ∀ k data, new !! k = Some data →
             sha1 data = zslice pieces_hashes ((piece_idx + Z.of_nat k) * 20)
                                ((piece_idx + Z.of_nat k + 1) * 20).
Proof.
  revert piece_idx net downloaded.
  induction count as [|count IH]; intros piece_idx net downloaded; simpl.
  - intros [= <-]. exists []. by rewrite app_nil_r.
  - destruct (Download.try_peers _ _ _ _) as [[data|] net'] eqn:Htry; [|done].
    apply try_peers_verified in Htry.
    intros (new & -> & Hlen & Hat)%IH. exists (data :: new).
    split_and!; [by rewrite <-app_assoc | simpl; lia |].
    intros [|k] data'; simpl.
    + intros [= <-]. by rewrite Z.add_0_r.
    + intros Hk. rewrite (Hat k data' Hk). f_equal; lia.
Qed.

(** *** The buffer of the pieces *)

Section Buffer.
Context (sha1 : bytes → bytes).

(** The set of the pieces downloaded is the set of the keys of the
    buffer, no key is twice in it, and a key is the piece of a task. *)
Definition indexed (tasks : list (Peer * Z)) (st : State) : Prop :=
  NoDup (map fst (pieces_data st))
  ∧ (∀ i, i ∈ pieces_downloaded st ↔ i ∈ map fst (pieces_data st))
  ∧ (∀ i, i ∈ map fst (pieces_data st) → i ∈ map snd tasks).

Lemma try_peers_step attempts first3 peer expected_hash piece_idx st net :
  let r := try_peers sha1 attempts first3 peer expected_hash piece_idx st net in
  r.1.1 = st
  ∨ ∃ data, r.1.1 = {| pieces_data := dict_set (pieces_data st) piece_idx data;
                       pieces_downloaded := {[piece_idx]} ∪ pieces_downloaded st |}.
Proof.
  revert net. induction attempts as [|attempt_peer rest IH]; intros net;
    cbn [try_peers]; [by left|].
  destruct (bool_decide (attempt_peer = peer) || bool_decide (attempt_peer ∈ first3));
    [|exact (IH net)].
  destruct net as [|[[|c data]|] net]; cbn [head tail mjoin option_join];
    try exact (IH _).
  case_bool_decide as Hhash; [|exact (IH _)].
  right. by exists (c :: data).
Qed.

Lemma download_pieces_indexed pieces_hashes peers_list tasks done_tasks st net :
  indexed done_tasks st →
  indexed (done_tasks ++ tasks)
          (download_pieces sha1 pieces_hashes peers_list tasks st net).
Proof.
  revert done_tasks st net.
  induction tasks as [|[peer piece_idx] tasks IH]; intros done_tasks st net Hst; simpl.
  { by rewrite app_nil_r. }
  unfold download_and_verify_piece.
  pose proof (try_peers_step peers_list (zprefix peers_list 3) peer
                (zslice pieces_hashes (piece_idx * 20) ((piece_idx + 1) * 20))
                piece_idx st net) as Hstep.
  cbv zeta in Hstep.
  destruct (try_peers _ _ _ _ _ _ _ _) as [[st' ok] net']. simpl in Hstep.
  rewrite (cons_middle (peer, piece_idx)), app_assoc. apply IH.
  destruct Hst as (Hnd & Hset & Htasks).
  destruct Hstep as [->|[data ->]]; split_and!; cbn [pieces_data pieces_downloaded].
  - done.
  - done.
  - intros i Hi. rewrite map_app, elem_of_app. left. by apply Htasks.
  - by apply dict_set_NoDup.
  - intros i. rewrite dict_set_keys, elem_of_union, elem_of_singleton, Hset.
    case_decide as Hin.
    + split; [intros [->|?]; done | by right].
    + rewrite elem_of_app, list_elem_of_singleton. tauto.
  - intros i. rewrite dict_set_keys, map_app, elem_of_app. cbn [map snd].
    rewrite list_elem_of_singleton.
    case_decide as Hin.
    + intros Hi. left. by apply Htasks.
    + rewrite elem_of_app, list_elem_of_singleton. intros [Hi| ->]; [|by right].
      left. by apply Htasks.
Qed.

End Buffer.

Lemma sorted_Z_increasing (keys : list Z) :
  NoDup keys → StronglySorted Z.lt (sorted Z.ltb id keys).
Proof.
  intros Hnd.
  assert (Hle : StronglySorted Z.le (sorted Z.ltb id keys)).
  { eapply StronglySorted_impl; [|apply (sorted_StronglySorted Z.ltb id)].
    - intros x y. unfold may_precede. simpl. rewrite Z.ltb_ge. done.
    - intros x y. rewrite Z.ltb_lt, Z.ltb_ge. lia.
    - intros x y z. rewrite !Z.ltb_ge. lia. }
  assert (Hnd' : NoDup (sorted Z.ltb id keys)) by (by rewrite sorted_Permutation).
  induction Hle as [|x l Hl IH Hx]; [constructor|].
  apply NoDup_cons in Hnd' as [Hx' Hnd']. constructor; [by apply IH|].
  rewrite Forall_forall in Hx |- *. intros y Hy.
  destruct (decide (x = y)) as [->|Hne]; [done|]. specialize (Hx y Hy). lia.
Qed.

(** *** The response to the handshake *)

Lemma read_handshake_stream fuel sock response :
  Forall (λ segment, segment ≠ []) sock →
  length response ≤ 68 → 68 ≤ length (response ++ concat sock) →
  68 - length response ≤ fuel →
  ∃ sock', read_handshake fuel sock response
           = Some (inr (take 68 (response ++ concat sock), sock'))
           ∧ concat sock' = drop 68 (response ++ concat sock)
           ∧ Forall (λ segment, segment ≠ []) sock'.
Proof.
  revert sock response.
  induction fuel as [|fuel IH]; intros sock response Hsock Hle Htotal Hfuel.
  - assert (Hlen : length response = 68) by lia.
    simpl. rewrite Hlen. simpl. exists sock.
    rewrite take_app_length', drop_app_length' by done. done.
  - cbn [read_handshake]. destruct (68 <=? length response) eqn:Hfull.
    + apply Nat.leb_le in Hfull. assert (Hlen : length response = 68) by lia.
      exists sock. rewrite take_app_length', drop_app_length' by done. done.
    + apply Nat.leb_gt in Hfull.
      destruct sock as [|segment rest].
      { simpl in Htotal. rewrite app_nil_r in Htotal. lia. }
      apply Forall_cons in Hsock as [Hsegment Hrest].
      set (n := 68 - length response).
      destruct segment as [|c segment]; [done|].
      assert (Hrecv : recv ((c :: segment) :: rest) n
                      = Received (take n (c :: segment))
                          (if bool_decide (drop n (c :: segment) = []) then rest
                           else drop n (c :: segment) :: rest)) by done.
      rewrite Hrecv.
      assert (Hdata : take n (c :: segment) = c :: take (n - 1) segment).
      { replace n with (S (n - 1)) at 1 by lia. done. }
      destruct (take n (c :: segment)) as [|d data] eqn:Htake; [done|].
      rewrite <-Htake. clear Hdata. assert (Hdata : 1 ≤ length (take n (c :: segment)))
        by (rewrite Htake; simpl; lia).
      set (sock1 := if bool_decide (drop n (c :: segment) = []) then rest
                    else drop n (c :: segment) :: rest).
      assert (Hconcat : concat sock1 = drop n (c :: segment) ++ concat rest).
      { unfold sock1. case_bool_decide as Hdrop; [by rewrite Hdrop|done]. }
      assert (Hsock1 : Forall (λ segment, segment ≠ []) sock1).
      { unfold sock1. case_bool_decide as Hdrop; [done|]. by constructor. }
      assert (Hsame : (response ++ take n (c :: segment)) ++ concat sock1
                      = response ++ concat ((c :: segment) :: rest)).
      { rewrite Hconcat, <-app_assoc. cbn [concat]. f_equal.
        by rewrite app_assoc, take_drop. }
      destruct (IH sock1 (response ++ take n (c :: segment))) as (sock' & Hread & Hc & Hf);
        try done.
      * rewrite length_app, length_take. lia.
      * rewrite Hsame. done.
      * rewrite length_app. lia.
      * exists sock'. rewrite Hsame in Hread, Hc. done.
Qed.

End RunFacts.

Section Run.
Import Py TrackerHTTP PeerProtocol Downloader DictFacts SortedFacts RunFacts.

(** X20.  When [download_file] of the plain downloader ends without an
    exception, the bytes it writes are the pieces 0, 1, ... up to the
    number of pieces, in this order and none missing, and each piece has
    the digest expected at its index.  With no peer and a piece to get it
    raises. *)
Theorem download_file_verified (sha1 : bytes → bytes) (num_pieces : Z)
    (pieces_hashes : bytes) (peers : list Peer) (net : list (option bytes)) :
  (∀ output, Download.download_file sha1 num_pieces pieces_hashes peers net = Some output →
     ∃ pieces, output = concat pieces
       ∧ length pieces = Z.to_nat num_pieces
       ∧ ∀ k data, pieces !! k = Some data →
           sha1 data = zslice pieces_hashes (Z.of_nat k * 20) ((Z.of_nat k + 1) * 20))
  ∧ ((0 < num_pieces)%Z →
     Download.download_file sha1 num_pieces pieces_hashes [] net = None).
Proof.
  split.
  - intros output. unfold Download.download_file.
    destruct (Download.download_from _ _ _ _ _ _ _) as [pieces|] eqn:Hrun; [|done].
    intros [= <-]. apply download_from_spec in Hrun as (new & -> & Hlen & Hat).
    exists new. split_and!; [done | done |].
    intros k data Hk. rewrite (Hat k data Hk). by rewrite Z.add_0_l.
  - intros Hpos. unfold Download.download_file.
    destruct (Z.to_nat num_pieces) as [|n] eqn:Hn; [lia|]. done.
Qed.

(** Two pieces from two peers, with the first 20 bytes of a piece for
    its digest: the answer of the first peer for piece 0 does not have
    the digest expected and is dropped, that of the second peer has it;
    the first peer then gives piece 1. *)
Definition two_hashes : bytes := replicate 20 "a"%char ++ replicate 20 "b"%char.

Definition two_peers : list Peer :=
  [{| peer_ip := "10.0.0.1"; peer_port := 6881 |};
   {| peer_ip := "10.0.0.2"; peer_port := 6881 |}].

Lemma download_file_verified_witness :
  (∃ pieces,
     replicate 20 "a"%char ++ b "x" ++ replicate 20 "b"%char = concat pieces
     ∧ length pieces = 2
     ∧ ∀ k data, pieces !! k = Some data →
         take 20 data = zslice two_hashes (Z.of_nat k * 20) ((Z.of_nat k + 1) * 20))
  ∧ Download.download_file (take 20) 1 (b "only twenty bytes !!") [] [] = None.
Proof.
  split.
  - apply (proj1 (download_file_verified (take 20) 2 two_hashes two_peers
                    [Some (b "not the piece");
                     Some (replicate 20 "a"%char ++ b "x");
                     Some (replicate 20 "b"%char)])).
    reflexivity.
  - apply (download_file_verified (take 20) 1 (b "only twenty bytes !!") [] []). lia.
Defined.

(** X21.  After any run of the optimized downloader, the set of the
    pieces downloaded is the set of the indices held in the buffer, and
    every one of them is the piece of a task.  [save_file] writes the
    pieces held, each once, in the increasing order of their indices; it
    leaves no room for a piece that is missing. *)
Theorem save_file_in_order (sha1 : bytes → bytes) (pieces_hashes : bytes)
    (peers_list : list Peer) (tasks : list (Peer * Z)) (net : list (option bytes)) :
  let st := download_pieces sha1 pieces_hashes peers_list tasks initial net in
  (∀ i, i ∈ pieces_downloaded st ↔ is_Some (dict_get (pieces_data st) i))
  ∧ (∀ i, i ∈ pieces_downloaded st → i ∈ map snd tasks)
  ∧ ∃ order,
      order ≡ₚ map fst (pieces_data st)
      ∧ StronglySorted Z.lt order
      ∧ save_file st
        = concat (map (λ i, default [] (dict_get (pieces_data st) i)) order).
Proof.
  intros st.
  pose proof (download_pieces_indexed sha1 pieces_hashes peers_list tasks [] initial net)
    as (Hnd & Hset & Htasks).
  { split_and!; [constructor | | ]; simpl.
    - intros i. split; [by intros ?%not_elem_of_empty | by intros ?%elem_of_nil].
    - by intros i ?%elem_of_nil. }
  fold st in Hnd, Hset, Htasks. simpl in Htasks. split_and!.
  - intros i. by rewrite Hset, dict_get_is_Some.
  - intros i Hi. by apply Htasks, Hset.
  - exists (sorted Z.ltb id (map fst (pieces_data st))). split_and!.
    + apply sorted_Permutation.
    + by apply sorted_Z_increasing.
    + done.
Qed.

(** X22.  When the segments that arrive hold 68 bytes or more, none of
    them empty, the loop that reads the handshake returns the first 68
    bytes, however they are cut into segments, and leaves the bytes
    after them on the socket for the messages; the session then goes on
    or ends as [parse_handshake] decides on these 68 bytes. *)
Theorem handshake_stream (our_info_hash our_peer_id : bytes) (sock : list bytes) :
  Forall (λ segment, segment ≠ []) sock → 68 ≤ length (concat sock) →
  ∃ sock',
    read_handshake 68 sock [] = Some (inr (take 68 (concat sock), sock'))
    ∧ concat sock' = drop 68 (concat sock)
    ∧ (handshake_phase our_info_hash our_peer_id sock).2
      = Some match parse_handshake (take 68 (concat sock)) with
             | inl e => inl (BadHandshake e)
             | inr _ => inr sock'
             end.
Proof.
  intros Hsock Hlen.
  destruct (read_handshake_stream 68 sock [] Hsock) as (sock' & Hread & Hrest & _);
    [cbn [length]; lia | done | cbn [length]; lia |].
  rewrite app_nil_l in Hread, Hrest. exists sock'. split_and!; [done | done |].
  unfold handshake_phase. cbn [snd]. rewrite Hread. cbn [mbind option_bind].
  unfold check_handshake. by destruct (parse_handshake _).
Qed.

Lemma handshake_stream_witness :
  ∃ sock',
    read_handshake 68 [b "abc"; replicate 60 "x"%char; b "0123456789"] []
    = Some (inr (take 68 (b "abc" ++ replicate 60 "x"%char ++ b "0123456789"), sock'))
    ∧ concat sock' = b "56789".
Proof.
  destruct (handshake_stream [] [] [b "abc"; replicate 60 "x"%char; b "0123456789"])
    as (sock' & Hread & Hrest & _).
  - repeat constructor; discriminate.
  - vm_compute. lia.
  - exists sock'. split; [exact Hread | exact Hrest].
Defined.

End Run.

(** ** Dictionaries that are not canonical *)

Module LenientFacts.
Import Py Bencode DictFacts StrFacts BvalueFacts DecodeFacts ParserFacts.

(** An entry on the wire: the key as a byte string, then the value. *)
Definition wire_entry (kv : bytes * bvalue) : bytes :=
  encode (BBytes kv.1) ++ encode kv.2.

(** The dict after the assignments [result[key] = value], in order. *)
Definition assign_all (result es : list (bytes * bvalue)) : list (bytes * bvalue) :=
  foldl (λ d kv, dict_set d kv.1 kv.2) result es.

Lemma dict_loop_entries (es : list (bytes * bvalue)) :
  Forall (λ kv, decodes_back kv.2) es →
  ∃ es', Forall2 (λ kv' kv, kv'.1 = kv.1 ∧ py_eq kv'.2 kv.2 = true) es' es
         ∧ ∀ pre rest result f,
             2 * length (concat (map wire_entry es)) + 2 ≤ f →
             dict_loop f (pre ++ concat (map wire_entry es) ++ "e"%char :: rest)
                       (length pre) result
             = Done (assign_all result es',
                     length pre + length (concat (map wire_entry es)) + 1).
Proof.
  induction 1 as [|[k v] es (v' & Heq & Hv) _ (es' & Hes' & IH)].
  - exists []. split; [constructor|]. intros pre rest result [|f] Hf; [lia|].
    rewrite dict_loop_S. cbn [map concat app length].
    rewrite (proj2 (Nat.leb_gt _ _)) by (rewrite length_app; simpl; lia).
    rewrite at_is_middle, bool_decide_eq_true_2 by done.
    do 2 f_equal. lia.
  - exists ((k, v') :: es'). split; [by constructor|].
    intros pre rest result [|f] Hf; [lia|].
    cbn [map concat] in *. unfold wire_entry at 1 in Hf. unfold wire_entry at 1.
    cbn [encode fst snd] in *. rewrite !length_app in Hf.
    destruct (encode_bytes_head k) as (c & s & Hc & Hdigit).
    rewrite dict_loop_S.
    rewrite (proj2 (Nat.leb_gt _ _)) by (rewrite !length_app, Hc; simpl; lia).
    rewrite <-!app_assoc.
    rewrite (at_is_head _ _ _ _ _ _ Hc).
    rewrite bool_decide_eq_false_2
      by (apply is_digit_neq; [done | right; reflexivity]).
    rewrite _parse_bytestring_encoded. cbn [mbind outcome_bind].
    replace (length pre + length (encode_bytes k))
      with (length (pre ++ encode_bytes k)) by (by rewrite length_app).
    rewrite (app_assoc pre). rewrite Hv by lia. cbn [mbind outcome_bind].
    replace (length (pre ++ encode_bytes k) + length (encode v))
      with (length ((pre ++ encode_bytes k) ++ encode v))
      by (by rewrite (length_app _ (encode v))).
    rewrite (app_assoc (pre ++ encode_bytes k)).
    rewrite IH by (rewrite Hc in Hf; simpl in Hf; lia).
    cbn [assign_all foldl fst snd]. do 2 f_equal.
    unfold wire_entry at 2. cbn [encode fst snd]. rewrite !length_app. lia.
Qed.

Lemma dict_get_snoc {V} (d : list (bytes * V)) (k0 k : bytes) (v : V) :
  dict_get (d ++ [(k0, v)]) k
  = match dict_get d k with
    | Some x => Some x
    | None => if bool_decide (k0 = k) then Some v else None
    end.
Proof.
  induction d as [|[k' x] d IH]; cbn [app dict_get]; [done|].
  destruct (bool_decide (k' = k)); [done | exact IH].
Qed.

(** The last assignment to a key stands. *)
Lemma dict_get_assign_all (result es : list (bytes * bvalue)) (k : bytes) :
  dict_get (assign_all result es) k
  = match dict_get (reverse es) k with
    | Some v => Some v
    | None => dict_get result k
    end.
Proof.
  revert result. induction es as [|[k0 v] es IH]; intros result; [done|].
  cbn [assign_all foldl fst snd]. fold (assign_all (dict_set result k0 v) es).
  rewrite IH, reverse_cons, dict_get_snoc.
  destruct (dict_get (reverse es) k); [done|].
  case_bool_decide as Hk.
  - subst. apply dict_get_set_eq.
  - by apply dict_get_set_ne.
Qed.

Lemma dict_get_related (es' es : list (bytes * bvalue)) (k : bytes) :
  Forall2 (λ kv' kv, kv'.1 = kv.1 ∧ py_eq kv'.2 kv.2 = true) es' es →
  match dict_get es' k, dict_get es k with
  | Some v', Some v => py_eq v' v = true
  | None, None => True
  | _, _ => False
  end.
Proof.
  induction 1 as [|[k' v'] [k0 v] es' es [Hk Hv] _ IH]; simpl in *; [done|].
  subst. by case_bool_decide.
Qed.

End LenientFacts.

Section Lenient.
Import Py Bencode DictFacts BvalueFacts DecodeFacts ParserFacts LenientFacts.

(** X23.  The decoder does not ask for canonical dictionaries: [d], then
    entries with their keys in any order and repeated at will, then [e],
    decodes to a dictionary in which every key has the value of its last
    entry. *)
Theorem decode_dict_any_order (es : list (bytes * bvalue)) :
  Forall (λ kv, wf kv.2) es →
  ∃ d, decode (b "d" ++ concat (map wire_entry es) ++ b "e") = Done (BDict d)
       ∧ ∀ k, match dict_get d k, dict_get (reverse es) k with
              | Some v', Some v => py_eq v' v = true
              | None, None => True
              | _, _ => False
              end.
Proof.
  intros Hwf.
  destruct (dict_loop_entries es) as (es' & Hes' & Hloop).
  { eapply Forall_impl; [exact Hwf|]. intros kv. apply decodes_back_all. }
  exists (assign_all [] es'). split.
  - unfold decode, budget. cbn [b list_ascii_of_string app].
    set (body := concat (map wire_entry es)).
    set (data := "d"%char :: body ++ ["e"%char]).
    assert (Hlen : length data = length body + 2)
      by (unfold data; cbn [length]; rewrite length_app; simpl; lia).
    replace (2 * length data + 1) with (S (2 * length data)) by lia.
    rewrite _parse_value_S.
    rewrite (proj2 (Nat.leb_gt _ _)) by lia.
    unfold at_is. cbn [data lookup list_lookup].
    rewrite !bool_decide_eq_false_2, bool_decide_eq_true_2 by done.
    pose proof (Hloop ["d"%char] [] [] (2 * length data)) as Hrun.
    change (["d"%char] ++ concat (map wire_entry es) ++ ["e"%char]) with data in Hrun.
    change (length ["d"%char]) with (0 + 1) in Hrun. fold body in Hrun.
    rewrite Hrun by lia. cbn [mbind outcome_bind].
    by rewrite (proj2 (Nat.eqb_eq _ _)) by lia.
  - intros k. rewrite dict_get_assign_all. cbn [dict_get].
    pose proof (dict_get_related (reverse es') (reverse es) k (Forall2_reverse _ _ _ Hes'))
      as Hrel.
    by destruct (dict_get (reverse es') k), (dict_get (reverse es) k).
Qed.

Lemma decode_dict_any_order_witness :
  ∃ d, decode (b "d1:bi1e1:ai2e1:bi3ee") = Done (BDict d)
       ∧ match dict_get d (b "b") with Some v' => py_eq v' (BInt 3) = true | None => False end.
Proof.
  destruct (decode_dict_any_order [(b "b", BInt 1); (b "a", BInt 2); (b "b", BInt 3)])
    as (d & Hdec & Hlast).
  - by repeat constructor.
  - exists d. split; [exact Hdec | exact (Hlast (b "b"))].
Defined.

End Lenient.

(** ** Re-evaluations that follow each other *)

Module StabilityFacts.
Import Py PeerManager DictFacts SortedFacts ChokingFacts.

Lemma insert_sorted_fmap {A K} (ltb : K → K → bool) (key : A → K) (f : A → A) x l :
  (∀ x, key (f x) = key x) →
  insert_sorted ltb key (f x) (map f l) = map f (insert_sorted ltb key x l).
Proof.
  intros key_f. induction l as [|y l IH]; simpl; [done|]. rewrite !key_f.
  destruct (ltb (key y) (key x)); simpl; [by rewrite IH | done].
Qed.

Lemma sorted_fmap {A K} (ltb : K → K → bool) (key : A → K) (f : A → A) l :
  (∀ x, key (f x) = key x) →
  sorted ltb key (map f l) = map f (sorted ltb key l).
Proof.
  intros key_f. induction l as [|x l IH]; simpl; [done|].
  by rewrite IH, insert_sorted_fmap.
Qed.

Lemma filter_fmap {A} (P : A → Prop) `{∀ x, Decision (P x)} (f : A → A) (l : list A) :
  (∀ x, P (f x) ↔ P x) → filter P (map f l) = map f (filter P l).
Proof.
  intros HP. induction l as [|x l IH]; [done|]. cbn [map].
  rewrite !filter_cons. pose proof (HP x).
  destruct (decide (P (f x))), (decide (P x)); cbn [map]; rewrite ?IH; tauto || done.
Qed.

Lemma zslice_fmap {A} (f : A → A) (l : list A) (lo hi : Z) :
  zslice (map f l) lo hi = map f (zslice l lo hi).
Proof. unfold zslice, slice. by rewrite length_map, fmap_take, fmap_drop. Qed.

Lemma zindex_fmap {A} (f : A → A) (l : list A) (k : Z) :
  zindex (map f l) k = f <$> zindex l k.
Proof.
  unfold zindex. rewrite length_map.
  destruct (k <? 0)%Z; [destruct (_ <? 0)%Z; [done|]|]; apply list_lookup_fmap.
Qed.

(** Writing the choke flags changes neither the candidates nor their
    rates. *)
Lemma interested_choked (m0 m : PeerManager) unchoked :
  peers m0 = map (choke_all_but unchoked) (peers m) →
  interested m0 = map (choke_all_but unchoked) (interested m).
Proof. intros Hpeers. unfold interested. rewrite Hpeers. by apply filter_fmap. Qed.

Lemma by_rate_choked unchoked l :
  by_rate (map (choke_all_but unchoked) l) = map (choke_all_but unchoked) (by_rate l).
Proof. unfold by_rate. by apply sorted_fmap. Qed.

(** The flags written for a list of peers are those written for the same
    peers after the flags were written. *)
Lemma choke_all_but_again unchoked e :
  choke_all_but (map (choke_all_but unchoked) unchoked) (choke_all_but unchoked e)
  = choke_all_but unchoked e.
Proof.
  unfold choke_all_but at 1 3. cbn [fst snd]. f_equal.
  by rewrite <-list_fmap_compose.
Qed.

Lemma finish_again m unchoked :
  finish (finish m unchoked).1 (map (choke_all_but unchoked) unchoked)
  = finish m unchoked.
Proof.
  unfold finish. cbn [fst snd peers with_peers]. f_equal.
  - f_equal. rewrite <-list_fmap_compose. apply list_fmap_ext.
    intros i e _. apply choke_all_but_again.
  - rewrite <-list_fmap_compose. apply list_fmap_ext.
    intros i e _. apply choke_all_but_again.
Qed.

(** The re-evaluation before the timer has run out. *)
Lemma recalculate_choking_in_time m now choice :
  interested m ≠ [] →
  Qltb (optimistic_unchoke_interval m) (now - last_optimistic_unchoke m) = false →
  recalculate_choking m now choice
  = let sorted_peers := by_rate (interested m) in
    let unchoked := zprefix sorted_peers (max_unchoked_peers m - 1) in
    if (max_unchoked_peers m <=? Z.of_nat (length sorted_peers))%Z then
      nth_peer ← zindex sorted_peers (max_unchoked_peers m - 1);
      Some (finish m (unchoked ++ [nth_peer]))
    else Some (finish m unchoked).
Proof.
  intros Hint Htime. unfold recalculate_choking.
  destruct (interested m) as [|e0 rest]; [done|]. by rewrite Htime.
Qed.

End StabilityFacts.

Section Stability.
Import Py PeerManager DictFacts SortedFacts ChokingFacts StabilityFacts.

(** X24.  A re-evaluation made before the optimistic timer has run out
    is stable: made again at the same time on the manager that it left,
    it returns the same peers and leaves the same manager. *)
Theorem recalculate_choking_stable (m m' : PeerManager) (now : Q)
    (choice choice' : nat) (selected : list (string * PeerStats)) :
  ¬ elapsed m now →
  recalculate_choking m now choice = Some (m', selected) →
  recalculate_choking m' now choice' = Some (m', selected).
Proof.
  intros Htime%Qnot_lt_le%Qltb_ge Hrec.
  destruct (decide (interested m = [])) as [Hnone|Hint].
  { unfold recalculate_choking in *. rewrite Hnone in Hrec.
    injection Hrec as <- <-. by rewrite Hnone. }
  rewrite recalculate_choking_in_time in Hrec by done. cbv zeta in Hrec.
  set (ranked := by_rate (interested m)) in *.
  set (top := zprefix ranked (max_unchoked_peers m - 1)) in *.
  assert (Hnext : ∀ unchoked,
            finish m unchoked = (m', selected) →
            interested m' = map (choke_all_but unchoked) (interested m)
            ∧ max_unchoked_peers m' = max_unchoked_peers m
            ∧ optimistic_unchoke_interval m' = optimistic_unchoke_interval m
            ∧ last_optimistic_unchoke m' = last_optimistic_unchoke m).
  { intros unchoked [= <- <-]. split; [by apply interested_choked | done]. }
  assert (Hagain : ∀ unchoked,
            finish m unchoked = (m', selected) →
            finish m' (map (choke_all_but unchoked) unchoked) = (m', selected)).
  { intros unchoked Hfin. pose proof (finish_again m unchoked) as Hsame.
    by rewrite Hfin in Hsame. }
  destruct (_ <=? _)%Z eqn:Hlen.
  - destruct (zindex ranked _) as [nth|] eqn:Hnth; [|done].
    cbn [mbind option_bind] in Hrec.
    assert (Hfin : finish m (top ++ [nth]) = (m', selected)) by congruence.
    clear Hrec. rename Hfin into Hrec.
    destruct (Hnext _ Hrec) as (Hint' & HK & Hi & Hl).
    rewrite recalculate_choking_in_time; [| |by rewrite Hi, Hl].
    + cbv zeta. rewrite Hint', HK, by_rate_choked. fold ranked.
      rewrite length_map, Hlen. unfold zprefix. rewrite zindex_fmap, zslice_fmap.
      fold (zprefix ranked (max_unchoked_peers m - 1)). fold top. rewrite Hnth.
      cbn [fmap option_fmap option_map mbind option_bind]. f_equal.
      rewrite <-(Hagain _ Hrec). by rewrite map_app.
    + rewrite Hint'. by destruct (interested m).
  - assert (Hfin : finish m top = (m', selected)) by congruence.
    clear Hrec. rename Hfin into Hrec.
    destruct (Hnext _ Hrec) as (Hint' & HK & Hi & Hl).
    rewrite recalculate_choking_in_time; [| |by rewrite Hi, Hl].
    + cbv zeta. rewrite Hint', HK, by_rate_choked. fold ranked.
      rewrite length_map, Hlen. unfold zprefix. rewrite zslice_fmap.
      fold (zprefix ranked (max_unchoked_peers m - 1)). fold top. f_equal.
      by apply Hagain.
    + rewrite Hint'. by destruct (interested m).
Qed.

Definition one_candidate : PeerManager :=
  ManagerFacts.set_flags (add_peer (init 4 0) "10.0.0.1" 6881 1).1 "10.0.0.1" 6881
    false true true.

Lemma recalculate_choking_stable_witness :
  ∃ m' selected,
    recalculate_choking one_candidate 2 0 = Some (m', selected)
    ∧ length selected = 1
    ∧ recalculate_choking m' 2 5 = Some (m', selected).
Proof.
  eexists _, _. split; [reflexivity|]. split; [reflexivity|].
  refine (recalculate_choking_stable one_candidate _ 2 0 5 _ _ eq_refl).
  unfold elapsed. intros Hlt. by apply Qlt_alt in Hlt.
Defined.

End Stability.

(** ** Integers that are not canonical *)

Module PaddedFacts.
Import Py Bencode StrFacts DecodeFacts.

(** An integer whose text starts with neither [0] nor [-] passes the
    checks of [_parse_int]; [int] decides. *)
Lemma decode_int_literal (c : ascii) (t : bytes) (z : Z) :
  c ≠ "0"%char → c ≠ "-"%char → "e"%char ∉ c :: t → int (c :: t) = Some z →
  decode (b "i" ++ (c :: t) ++ b "e") = Done (BInt z).
Proof.
  intros H0 Hminus He Hint. unfold decode, budget.
  set (s := c :: t) in *. set (data := b "i" ++ s ++ b "e").
  assert (Hlen : length data = length s + 2)
    by (unfold data; cbn [b list_ascii_of_string app length]; rewrite length_app;
        simpl; lia).
  replace (2 * length data + 1) with (S (2 * length data)) by lia.
  rewrite _parse_value_S. rewrite (proj2 (Nat.leb_gt _ _)) by lia.
  assert (Hi : at_is data 0 "i" = true) by (by apply bool_decide_eq_true_2).
  rewrite Hi. unfold _parse_int. rewrite Hi. cbn [negb Nat.add].
  assert (Hfind : find "e" data 1 = Some (1 + length s)).
  { apply (find_app "e"%char ["i"%char] s []). done. }
  rewrite Hfind.
  assert (Hslice : slice data 1 (1 + length s) = s).
  { apply (slice_middle ["i"%char] s ["e"%char]). }
  rewrite Hslice.
  rewrite (bool_decide_eq_false_2 (s = [])) by done.
  rewrite (bool_decide_eq_false_2 (s = b "-0")) by (unfold s; by intros [= -> _]).
  unfold slice at 1 2. cbn [drop Nat.sub take s].
  rewrite (bool_decide_eq_false_2 ([c] = b "0")) by (by intros [= ->]).
  rewrite (bool_decide_eq_false_2 ([c] = b "-")) by (by intros [= ->]).
  cbn [andb]. fold s. rewrite Hint. cbn [mbind outcome_bind].
  by rewrite (proj2 (Nat.eqb_eq _ _)) by lia.
Qed.

Lemma strip_digits (s : bytes) :
  s ≠ [] → forallb is_digit s = true → strip s = s.
Proof.
  intros Hne Hdig. rewrite forallb_forall in Hdig. apply strip_id.
  - intros c Hc. apply is_digit_not_space, Hdig, list_elem_of_In.
    by apply head_Some_elem_of.
  - intros c Hc. apply is_digit_not_space, Hdig, list_elem_of_In.
    by apply last_Some_elem_of.
Qed.

Lemma digits_no_e (s : bytes) : forallb is_digit s = true → "e"%char ∉ s.
Proof.
  intros Hdig Hin. rewrite forallb_forall in Hdig.
  by apply list_elem_of_In, Hdig in Hin.
Qed.

(** White space before a text that does not end with white space. *)
Lemma strip_space (s : bytes) :
  (∀ c, last s = Some c → is_space c = false) → s ≠ [] →
  strip (" "%char :: s) = lstrip s.
Proof.
  intros Hlast Hne. unfold strip. cbn [lstrip]. change (is_space " ") with true.
  cbn match.
  destruct (lstrip s) as [|c r] eqn:Hs.
  - exfalso. destruct s as [|x s] using rev_ind; [done|].
    specialize (Hlast x). rewrite last_snoc in Hlast. specialize (Hlast eq_refl).
    clear -Hs Hlast. induction s as [|y s IH]; simpl in Hs.
    + by rewrite Hlast in Hs.
    + destruct (is_space y); [by apply IH | done].
  - rewrite <-Hs. rewrite lstrip_id; [apply reverse_involutive|].
    intros x. rewrite head_reverse. intros Hx. apply Hlast.
    assert (Hsuffix : ∃ pre, s = pre ++ lstrip s).
    { clear. induction s as [|y s [pre IH]]; [by exists []|]. simpl.
      destruct (is_space y); [|by exists []]. exists (y :: pre). simpl. by f_equal. }
    destruct Hsuffix as [pre Hpre]. rewrite Hpre, last_app. by rewrite Hx.
Qed.

End PaddedFacts.

Section Padded.
Import Py Bencode StrFacts DecodeFacts PaddedFacts.

(** X25.  A space or a plus sign before the digits takes an integer past
    the checks on leading zeros and on minus zero: for every string of
    digits, with leading zeros or not, [i], a space or a plus sign, the
    digits and [e] decode to the number written, and [i], a space, a
    minus sign, the digits and [e] decode to its opposite. *)
Theorem decode_int_padded (digits : bytes) :
  digits ≠ [] → forallb is_digit digits = true →
  decode (b "i " ++ digits ++ b "e") = Done (BInt (digits_val 0 digits))
  ∧ decode (b "i+" ++ digits ++ b "e") = Done (BInt (digits_val 0 digits))
  ∧ decode (b "i -" ++ digits ++ b "e") = Done (BInt (- digits_val 0 digits)).
Proof.
  intros Hne Hdig. pose proof (digits_no_e digits Hdig) as He.
  assert (Hlast : ∀ c, last digits = Some c → is_space c = false).
  { intros c Hc. apply is_digit_not_space. rewrite forallb_forall in Hdig.
    by apply Hdig, list_elem_of_In, last_Some_elem_of. }
  split_and!.
  - apply (decode_int_literal " "%char digits); [done | done | |].
    + apply not_elem_of_cons. done.
    + unfold int. rewrite strip_space by done.
      rewrite lstrip_id by (intros c Hc; apply is_digit_not_space;
        rewrite forallb_forall in Hdig; by apply Hdig, list_elem_of_In, head_Some_elem_of).
      destruct digits as [|d digits']; [done|].
      pose proof Hdig as [Hd _]%andb_true_iff.
      rewrite !bool_decide_eq_false_2
        by (apply is_digit_neq; [done | left; reflexivity]).
      by apply int_unsigned_all.
  - apply (decode_int_literal "+"%char digits); [done | done | |].
    + apply not_elem_of_cons. done.
    + unfold int. rewrite strip_id.
      * rewrite bool_decide_eq_false_2, bool_decide_eq_true_2 by done.
        by apply int_unsigned_all.
      * by intros c [= <-].
      * intros c. rewrite last_cons. destruct (last digits) eqn:Hl;
          [intros [= <-]; by apply Hlast | by apply last_None in Hl].
  - apply (decode_int_literal " "%char ("-"%char :: digits)); [done | done | |].
    + rewrite !not_elem_of_cons. done.
    + unfold int. rewrite strip_space; [| |done].
      * cbn [lstrip]. change (is_space "-") with false. cbn match.
        rewrite bool_decide_eq_true_2 by done.
        by rewrite int_unsigned_all.
      * intros c. rewrite last_cons. destruct (last digits) eqn:Hl;
          [intros [= <-]; by apply Hlast | by apply last_None in Hl].
Qed.

Lemma decode_int_padded_witness :
  decode (b "i 007e") = Done (BInt 7) ∧ decode (b "i -0e") = Done (BInt 0).
Proof.
  split.
  - exact (proj1 (decode_int_padded (b "007") ltac:(done) eq_refl)).
  - exact (proj2 (proj2 (decode_int_padded (b "0") ltac:(done) eq_refl))).
Defined.

End Padded.

(** ** A session, from the handshake to the messages *)

Module WaitingFacts.
Import Py TrackerHTTP PeerProtocol Downloader FramingFacts.


(** The budgets of the two loops are enough: a round of the inner loop
    takes four bytes at least, and a round of the waiting loop takes a
    byte from the socket or counts a timeout. *)
Lemma read_until_unchoke_fuel f1 f2 buffer :
  length buffer ≤ f1 → length buffer ≤ f2 →
  read_until_unchoke f1 buffer = read_until_unchoke f2 buffer.
Proof.
  revert f2 buffer. induction f1 as [|f1 IH]; intros f2 buffer H1 H2.
  - destruct buffer; [|simpl in H1; lia]. by destruct f2.
  - destruct f2 as [|f2].
    + destruct buffer; [done | simpl in H2; lia].
    + cbn [read_until_unchoke].
      destruct (parse_message buffer) as [[id payload] c] eqn:Hparse.
      destruct (c =? 0) eqn:Hc; [done|]. apply Nat.eqb_neq in Hc.
      pose proof (parse_message_consumed _ _ _ _ Hparse Hc).
      case_bool_decide; [done|]. apply IH; rewrite length_drop; lia.
Qed.

Lemma wait_for_unchoke_returns fuel sock buffer timeout_counter :
  length (concat sock) + (3 - timeout_counter) ≤ fuel →
  is_Some (wait_for_unchoke fuel sock buffer timeout_counter).
Proof.
  revert sock buffer timeout_counter.
  induction fuel as [|fuel IH]; intros sock buffer timeout_counter Hfuel.
  - cbn [wait_for_unchoke]. rewrite (proj2 (Nat.leb_le _ _)) by lia. done.
  - cbn [wait_for_unchoke]. destruct (3 <=? timeout_counter) eqn:Hcount; [done|].
    apply Nat.leb_gt in Hcount. destruct sock as [|segment rest].
    { cbn [recv]. apply IH. cbn [concat length] in *. lia. }
    destruct segment as [|c segment]; [done|].
    assert (Hrecv : recv ((c :: segment) :: rest) 4096
                    = Received (c :: take 4095 segment)
                        (if bool_decide (drop 4096 (c :: segment) = []) then rest
                         else drop 4096 (c :: segment) :: rest)) by done.
    rewrite Hrecv. cbv zeta.
    destruct (read_until_unchoke _ _) as [[] buffer']; [done|].
    apply IH. cbn [concat] in Hfuel. rewrite !length_app in Hfuel.
    cbn [length] in Hfuel.
    case_bool_decide as Hdrop.
    + lia.
    + cbn [concat]. rewrite length_app, length_drop. cbn [length]. lia.
Qed.




End WaitingFacts.

Section Session.
Import Py TrackerHTTP PeerProtocol Downloader FramingFacts ProtocolFacts RunFacts
  WaitingFacts.

(** X26.  [create_message] succeeds exactly for a message id of one byte
    and a payload whose length plus one fits in 32 bits.  The message
    has five bytes more than the payload, its length prefix is the
    length of the payload plus one, and [parse_message] reads it back,
    with anything after it, as the id and the payload. *)
Theorem create_message_frames (message_id : Z) (payload rest : bytes) :
  (is_Some (create_message message_id payload)
   ↔ (0 ≤ message_id < 256)%Z ∧ (1 + Z.of_nat (length payload) < 2 ^ 32)%Z)
  ∧ ∀ message, create_message message_id payload = Some message →
      length message = 5 + length payload
      ∧ unpack_be (take 4 message) = (1 + Z.of_nat (length payload))%Z
      ∧ parse_message (message ++ rest)
        = (Some message_id, Some payload, 5 + length payload).
Proof.
  assert (Hbuild : (0 ≤ message_id < 256)%Z → (1 + Z.of_nat (length payload) < 2 ^ 32)%Z →
            ∃ p, pack_be32 (1 + Z.of_nat (length payload)) = Some p
                 ∧ create_message message_id payload
                   = Some (p ++ byte_of message_id :: payload)
                 ∧ Z.of_N (ord (byte_of message_id)) = message_id).
  { intros Hid Hlen.
    destruct (create_message_Some (byte_of message_id) payload Hlen) as (p & Hp & Hmsg).
    rewrite ord_byte_of in Hmsg by done. exists p. split_and!; try done.
    by apply ord_byte_of. }
  assert (Hrange : is_Some (create_message message_id payload) →
            (0 ≤ message_id < 256)%Z ∧ (1 + Z.of_nat (length payload) < 2 ^ 32)%Z).
  { intros [message Hmsg]. unfold create_message in Hmsg.
    destruct (decide (0 ≤ 1 + Z.of_nat (length payload) < 2 ^ 32)%Z) as [Hlen|Hlen];
      [|by rewrite (pack_be32_None _ Hlen) in Hmsg].
    split; [|lia]. destruct (pack_be32 _); [|done]. simpl in Hmsg.
    unfold bytes_of_int in Hmsg.
    destruct ((0 <=? message_id) && (message_id <? 256))%Z eqn:Hid; [|done].
    apply andb_true_iff in Hid as [?%Z.leb_le ?%Z.ltb_lt]. lia. }
  split.
  - split; [exact Hrange|]. intros [Hid Hlen].
    destruct (Hbuild Hid Hlen) as (p & _ & -> & _). by eexists.
  - intros message Hmsg. destruct (Hrange (mk_is_Some _ _ Hmsg)) as [Hid Hlen].
    destruct (Hbuild Hid Hlen) as (p & Hp & Hmsg' & Hord).
    rewrite Hmsg' in Hmsg. injection Hmsg as <-.
    pose proof (pack_length _ _ Hp) as Hlp. split_and!.
    + rewrite length_app. simpl. lia.
    + rewrite take_app_length' by done. by apply unpack_pack.
    + pose proof (parse_message_wire (Message (byte_of message_id) payload) rest Hlen)
        as Hparse.
      destruct (wire_message (byte_of message_id) payload Hlen) as (p' & Hp' & Hwire).
      rewrite Hp in Hp'. injection Hp' as <-. rewrite Hwire in Hparse.
      rewrite Hparse. cbn [parsed fst snd]. rewrite Hord. do 2 f_equal.
      rewrite length_app. simpl. lia.
Qed.

Lemma create_message_frames_witness :
  ∃ message, create_message MSG_INTERESTED [] = Some message ∧ length message = 5.
Proof.
  eexists. split; [reflexivity|].
  exact (proj1 (proj2 (create_message_frames MSG_INTERESTED [] []) _ eq_refl)).
Defined.



(** X28.  [download_and_verify_piece] returns [True] exactly when it has
    stored bytes for the piece: then the bytes stored are not empty and
    have the digest expected, the piece is in the set of the pieces
    downloaded, and the other pieces are as before.  When it returns
    [False] nothing has changed: a piece stored before stays. *)
Theorem download_and_verify_piece_result (sha1 : bytes → bytes) (pieces_hashes : bytes)
    (peers_list : list Peer) (peer : Peer) (piece_idx : Z) (st : State)
    (net : list (option bytes)) :
  let r := download_and_verify_piece sha1 pieces_hashes peers_list peer piece_idx st net in
  let st' := r.1.1 in
  if r.1.2
  then ∃ data, dict_get (pieces_data st') piece_idx = Some data
               ∧ data ≠ []
               ∧ sha1 data = zslice pieces_hashes (piece_idx * 20) ((piece_idx + 1) * 20)
               ∧ pieces_downloaded st' = {[piece_idx]} ∪ pieces_downloaded st
               ∧ ∀ i, i ≠ piece_idx →
                      dict_get (pieces_data st') i = dict_get (pieces_data st) i
  else st' = st.
Proof.
  intros r st'. subst st' r. unfold download_and_verify_piece.
  generalize (zprefix peers_list 3).
  generalize (zslice pieces_hashes (piece_idx * 20) ((piece_idx + 1) * 20)).
  intros expected_hash first3. revert net.
  induction peers_list as [|attempt_peer rest IH]; intros net; cbn [try_peers]; [done|].
  destruct (bool_decide (attempt_peer = peer) || bool_decide (attempt_peer ∈ first3));
    [|exact (IH net)].
  destruct net as [|[[|c data]|] net]; cbn [head tail mjoin option_join];
    try exact (IH _).
  case_bool_decide as Hhash; [|exact (IH _)].
  cbn [fst snd pieces_data pieces_downloaded]. exists (c :: data).
  split_and!; [apply DictFacts.dict_get_set_eq | done | done | done |].
  intros i Hi. by apply DictFacts.dict_get_set_ne.
Qed.

End Session.
